(** * RoadShow: the ingestion pipeline of the Craigslist antique scraper

    A shallow embedding of [src/ai/openaiService.ts] (the enrichment client)
    and [src/scraper/craigslistScraper.ts] (listing fetcher and asset
    downloader), with the properties of the specification stated over it.

    Layout:
    - [JS]: the fragment of the ECMAScript semantics the two files rely on
      (numbers, [Number], [String], [Math.min]/[Math.max], [trim],
      [toLowerCase], [parseInt]);
    - [OpenAIService]: validation, response parsing, the retry loop and the
      outward call [analyzeAntique];
    - [CraigslistScraper]: URL collection over result pages and the tabs
      of the browser session, the detail fetch, and the image downloads
      over a file system;
    - [Fixture]: a host and inputs for the worked examples;
    - [Spec]: notions the specification uses and the code does not define;
    - [AntiqueAnalyzer], [Config], [Logger]: the run of [src/index.ts]
      over the storage calls, the configuration and the log files;
    - the properties, claim by claim, and the further properties. *)

From stdpp Require Import gmap strings list pretty.
From Stdlib Require Import ZArith QArith Ascii String SpecFloat Lia Bool.
Import ListNotations.

Local Open Scope string_scope.
Local Open Scope Z_scope.

(* ===================================================================== *)
(** * The JavaScript fragment *)
(* ===================================================================== *)

Module JS.

(** ** Numbers

    A JavaScript number is an IEEE 754 binary64 value: [spec_float] at
    precision 53 and maximal exponent 1024. *)

Definition number : Type := spec_float.

Definition prec : Z := 53.
Definition emax : Z := 1024.

Definition NaN : number := S754_nan.
Definition pos_zero : number := S754_zero false.
Definition neg_zero : number := S754_zero true.
Definition Infinity : number := S754_infinity false.
Definition one : number := S754_finite false 4503599627370496 (-52).

(** [of_Z n] is the number nearest to the integer [n] (ties to even). *)
Definition of_Z (n : Z) : number := binary_normalize prec emax n 0 false.

Definition isNaN (x : number) : bool :=
  match x with S754_nan => true | _ => false end.

Definition is_finite (x : number) : bool :=
  match x with S754_zero _ | S754_finite _ _ _ => true | _ => false end.

(** The exact rational value of a finite number; [0] on the others. *)
Definition F2Q (x : number) : Q :=
  match x with
  | S754_finite s m e =>
      let sm := if s then Z.neg m else Z.pos m in
      match e with
      | Z.neg p => Qmake sm (2 ^ p)%positive
      | _ => Qmake (sm * 2 ^ e) 1
      end
  | _ => 0%Q
  end.

(** [x < y] on numbers, as the language compares them: false as soon as
    one side is [NaN], both zeros equal, finite values by exact value. *)
Definition IsLessThan (x y : number) : bool :=
  match x, y with
  | S754_nan, _ | _, S754_nan => false
  | S754_infinity sx, S754_infinity sy => sx && negb sy
  | S754_infinity sx, _ => sx
  | _, S754_infinity sy => negb sy
  | _, _ => match (F2Q x ?= F2Q y)%Q with Lt => true | _ => false end
  end.

Definition is_pos_zero (x : number) : bool :=
  match x with S754_zero false => true | _ => false end.
Definition is_neg_zero (x : number) : bool :=
  match x with S754_zero true => true | _ => false end.

(** [Math.max(a, b)]: [NaN] if either is; [+0] is larger than [-0]. *)
Definition Math_max (a b : number) : number :=
  if isNaN a || isNaN b then NaN
  else if is_neg_zero a && is_pos_zero b then b
  else if IsLessThan a b then b else a.

(** [Math.min(a, b)]: [NaN] if either is; [-0] is smaller than [+0]. *)
Definition Math_min (a b : number) : number :=
  if isNaN a || isNaN b then NaN
  else if is_pos_zero a && is_neg_zero b then b
  else if IsLessThan b a then b else a.

(** ** Strings

    Strings are sequences of code units; the model covers the code units
    below 256 (Latin-1), which Rocq's [ascii] holds. *)

Definition code (c : ascii) : N := N_of_ascii c.

Definition between (lo hi : N) (c : ascii) : bool :=
  ((lo <=? code c) && (code c <=? hi))%N.

(** White space and line terminators removed by [trim] and skipped by
    [Number]: TAB, LF, VT, FF, CR, SP and NBSP. *)
Definition is_white (c : ascii) : bool :=
  between 9 13 c || (code c =? 32)%N || (code c =? 160)%N.

Fixpoint trimStart (s : string) : string :=
  match s with
  | String c r => if is_white c then trimStart r else s
  | EmptyString => EmptyString
  end.

Fixpoint trimEnd (s : string) : string :=
  match s with
  | String c r =>
      match trimEnd r with
      | EmptyString => if is_white c then EmptyString else String c EmptyString
      | r' => String c r'
      end
  | EmptyString => EmptyString
  end.

(** [s.trim()] *)
Definition trim (s : string) : string := trimEnd (trimStart s).

Definition is_empty (s : string) : bool :=
  match s with EmptyString => true | _ => false end.

(** [c.toLowerCase()] on one code unit: A-Z, and the Latin-1 capitals
    U+00C0..U+00DE except the multiplication sign U+00D7. *)
Definition lower_char (c : ascii) : ascii :=
  if between 65 90 c || (between 192 222 c && negb (code c =? 215)%N)
  then ascii_of_N (code c + 32) else c.

(** [s.toLowerCase()] *)
Fixpoint toLowerCase (s : string) : string :=
  match s with
  | String c r => String (lower_char c) (toLowerCase r)
  | EmptyString => EmptyString
  end.

(** [a.includes(x)] on an array of strings. *)
Definition includes (a : list string) (x : string) : bool :=
  existsb (String.eqb x) a.

(** ** Numeric literals: [StringToNumber] *)

Definition is_digit (c : ascii) : bool := between 48 57 c.

Definition digit_val (c : ascii) : Z := Z.of_N (code c) - 48.

(** Value of a hexadecimal digit, when [c] is one. *)
Definition hex_val (c : ascii) : option Z :=
  if is_digit c then Some (digit_val c)
  else if between 97 102 c then Some (Z.of_N (code c) - 87)
  else if between 65 70 c then Some (Z.of_N (code c) - 55)
  else None.

(** The longest prefix of decimal digits, and what follows it. *)
Fixpoint take_digits (s : string) : list Z * string :=
  match s with
  | String c r =>
      if is_digit c
      then let '(ds, rest) := take_digits r in (digit_val c :: ds, rest)
      else ([], s)
  | EmptyString => ([], EmptyString)
  end.

Definition digits_value (base : Z) (ds : list Z) : Z :=
  fold_left (fun acc d => base * acc + d) ds 0.

(** An optional sign; [true] stands for [-]. *)
Definition take_sign (s : string) : bool * string :=
  match s with
  | String c r =>
      if (c =? "+")%char then (false, r)
      else if (c =? "-")%char then (true, r)
      else (false, s)
  | EmptyString => (false, s)
  end.

(** [ExponentPart] (optional), up to the end of the string. *)
Definition parse_exponent (s : string) : option Z :=
  match s with
  | EmptyString => Some 0
  | String c r =>
      if (c =? "e")%char || (c =? "E")%char then
        let '(neg, r1) := take_sign r in
        match take_digits r1 with
        | (d :: ds, EmptyString) =>
            let v := digits_value 10 (d :: ds) in
            Some (if neg then - v else v)
        | _ => None
        end
      else None
  end.

(** The number nearest to [m * 10 ^ e], for [m >= 0]. *)
Definition decimal_to_number (m e : Z) : number :=
  match m with
  | Z.pos p =>
      match e with
      | Z.neg k => SFdiv prec emax (S754_finite false p 0)
                                   (S754_finite false (10 ^ k)%positive 0)
      | _ => of_Z (m * 10 ^ e)
      end
  | _ => pos_zero
  end.

(** [StrUnsignedDecimalLiteral] *)
Definition parse_unsigned_decimal (s : string) : option number :=
  if (s =? "Infinity")%string then Some Infinity else
  let '(ip, r1) := take_digits s in
  let '(fp, r2) :=
    match r1 with
    | String c r => if (c =? ".")%char then take_digits r else ([], r1)
    | EmptyString => ([], r1)
    end in
  match (ip ++ fp)%list with
  | [] => None
  | ds =>
      match parse_exponent r2 with
      | Some ex => Some (decimal_to_number (digits_value 10 ds)
                                           (ex - Z.of_nat (List.length fp)))
      | None => None
      end
  end.

(** Digits of a [NonDecimalIntegerLiteral] in base [base], to the end. *)
Fixpoint radix_digits (base : Z) (s : string) : option (list Z) :=
  match s with
  | EmptyString => Some []
  | String c r =>
      match hex_val c with
      | Some d =>
          if d <? base
          then match radix_digits base r with
               | Some ds => Some (d :: ds)
               | None => None
               end
          else None
      | None => None
      end
  end.

Definition parse_radix (base : Z) (s : string) : option number :=
  match radix_digits base s with
  | Some (d :: ds) => Some (of_Z (digits_value base (d :: ds)))
  | _ => None
  end.

(** The prefix of a [NonDecimalIntegerLiteral]: its base and what follows
    the prefix. *)
Definition radix_prefix (s : string) : option (Z * string) :=
  match s with
  | String z (String x r) =>
      if (z =? "0")%char then
        if (x =? "x")%char || (x =? "X")%char then Some (16, r)
        else if (x =? "o")%char || (x =? "O")%char then Some (8, r)
        else if (x =? "b")%char || (x =? "B")%char then Some (2, r)
        else None
      else None
  | _ => None
  end.

(** [StrNumericLiteral]: a prefixed integer without sign, or a signed
    decimal literal. *)
Definition parse_numeric_literal (s : string) : option number :=
  match radix_prefix s with
  | Some (base, r) => parse_radix base r
  | None =>
      let '(neg, r) := take_sign s in
      match parse_unsigned_decimal r with
      | Some v => Some (if neg then SFopp v else v)
      | None => None
      end
  end.

(** [StringToNumber(s)]: white space is trimmed, the empty string is [+0],
    a numeric literal is its rounded value, anything else is [NaN]. *)
Definition StringToNumber (s : string) : number :=
  let t := trim s in
  if is_empty t then pos_zero
  else match parse_numeric_literal t with
       | Some v => v
       | None => NaN
       end.

(** [parseInt(s, 10)]: leading white space, an optional sign, then the
    longest prefix of decimal digits; [NaN] when there is no digit. *)
Definition parseInt10 (s : string) : number :=
  let '(neg, r) := take_sign (trimStart s) in
  match take_digits r with
  | ([], _) => NaN
  | (ds, _) =>
      let v := of_Z (digits_value 10 ds) in
      if neg then SFopp v else v
  end.

(** ** Values

    The values [JSON.parse] produces, and [undefined] for a property that
    is not there. An object is the list of its own properties, keys
    distinct, in insertion order. *)

#[local] Unset Elimination Schemes.
Inductive JsValue : Type :=
| JUndefined
| JNull
| JBool (b : bool)
| JNum (x : number)
| JStr (s : string)
| JArr (elems : list JsValue)
| JObj (props : list (string * JsValue)).
#[local] Set Elimination Schemes.

(** [v.key]; [None] where the access throws a TypeError ([null] and
    [undefined] have no properties). The keys read by the program are not
    names of built-in properties, so the primitives and arrays answer
    [undefined]. *)
Definition get_prop (v : JsValue) (key : string) : option JsValue :=
  match v with
  | JUndefined | JNull => None
  | JObj props =>
      match find (fun kv => String.eqb (fst kv) key) props with
      | Some kv => Some (snd kv)
      | None => Some JUndefined
      end
  | _ => Some JUndefined
  end.

(** [typeof v === 'string'] *)
Definition is_string (v : JsValue) : bool :=
  match v with JStr _ => true | _ => false end.

(** Truthiness of a string, and [a || b] on strings. *)
Definition truthy_str (s : string) : bool := negb (is_empty s).
Definition or_str (a b : string) : string := if truthy_str a then a else b.

(** ** The host

    Built-ins of the engine and of Node that the program calls and whose
    algorithms are not reproduced here. *)

Class Host : Type := {
  (** [Number.prototype.toString], radix 10 *)
  NumberToString : number -> string;
  (** [JSON.parse]; [None] is a SyntaxError *)
  JSON_parse : string -> option JsValue;
  (** time value of [new Date(text)]; [None] is the Invalid Date *)
  Date_parse : string -> option Z;
  (** [new URL(u).pathname]; [None] is the TypeError of an invalid URL *)
  URL_pathname : string -> option string;
  (** [path.extname] and [path.join] *)
  path_extname : string -> string;
  path_join : string -> string -> string
}.

(** [Object.hasOwn(obj, key)] *)
Definition has_own (props : list (string * JsValue)) (key : string) : bool :=
  existsb (fun kv => String.eqb (fst kv) key) props.

(** [Array.prototype.join(",")] on the converted elements: [None] as soon
    as the conversion of an element throws. *)
Fixpoint join (items : list (option string)) : option string :=
  match items with
  | [] => Some ""
  | [item] => item
  | item :: rest =>
      first ← item; others ← join rest; Some (first ++ "," ++ others)
  end.

Section Conversions.
Context `{Host}.

(** [String(v)]; [None] is a TypeError. An object is converted by its
    [toString] method, when that is callable, and else by [valueOf]. For a
    parsed object the inherited [toString] answers "[object Object]"; an
    own property [toString] hides it and, being data, is not callable,
    and [valueOf] (own or inherited) gives no primitive: the conversion
    throws. An array is converted by [join], which converts its elements
    in turn. *)
Fixpoint ToString (v : JsValue) : option string :=
  match v with
  | JUndefined => Some "undefined"
  | JNull => Some "null"
  | JBool true => Some "true"
  | JBool false => Some "false"
  | JNum x => Some (NumberToString x)
  | JStr s => Some s
  | JArr elems =>
      (* null and undefined elements are empty in a join *)
      join (map (fun x => match x with
                          | JUndefined | JNull => Some ""
                          | _ => ToString x
                          end) elems)
  | JObj props =>
      if has_own props "toString" then None else Some "[object Object]"
  end.

(** [Number(v)]; [None] is a TypeError. An object or an array is first
    converted to a primitive, by [valueOf] and then [toString]: the
    inherited [valueOf] answers the object itself, so that it is the
    string of [toString] that is converted, when there is one. *)
Definition ToNumber (v : JsValue) : option number :=
  match v with
  | JUndefined => Some NaN
  | JNull => Some pos_zero
  | JBool true => Some one
  | JBool false => Some pos_zero
  | JNum x => Some x
  | JStr s => Some (StringToNumber s)
  | JArr _ | JObj _ =>
      match ToString v with
      | Some s => Some (StringToNumber s)
      | None => None
      end
  end.

End Conversions.

(** ** Dates: a time value in milliseconds, or the Invalid Date. *)

Definition Date : Type := option Z.

(** [d.toISOString()]; [None] is the RangeError thrown on the Invalid
    Date. The ISO text of a valid date is identified with its time value,
    which [new Date(iso)] gives back. *)
Definition toISOString (d : Date) : option Z := d.
Definition Date_of_ISO (iso : Z) : Date := Some iso.

(** ** Completion of a call: a value, or a thrown error. *)

Inductive Error : Type :=
| ApiFailure (status : option Z)   (* error of the inference API, with .status *)
| RetriesExhausted                  (* `Failed to analyze antique after 3 attempts` *)
| BrowserNotInitialized
| SessionError                      (* a tab that does not open or close *)
| InvalidURL.

Inductive Outcome (A : Type) : Type :=
| Returned (a : A)
| Thrown (e : Error).
Arguments Returned {A} a.
Arguments Thrown {A} e.

End JS.

Import JS.

(* ===================================================================== *)
(** * src/scraper/craigslistScraper.ts *)
(* ===================================================================== *)

Module CraigslistScraper.

Record ListingData : Type := {
  id : string;
  url : string;
  title : string;
  price : option number;            (* number | null *)
  description : string;
  location : string;
  postedDate : Date;
  imageUrls : list string;
  metadata : list (string * string)
}.

Record ImageData : Type := {
  img_id : string;
  listingId : string;
  filename : string;
  originalUrl : string;
  localPath : string;
  contentType : string;
  size : number
}.

(** The part of [craigslistConfig] that drives the control flow. *)
Record CraigslistConfig : Type := {
  maxPages : Z;
  resultsPerPage : Z
}.

(** ** The remote site and the session

    What a visit meets is the site and the browser session. On the side
    of the site, the navigation or an evaluation inside the page may
    throw, and otherwise the DOM queries answer. On the side of the
    session, opening, configuring and closing a tab may throw. *)

(** A search-results page, as [collectListings] sees it. *)
Inductive SearchPage : Type :=
| SearchThrows                        (* page.goto / page.evaluate throws *)
| NoResults                           (* `.alert-warning` is present *)
| Results (hrefs : list string).      (* hrefs of the `.result-title` links *)

(** What the session does with the tab of a result page: whether
    [newPage()] and [configurePageDefaults(page)] succeed, whether the
    [page.close()] of the [try] block succeeds, and whether the
    [page.close()] of the [catch] block succeeds. *)
Record Tab : Type := {
  tab_opens : bool;
  tab_closes : bool;
  tab_closes_after_error : bool
}.

(** What the DOM queries of a detail page answer: the [textContent] of the
    first match of a selector ([None]: no match), the [data-src] of each
    gallery thumb, the text of each attribute span. *)
Record DetailDom : Type := {
  sel_price : option string;            (* .price *)
  sel_titletextonly : option string;    (* #titletextonly *)
  sel_date_timeago : option string;     (* .date.timeago *)
  sel_mapaddress : option string;       (* .mapaddress *)
  sel_mapbox_small : option string;     (* .mapbox small *)
  sel_postingbody : option string;      (* #postingbody *)
  thumbs_data_src : list (option string);
  attrgroup_spans : list string
}.

Inductive DetailPage : Type :=
| DetailThrows                        (* page.goto / first evaluate throws *)
| Removed                             (* `.removed` or `.expired` is present *)
| Live (dom : DetailDom).

(** One visit of a detail page: whether the tab opens ([newPage] and
    [configurePageDefaults] succeed), the page, whether the tab closes
    once the data is extracted ([page.close()] succeeds), the clock of the
    page at the visit ([new Date()]), and the identifier [uuidv4()]
    draws. *)
Record DetailVisit : Type := {
  visit_opens : bool;
  visit_page : DetailPage;
  visit_closes : bool;
  visit_now : Z;
  visit_uuid : string
}.

(** ** URL collection *)

(** [set.add(u)] on a [Set<string>], kept in insertion order. *)
Definition Set_add (set : list string) (u : string) : list string :=
  if existsb (String.eqb u) set then set else (set ++ [u])%list.

(** [pageListingUrls.forEach(url => listingUrls.add(url))] *)
Definition Set_add_all (set : list string) (us : list string) : list string :=
  fold_left Set_add us set.

(** State of the pagination loop: the URL set, the result pages that
    were navigated to, oldest first, and the page number at which an error
    left the loop for the outer [catch], if one did. *)
Record Collected : Type := {
  listingUrls : list string;
  navigated : list nat;
  loop_error : option nat
}.

Section Collect.
Variable config : CraigslistConfig.
Variable search : nat -> SearchPage.   (* the result page at each page number *)
Variable tabs : nat -> Tab.            (* the tab of each page number *)

(** One iteration of the [for] loop of [collectListings], at [pageNum]:
    the state after it, and whether the loop goes on to the next page
    number. *)
Definition collectPage (pageNum : nat) (st : Collected) : Collected * bool :=
  let tab := tabs pageNum in
  if negb (tab_opens tab) then
    (* newPage or configurePageDefaults throws: outer catch *)
    ({| listingUrls := listingUrls st; navigated := navigated st;
        loop_error := Some pageNum |}, false)
  else
    let st1 := {| listingUrls := listingUrls st;
                  navigated := (navigated st ++ [pageNum])%list;
                  loop_error := loop_error st |} in
    (* the catch block: log, close the page; then the next iteration,
       unless the close throws in its turn: outer catch *)
    let handler (st' : Collected) : Collected * bool :=
      if tab_closes_after_error tab then (st', true)
      else ({| listingUrls := listingUrls st'; navigated := navigated st';
               loop_error := Some pageNum |}, false) in
    match search pageNum with
    | SearchThrows => handler st1
    | NoResults =>
        if tab_closes tab then (st1, false)              (* break *)
        else handler st1
    | Results hrefs =>
        let st2 := {| listingUrls := Set_add_all (listingUrls st1) hrefs;
                      navigated := navigated st1;
                      loop_error := loop_error st1 |} in
        if tab_closes tab then
          if Z.of_nat (List.length hrefs) <? resultsPerPage config
          then (st2, false)                              (* break *)
          else (st2, true)
        else handler st2
    end.

(** The [for] loop of [collectListings] from [pageNum] on, with
    [remaining = maxPages - pageNum] iterations left. *)
Fixpoint collectFrom (remaining pageNum : nat) (st : Collected) : Collected :=
  match remaining with
  | O => st
  | S remaining' =>
      let '(st', goes_on) := collectPage pageNum st in
      if goes_on then collectFrom remaining' (S pageNum) st' else st'
  end.

Definition collectUrls : Collected :=
  collectFrom (Z.to_nat (maxPages config)) 0
              {| listingUrls := []; navigated := []; loop_error := None |}.

(** [Array.from(listingUrls)], the elements of the set when the loop is
    left, in insertion order: one [queue.add(() => scrapeListingPage(url))]
    per element, in a run that no error took out of the loop. *)
Definition detailTasks : list string := listingUrls collectUrls.

End Collect.

(** ** The detail fetch *)

(** [getText(selector)]: trimmed text of the first match, or the empty
    string. *)
Definition getText (sel : option string) : string :=
  match sel with
  | Some t => trim t
  | None => ""
  end.

(** [s.replace(/[$,]/g, '')] *)
Fixpoint strip_currency (s : string) : string :=
  match s with
  | String c r =>
      if (c =? "$")%char || (c =? ",")%char
      then strip_currency r else String c (strip_currency r)
  | EmptyString => EmptyString
  end.

(** [s] without the prefix [pat], when it has it. *)
Fixpoint strip_prefix (pat s : string) : option string :=
  match pat, s with
  | EmptyString, _ => Some s
  | String p pat', String c s' =>
      if (p =? c)%char then strip_prefix pat' s' else None
  | String _ _, EmptyString => None
  end.

(** [s.replace(pat, rep)] with a string pattern: the first occurrence. *)
Fixpoint replace_first (pat rep s : string) : string :=
  match strip_prefix pat s with
  | Some rest => rep ++ rest
  | None =>
      match s with
      | String c r => String c (replace_first pat rep r)
      | EmptyString => EmptyString
      end
  end.

(** [s.split(sep)] for a one-character separator. *)
Fixpoint split_on (sep : ascii) (s : string) : list string :=
  match s with
  | EmptyString => [EmptyString]
  | String c r =>
      if (c =? sep)%char then EmptyString :: split_on sep r
      else match split_on sep r with
           | h :: t => String c h :: t
           | [] => [String c EmptyString]
           end
  end.

(** [s.includes(c)] for a one-character needle. *)
Fixpoint str_includes (c : ascii) (s : string) : bool :=
  match s with
  | String d r => (d =? c)%char || str_includes c r
  | EmptyString => false
  end.

(** The own property [key] of [obj] is given the value [value]: it keeps
    its place when it exists, and is added last when it does not. *)
Fixpoint own_set (obj : list (string * string)) (key value : string)
  : list (string * string) :=
  match obj with
  | [] => [(key, value)]
  | (k, v) :: rest =>
      if String.eqb k key then (k, value) :: rest
      else (k, v) :: own_set rest key value
  end.

(** [obj[key] = value] on an object literal, for a string [value]. The
    key `__proto__` names the accessor inherited from [Object.prototype],
    whose setter ignores a value that is neither an object nor [null]:
    nothing is stored. Every other key becomes an own property. *)
Definition obj_set (obj : list (string * string)) (key value : string)
  : list (string * string) :=
  if (key =? "__proto__")%string then obj else own_set obj key value.

(** The gallery: each thumb with a non-empty [data-src] gives the
    full-size URL. *)
Definition extract_imageUrls (thumbs : list (option string)) : list string :=
  omap (fun t => match t with
                 | Some dataSrc =>
                     if truthy_str dataSrc
                     then Some (replace_first "50x50c" "600x450" dataSrc)
                     else None
                 | None => None
                 end) thumbs.

(** The attribute groups: `key: value` spans and bare spans. *)
Definition extract_metadata (spans : list string) : list (string * string) :=
  fold_left
    (fun md span =>
       let text := trim span in
       if truthy_str text && str_includes ":" text then
         match map trim (split_on ":" text) with
         | key :: value :: _ => obj_set md key value
         | _ => md
         end
       else if truthy_str text then obj_set md text "true"
       else md)
    spans [].

(** A number inside the object a [page.evaluate] callback returns. The
    object crosses from the page by value, as JSON, in which [NaN] and
    the infinities are [null]. *)
Definition by_value (x : number) : option number :=
  if is_finite x then Some x else None.

(** What the extraction callback returns across [page.evaluate]. *)
Record Extracted : Type := {
  ex_title : string;
  ex_price : option number;
  ex_description : string;
  ex_location : string;
  ex_postedDate : Z;                (* postedDate.toISOString() *)
  ex_imageUrls : list string;
  ex_metadata : list (string * string)
}.

Section Detail.
Context `{Host}.

(** The callback of the second [page.evaluate], and the transfer of its
    result; [None] when the callback throws. *)
Definition extract (dom : DetailDom) (now : Z) : option Extracted :=
  let priceText := getText (sel_price dom) in
  let price :=
    if truthy_str priceText
    then by_value (StringToNumber (strip_currency priceText)) else None in
  let title := getText (sel_titletextonly dom) in
  let dateText := getText (sel_date_timeago dom) in
  let postedDate : Date :=
    if truthy_str dateText then Date_parse dateText else Some now in
  let location :=
    or_str (getText (sel_mapaddress dom)) (getText (sel_mapbox_small dom)) in
  let description := getText (sel_postingbody dom) in
  let imageUrls := extract_imageUrls (thumbs_data_src dom) in
  let metadata := extract_metadata (attrgroup_spans dom) in
  match toISOString postedDate with
  | None => None                     (* RangeError: Invalid time value *)
  | Some iso =>
      Some {| ex_title := title; ex_price := price;
              ex_description := description; ex_location := location;
              ex_postedDate := iso; ex_imageUrls := imageUrls;
              ex_metadata := metadata |}
  end.

(** [scrapeListingPage(url)], as [Promise.allSettled] and the filter of
    [collectListings] see its promise: [None] when it is fulfilled with
    [null], and when it is rejected (the tab does not open, or the
    [page.close()] of the [catch] block throws in its turn). *)
Definition scrapeListingPage (visit : DetailVisit) (url : string)
  : option ListingData :=
  if negb (visit_opens visit) then None                (* rejected *)
  else
    match visit_page visit with
    | DetailThrows => None           (* catch: log, close, return null *)
    | Removed => None
    | Live dom =>
        match extract dom (visit_now visit) with
        | None => None               (* catch: log, close, return null *)
        | Some listingData =>
            if negb (visit_closes visit) then None
                                     (* catch: log, close, return null *)
            else
              Some {| id := visit_uuid visit;
                      url := url;
                      title := ex_title listingData;
                      price := ex_price listingData;
                      description := ex_description listingData;
                      location := ex_location listingData;
                      postedDate := Date_of_ISO (ex_postedDate listingData);
                      imageUrls := ex_imageUrls listingData;
                      metadata := ex_metadata listingData |}
        end
    end.

(** [collectListings()]: the URL collection, then one detail fetch per
    collected URL; the fulfilled, non-null results in task order. An
    error that leaves the loop is logged and rethrown. *)
Definition collectListings (browser : bool) (config : CraigslistConfig)
    (search : nat -> SearchPage) (tabs : nat -> Tab)
    (visit : string -> DetailVisit)
  : Outcome (list ListingData) :=
  if negb browser then Thrown BrowserNotInitialized
  else
    match loop_error (collectUrls config search tabs) with
    | Some _ => Thrown SessionError          (* outer catch: log, rethrow *)
    | None =>
        Returned (omap (fun u => scrapeListingPage (visit u) u)
                       (detailTasks config search tabs))
    end.

End Detail.

(** ** Image downloads

    The local file system maps a path to the size in bytes of the file
    there. *)

Abbreviation FileSystem := (gmap string N).

(** A response of the asset transport: two headers, and the body stream,
    which delivers [body_bytes] bytes and then ends ([body_complete]) or
    fails. *)
Record Response : Type := {
  header_content_type : option string;
  header_content_length : option string;
  body_bytes : N;
  body_complete : bool
}.

(** What one download meets: the identifier [uuidv4()] draws, the answer
    to the request ([None]: the request rejects, as on a network error or
    a timeout), and whether the file can be opened for writing, read back
    with [stat], and removed with [unlink]. *)
Record DownloadEnv : Type := {
  dl_uuid : string;
  dl_response : option Response;
  dl_open_ok : bool;
  dl_stat_ok : bool;
  dl_unlink_ok : bool
}.

(** [headers[name] || fallback] *)
Definition header_or (h : option string) (fallback : string) : string :=
  match h with
  | Some v => or_str v fallback
  | None => fallback
  end.

Section Download.
Context `{Host}.
Variable imageDir : string.

(** [getFileExtension(url)]; [None] when [new URL(url)] throws. *)
Definition getFileExtension (url : string) : option string :=
  match URL_pathname url with
  | Some pathname => Some (or_str (path_extname pathname) ".jpg")
  | None => None
  end.

(** The local path computed for a download. *)
Definition localPathOf (env : DownloadEnv) (url listing : string)
  : option string :=
  match getFileExtension url with
  | Some extension =>
      Some (path_join imageDir (listing ++ "_" ++ dl_uuid env ++ extension))
  | None => None
  end.

(** The [catch] block of [downloadImage]: remove the file at [path] if
    there is one; a failing [unlink] is logged and the file stays. *)
Definition cleanup (env : DownloadEnv) (path : string) (fs : FileSystem)
  : FileSystem :=
  match fs !! path with
  | Some _ => if dl_unlink_ok env then delete path fs else fs
  | None => fs
  end.

(** [pipelineAsync(response.data, fs.createWriteStream(path))]: the file
    system after it, and whether it resolved. *)
Definition pipeline (env : DownloadEnv) (resp : Response) (path : string)
    (fs : FileSystem) : FileSystem * bool :=
  if dl_open_ok env
  then (<[path := body_bytes resp]> fs, body_complete resp)
  else (fs, false).

(** [fs.promises.stat(path)]: the size, or [None] when it rejects. *)
Definition stat (env : DownloadEnv) (path : string) (fs : FileSystem)
  : option N :=
  if dl_stat_ok env then fs !! path else None.

(** [downloadImage(url, listingId)]: the file system after the call, and
    the completion ([Returned None] is [null]). *)
Definition downloadImage (env : DownloadEnv) (fs : FileSystem)
    (url listing : string) : FileSystem * Outcome (option ImageData) :=
  match getFileExtension url with
  | None => (fs, Thrown InvalidURL)
  | Some extension =>
      let imageId := dl_uuid env in
      let filename := listing ++ "_" ++ imageId ++ extension in
      let path := path_join imageDir filename in
      match dl_response env with
      | None => (cleanup env path fs, Returned None)
      | Some response =>
          let contentType :=
            header_or (header_content_type response) "image/jpeg" in
          let contentLength :=
            parseInt10 (header_or (header_content_length response) "0") in
          match pipeline env response path fs with
          | (fs1, false) => (cleanup env path fs1, Returned None)
          | (fs1, true) =>
              match stat env path fs1 with
              | None => (cleanup env path fs1, Returned None)
              | Some stats_size =>
                  (fs1,
                   Returned (Some
                     {| img_id := imageId;
                        listingId := listing;
                        filename := filename;
                        originalUrl := url;
                        localPath := path;
                        contentType := contentType;
                        (* stats.size || contentLength: the size read
                           back is an integer, falsy exactly when 0 *)
                        size := if (stats_size =? 0)%N then contentLength
                                else of_Z (Z.of_N stats_size) |}))
              end
          end
      end
  end.

(** The settled results of the downloads of [urls], the [i]-th one of the
    call meeting [envs i], threaded through the file system. *)
Fixpoint settleAll (envs : nat -> DownloadEnv) (i : nat) (fs : FileSystem)
    (urls : list string) (listing : string)
  : FileSystem * list (Outcome (option ImageData)) :=
  match urls with
  | [] => (fs, [])
  | u :: rest =>
      let '(fs1, r) := downloadImage (envs i) fs u listing in
      let '(fs2, rs) := settleAll envs (S i) fs1 rest listing in
      (fs2, r :: rs)
  end.

(** [result.status === 'fulfilled' && result.value] *)
Definition fulfilled_value (r : Outcome (option ImageData))
  : option ImageData :=
  match r with
  | Returned (Some img) => Some img
  | _ => None
  end.

(** [downloadImages(imageUrls, listingId)] *)
Definition downloadImages (envs : nat -> DownloadEnv) (fs : FileSystem)
    (urls : list string) (listing : string) : FileSystem * list ImageData :=
  let '(fs', results) := settleAll envs 0 fs urls listing in
  (fs', omap fulfilled_value results).

End Download.

End CraigslistScraper.

(* ===================================================================== *)
(** * src/ai/openaiService.ts *)
(* ===================================================================== *)

Module OpenAIService.

Import CraigslistScraper.

Record AntiqueAnalysis : Type := {
  marketValue : number;
  pricingAssessment : string;
  pricingConfidence : number;
  authenticityScore : number;
  authenticityTips : string;
  historicalContext : string;
  additionalNotes : string
}.

(** [getDefaultAnalysis()] *)
Definition getDefaultAnalysis : AntiqueAnalysis := {|
  marketValue := pos_zero;
  pricingAssessment := "fair";
  pricingConfidence := pos_zero;
  authenticityScore := pos_zero;
  authenticityTips := "Analysis unavailable due to API error";
  historicalContext := "Analysis unavailable due to API error";
  additionalNotes := "Please try analyzing this item again later"
|}.

Definition validValues : list string := ["underpriced"; "overpriced"; "fair"].

(** One call of [openai.chat.completions.create]: a completion with its
    [choices[0].message.content] ([None] is [null]), or a thrown error
    with its [status] ([None]: no status, as for a network error or a
    TypeError on a malformed response object). *)
Inductive ApiOutcome : Type :=
| Completion (content : option string)
| ApiThrows (status : option Z).

Definition maxRetries : nat := 3.

(** [error.status === 429] *)
Definition is_rate_limit (status : option Z) : bool :=
  match status with
  | Some code => code =? 429
  | None => false
  end.

Section Service.
Context `{Host}.

(** [validateNumber(value, defaultValue)]; [None] when [Number(value)]
    throws. *)
Definition validateNumber (value : JsValue) (defaultValue : number)
  : option number :=
  match ToNumber value with
  | Some num => Some (if isNaN num then defaultValue else num)
  | None => None
  end.

(** [validateConfidence(value)]; [None] when [Number(value)] throws. *)
Definition validateConfidence (value : JsValue) : option number :=
  match ToNumber value with
  | Some num =>
      Some (if isNaN num then pos_zero
            else Math_max pos_zero (Math_min one num))
  | None => None
  end.

(** [validatePricingAssessment(value)]; [None] when [String(value)]
    throws. *)
Definition validatePricingAssessment (value : JsValue) : option string :=
  match ToString value with
  | Some text =>
      let stringValue := toLowerCase text in
      Some (if includes validValues stringValue then stringValue
            else "fair")
  | None => None
  end.

(** [validateString(value, defaultValue)] *)
Definition validateString (value : JsValue) (defaultValue : string) : string :=
  match value with
  | JStr s => if truthy_str (trim s) then trim s else defaultValue
  | _ => defaultValue
  end.

(** The object literal of [parseResponse], field by field in the order
    of the source; [None] as soon as a property access or a validation
    throws. *)
Definition validatedAnalysis (parsed : JsValue) : option AntiqueAnalysis :=
  mv ← get_prop parsed "marketValue";
  value ← validateNumber mv pos_zero;
  pa ← get_prop parsed "pricingAssessment";
  assessment ← validatePricingAssessment pa;
  pc ← get_prop parsed "pricingConfidence";
  confidence ← validateConfidence pc;
  au ← get_prop parsed "authenticityScore";
  score ← validateConfidence au;
  tips ← get_prop parsed "authenticityTips";
  ctx ← get_prop parsed "historicalContext";
  notes ← get_prop parsed "additionalNotes";
  Some {| marketValue := value;
          pricingAssessment := assessment;
          pricingConfidence := confidence;
          authenticityScore := score;
          authenticityTips :=
            validateString tips "No specific tips provided";
          historicalContext :=
            validateString ctx "No historical context available";
          additionalNotes :=
            validateString notes "No additional notes" |}.

(** [parseResponse(responseContent)] *)
Definition parseResponse (responseContent : option string) : AntiqueAnalysis :=
  match responseContent with
  | None => getDefaultAnalysis
  | Some content =>
      if negb (truthy_str content) then getDefaultAnalysis
      else
        match JSON_parse content with
        | None => getDefaultAnalysis           (* catch: SyntaxError *)
        | Some parsed =>
            match validatedAnalysis parsed with
            | Some analysis => analysis
            | None => getDefaultAnalysis       (* catch: TypeError *)
            end
        end
  end.

(** [Math.pow(2, attempt) * 1000] *)
Definition backoffTime (attempt : nat) : Z := 2 ^ Z.of_nat attempt * 1000.

(** The retry loop of [performAnalysis] from [attempt] on, with
    [remaining = maxRetries - attempt] iterations left; [create attempt]
    is what the API call of that attempt meets. The result is the
    completion of the loop and the back-off waits, oldest first. *)
Fixpoint retryFrom (create : nat -> ApiOutcome) (remaining attempt : nat)
  : Outcome AntiqueAnalysis * list Z :=
  match remaining with
  | O => (Thrown RetriesExhausted, [])
  | S remaining' =>
      match create attempt with
      | Completion content => (Returned (parseResponse content), [])
      | ApiThrows status =>
          let retry :=
            let '(r, waits) := retryFrom create remaining' (S attempt) in
            (r, backoffTime attempt :: waits) in
          if is_rate_limit status then retry       (* continue *)
          else if (attempt =? maxRetries - 1)%nat
               then (Thrown (ApiFailure status), [])
               else retry
      end
  end.

(** [performAnalysis(listing)]; [api listing] is the upstream service as
    this listing's prompts meet it, attempt by attempt. *)
Definition performAnalysis (api : ListingData -> nat -> ApiOutcome)
    (listing : ListingData) : Outcome AntiqueAnalysis * list Z :=
  retryFrom (api listing) maxRetries 0.

(** [analyzeAntique(listing)]: the queue runs the task and settles as the
    task does; a rejection is caught. *)
Definition analyzeAntique (api : ListingData -> nat -> ApiOutcome)
    (listing : ListingData) : AntiqueAnalysis :=
  match fst (performAnalysis api listing) with
  | Returned analysis => analysis
  | Thrown _ => getDefaultAnalysis
  end.

End Service.

End OpenAIService.

(* ===================================================================== *)
(** * A host for the worked examples *)
(* ===================================================================== *)

Module Fixture.

Import CraigslistScraper.

(** The double quote, and a quoted word. *)
Definition dq : string := String (ascii_of_N 34) EmptyString.
Definition quoted (s : string) : string := dq ++ s ++ dq.

(** A response of the inference API whose market value carries a currency
    symbol and a thousands separator, and the value it parses to. *)
Definition priced_text : string :=
  "{" ++ quoted "marketValue" ++ ":" ++ quoted "$1,250" ++ ","
      ++ quoted "pricingAssessment" ++ ":" ++ quoted "Underpriced" ++ "}".

Definition priced_value : JsValue :=
  JObj [("marketValue", JStr "$1,250"); ("pricingAssessment", JStr "Underpriced")].

(** Decimal digits of a natural number, most significant first; [fuel]
    bounds the number of digits. *)
Fixpoint digits_of (fuel : nat) (n : N) (acc : string) : string :=
  match fuel with
  | O => acc
  | S fuel' =>
      let acc' := String (ascii_of_N (48 + n mod 10)) acc in
      if (n / 10 =? 0)%N then acc' else digits_of fuel' (n / 10) acc'
  end.

(** A host that knows what the examples need: it prints the special
    numbers and the integers, parses the one JSON document above and one
    ISO date, splits `https://host/path` URLs, takes the extension after
    the last dot of the last path segment, and joins paths with a slash. *)
Definition host : Host := {|
  NumberToString x :=
    match x with
    | S754_nan => "NaN"
    | S754_infinity false => "Infinity"
    | S754_infinity true => "-Infinity"
    | S754_zero _ => "0"
    | S754_finite s m e =>
        let n := Z.to_N (Z.shiftl (Z.pos m) e) in
        (if s then "-" else "") ++ digits_of 25 n ""
    end;
  JSON_parse text :=
    if (text =? priced_text)%string then Some priced_value else None;
  Date_parse text :=
    if (text =? "2024-05-01T12:00:00.000Z")%string
    then Some 1714564800000 else None;
  URL_pathname u :=
    match strip_prefix "https://" u with
    | Some rest =>
        match split_on "/" rest with
        | _ :: seg :: segs => Some ("/" ++ String.concat "/" (seg :: segs))
        | _ => Some "/"
        end
    | None => None
    end;
  path_extname p :=
    match rev (split_on "." (List.last (split_on "/" p) "")) with
    | ext :: _ :: _ => "." ++ ext
    | _ => ""
    end;
  path_join dir file := dir ++ "/" ++ file
|}.

(** A listing, for the calls that take one. *)
Definition listing : ListingData := {|
  id := "7f3c";
  url := "https://newyork.craigslist.org/atq/d/oak-dresser/7700000001.html";
  title := "Oak dresser";
  price := Some (of_Z 120);
  description := "Solid oak, original brass pulls.";
  location := "Brooklyn";
  postedDate := Some 1714564800000;
  imageUrls := ["https://images.craigslist.org/00a0a_600x450.jpg"];
  metadata := [("condition", "good")]
|}.

(** An inference API that answers every attempt with a server error. *)
Definition failing_api (_ : ListingData) (_ : nat) : OpenAIService.ApiOutcome :=
  OpenAIService.ApiThrows (Some 500).

(** Result pages: page 0 is full, page 1 throws, page 2 is full and
    lists one URL of page 0 again, page 3 is short. *)
Definition config : CraigslistConfig := {| maxPages := 6; resultsPerPage := 2 |}.

Definition search (pageNum : nat) : SearchPage :=
  match pageNum with
  | 0%nat => Results ["https://cl.example/atq/1.html"; "https://cl.example/atq/2.html"]
  | 1%nat => SearchThrows
  | 2%nat => Results ["https://cl.example/atq/2.html"; "https://cl.example/atq/3.html"]
  | 3%nat => Results ["https://cl.example/atq/4.html"]
  | _ => NoResults
  end.

(** A session in which every tab opens and closes; a session in which
    the tab of page 3 does not close in the [try] block; a session in
    which the tab of page 1 does not close in the [catch] block. *)
Definition open_tab : Tab :=
  {| tab_opens := true; tab_closes := true; tab_closes_after_error := true |}.

Definition tabs (pageNum : nat) : Tab := open_tab.

Definition stuck_tabs (pageNum : nat) : Tab :=
  match pageNum with
  | 3%nat => {| tab_opens := true; tab_closes := false;
                tab_closes_after_error := true |}
  | _ => open_tab
  end.

Definition lost_tabs (pageNum : nat) : Tab :=
  match pageNum with
  | 1%nat => {| tab_opens := true; tab_closes := true;
                tab_closes_after_error := false |}
  | _ => open_tab
  end.

(** A live detail page with the posting date text [dateText]. *)
Definition dom (dateText : option string) : DetailDom := {|
  sel_price := Some " $1,250 ";
  sel_titletextonly := Some "Oak dresser";
  sel_date_timeago := dateText;
  sel_mapaddress := None;
  sel_mapbox_small := Some "(Brooklyn)";
  sel_postingbody := Some "Solid oak, original brass pulls.";
  thumbs_data_src := [Some "https://images.craigslist.org/00a0a_50x50c.jpg"; None];
  attrgroup_spans := ["condition: good"; "delivery available"]
|}.

Definition visit (dateText : option string) : DetailVisit := {|
  visit_opens := true;
  visit_page := Live (dom dateText);
  visit_closes := true;
  visit_now := 1714570000000;
  visit_uuid := "7f3c"
|}.

(** Downloads: a server whose body breaks off after 1024 bytes while the
    partial file cannot be removed; an empty body announced as 20 bytes;
    a body of 2048 bytes announced as 9999. *)
Definition image_url : string := "https://images.craigslist.org/00a0a_600x450.jpg".

Definition download (resp : option Response) (unlink_ok : bool) : DownloadEnv := {|
  dl_uuid := "1b9d";
  dl_response := resp;
  dl_open_ok := true;
  dl_stat_ok := true;
  dl_unlink_ok := unlink_ok
|}.

Definition broken_body : Response := {|
  header_content_type := Some "image/jpeg";
  header_content_length := Some "4096";
  body_bytes := 1024;
  body_complete := false
|}.

Definition empty_body : Response := {|
  header_content_type := Some "image/jpeg";
  header_content_length := Some "20";
  body_bytes := 0;
  body_complete := true
|}.

Definition full_body : Response := {|
  header_content_type := None;
  header_content_length := Some "9999";
  body_bytes := 2048;
  body_complete := true
|}.

(** Three downloads for one listing; the second body breaks off. *)
Definition batch_urls : list string :=
  ["https://images.craigslist.org/00a0a_600x450.jpg";
   "https://images.craigslist.org/00b0b_600x450.jpg";
   "https://images.craigslist.org/00c0c_600x450.png"].

Definition batch (i : nat) : DownloadEnv := {|
  dl_uuid := match i with 0%nat => "0a01" | 1%nat => "0a02" | _ => "0a03" end;
  dl_response := Some (match i with 1%nat => broken_body | _ => full_body end);
  dl_open_ok := true;
  dl_stat_ok := true;
  dl_unlink_ok := true
|}.

End Fixture.

(* ===================================================================== *)
(** * Notions of the specification *)
(* ===================================================================== *)

Module Spec.

Import OpenAIService.





(** The characters a numeric literal can be made of: digits, letters,
    signs and the decimal point. *)
Definition numeric_char (c : ascii) : bool :=
  is_digit c || between 65 90 c || between 97 122 c
  || (c =? "+")%char || (c =? "-")%char || (c =? ".")%char.

(** A terminal result page: the no-results marker, or fewer links than
    the configured page size. *)
Definition terminal_page (config : CraigslistScraper.CraigslistConfig)
    (pg : CraigslistScraper.SearchPage) : bool :=
  match pg with
  | CraigslistScraper.NoResults => true
  | CraigslistScraper.Results hrefs =>
      Z.of_nat (List.length hrefs) <? CraigslistScraper.resultsPerPage config
  | CraigslistScraper.SearchThrows => false
  end.

(** The links of a result page, none for a page that threw or had no
    results. *)
Definition page_links (search : nat -> CraigslistScraper.SearchPage)
    (p : nat) : list string :=
  match search p with
  | CraigslistScraper.Results hrefs => hrefs
  | _ => []
  end.

(** At a page that is navigated to, the [catch] block of the loop runs:
    the navigation or an evaluation throws, or the tab does not close. *)
Definition page_error (search : nat -> CraigslistScraper.SearchPage)
    (tabs : nat -> CraigslistScraper.Tab) (p : nat) : bool :=
  match search p with
  | CraigslistScraper.SearchThrows => true
  | _ => negb (CraigslistScraper.tab_closes (tabs p))
  end.

(** The loop reaches one of its [break]s at the page: the page is
    terminal and no error keeps the loop from the [break]. *)
Definition ends_loop (config : CraigslistScraper.CraigslistConfig)
    (search : nat -> CraigslistScraper.SearchPage)
    (tabs : nat -> CraigslistScraper.Tab) (p : nat) : bool :=
  terminal_page config (search p) && negb (page_error search tabs p).

(** An error leaves the loop at the page: the [catch] block runs and its
    own [page.close()] throws. *)
Definition leaves_loop (search : nat -> CraigslistScraper.SearchPage)
    (tabs : nat -> CraigslistScraper.Tab) (p : nat) : bool :=
  page_error search tabs p
  && negb (CraigslistScraper.tab_closes_after_error (tabs p)).

(** A download fails when the request is rejected, the file cannot be
    opened, the body stream breaks off, or the file cannot be read back. *)
Definition download_fails (env : CraigslistScraper.DownloadEnv) : bool :=
  match CraigslistScraper.dl_response env with
  | None => true
  | Some resp =>
      negb (CraigslistScraper.dl_open_ok env
            && CraigslistScraper.body_complete resp
            && CraigslistScraper.dl_stat_ok env)
  end.

End Spec.

(* ===================================================================== *)
(** * src/index.ts *)
(* ===================================================================== *)

Module AntiqueAnalyzer.

Import CraigslistScraper OpenAIService.

(** A call of the storage service (src/database/operations.ts):
    [saveListing(listing)], [saveImage(listingId, image)] and
    [saveAnalysis(listingId, analysis)]. Each runs one statement on the
    connection; what is recorded is what the service is asked to save. *)
Inductive DbCall : Type :=
| SaveListing (listing : ListingData)
| SaveImage (listingId : string) (image : ImageData)
| SaveAnalysis (listingId : string) (analysis : AntiqueAnalysis).

(** What [run] rethrows. *)
Inductive RunError : Type :=
| ScraperError (e : Error)           (* thrown by collectListings *)
| StorageError (call : DbCall).      (* thrown by the storage call [call] *)

(** The state a run works on: the local files, and the storage calls made
    so far, oldest first. *)
Record RunState : Type := {
  files : FileSystem;
  calls : list DbCall
}.

(** What a run meets: the result pages, the detail pages, what the
    downloads of each listing (by listing id) meet, the inference API, and
    the storage: [storage n call] is what [call] meets when it is made as
    the [n]-th call of the run, [None] when it throws (no connection, a
    value the statement cannot take, a statement that fails), and else
    the row id [lastID] of its statement. *)
Record World : Type := {
  w_search : nat -> SearchPage;
  w_tabs : nat -> Tab;
  w_visit : string -> DetailVisit;
  w_download : string -> nat -> DownloadEnv;
  w_api : ListingData -> nat -> ApiOutcome;
  w_storage : nat -> DbCall -> option Z
}.

Section Run.
Context `{Host}.
Variable imageDir : string.
Variable world : World.

(** One awaited storage call. *)
Definition db_call (st : RunState) (call : DbCall) : option Z * RunState :=
  (w_storage world (List.length (calls st)) call,
   {| files := files st; calls := (calls st ++ [call])%list |}).

(** [for (const image of downloadedImages) await db.saveImage(listingId, image)];
    [Some] is the error thrown. *)
Fixpoint saveImages (listingId : string) (images : list ImageData)
    (st : RunState) : option RunError * RunState :=
  match images with
  | [] => (None, st)
  | image :: rest =>
      match db_call st (SaveImage listingId image) with
      | (None, st1) => (Some (StorageError (SaveImage listingId image)), st1)
      | (Some _, st1) => saveImages listingId rest st1
      end
  end.

(** The body of the [for] loop of [run] for one listing. *)
Definition processListing (listing : ListingData) (st : RunState)
  : option RunError * RunState :=
  match db_call st (SaveListing listing) with
  | (None, st1) => (Some (StorageError (SaveListing listing)), st1)
  | (Some _, st1) =>
      let listingId := id listing in      (* saveListing returns listing.id *)
      let '(thrown, st2) :=
        match imageUrls listing with
        | [] => (None, st1)
        | _ :: _ =>
            let '(fs', downloadedImages) :=
              downloadImages imageDir (w_download world (id listing))
                             (files st1) (imageUrls listing) (id listing) in
            saveImages listingId downloadedImages
                       {| files := fs'; calls := calls st1 |}
        end in
      match thrown with
      | Some e => (Some e, st2)
      | None =>
          if negb (truthy_str listingId) then (None, st2)  (* if (listingId) *)
          else
            let analysis := analyzeAntique (w_api world) listing in
            match db_call st2 (SaveAnalysis listingId analysis) with
            | (None, st3) =>
                (Some (StorageError (SaveAnalysis listingId analysis)), st3)
            | (Some _, st3) => (None, st3)
            end
      end
  end.

(** [for (const listing of listings) ...] *)
Fixpoint processListings (listings : list ListingData) (st : RunState)
  : option RunError * RunState :=
  match listings with
  | [] => (None, st)
  | listing :: rest =>
      match processListing listing st with
      | (Some e, st1) => (Some e, st1)
      | (None, st1) => processListings rest st1
      end
  end.

(** [run()]: [Some] is the error it logs and rethrows, [None] a normal
    completion. *)
Definition run (browser : bool) (config : CraigslistConfig) (fs : FileSystem)
  : option RunError * RunState :=
  let st := {| files := fs; calls := [] |} in
  match collectListings browser config (w_search world) (w_tabs world)
                        (w_visit world) with
  | Thrown e => (Some (ScraperError e), st)
  | Returned listings => processListings listings st
  end.

End Run.

End AntiqueAnalyzer.

(* ===================================================================== *)
(** * src/utils/config.ts *)
(* ===================================================================== *)

Module Config.

Import CraigslistScraper.

(** Truthiness of a value. *)
Definition truthy (v : JsValue) : bool :=
  match v with
  | JUndefined | JNull => false
  | JBool b => b
  | JNum (S754_zero _) | JNum S754_nan => false
  | JNum _ => true
  | JStr s => truthy_str s
  | JArr _ | JObj _ => true
  end.

(** The own enumerable properties of a value, as the spread [{...v}] and
    [Object.keys(v)] see them: the properties of an object, the elements
    of an array and the characters of a string under their indices, none
    for the other primitives. *)
Definition own_props (v : JsValue) : list (string * JsValue) :=
  match v with
  | JObj props => props
  | JArr elems => imap (fun i e => (pretty i, e)) elems
  | JStr s =>
      imap (fun i c => (pretty i, JStr (String c EmptyString)))
           (list_ascii_of_string s)
  | _ => []
  end.

(** [result[key]] and [result[key] = value] on a list of properties. *)
Definition props_get (props : list (string * JsValue)) (key : string)
  : option JsValue :=
  match find (fun kv => String.eqb (fst kv) key) props with
  | Some kv => Some (snd kv)
  | None => None
  end.

Fixpoint props_set (props : list (string * JsValue)) (key : string)
    (value : JsValue) : list (string * JsValue) :=
  match props with
  | [] => [(key, value)]
  | (k, v) :: rest =>
      if String.eqb k key then (k, value) :: rest
      else (k, v) :: props_set rest key value
  end.

(** [deepMerge(target, source)]. The model covers objects none of whose
    keys is `__proto__`, the one key that assignment does not store as an
    own property. *)
Fixpoint deepMerge (target source : JsValue) {struct source} : JsValue :=
  if negb (truthy target) then source
  else if negb (truthy source) then target
  else
    let result := own_props target in          (* { ...target } *)
    match source with
    | JObj props =>
        JObj ((fix each (keys : list (string * JsValue))
                   (result : list (string * JsValue)) :=
                 match keys with
                 | [] => result
                 | (key, sourceValue) :: keys' =>
                     let value :=
                       match props_get result key, sourceValue with
                       | Some (JObj targetProps), JObj _ =>
                           deepMerge (JObj targetProps) sourceValue
                       | _, _ => sourceValue
                       end in
                     each keys' (props_set result key value)
                 end) props result)
    | JArr elems =>
        JObj ((fix each (i : nat) (values : list JsValue)
                   (result : list (string * JsValue)) :=
                 match values with
                 | [] => result
                 | sourceValue :: values' =>
                     let key := pretty i in
                     let value :=
                       match props_get result key, sourceValue with
                       | Some (JObj targetProps), JObj _ =>
                           deepMerge (JObj targetProps) sourceValue
                       | _, _ => sourceValue
                       end in
                     each (S i) values' (props_set result key value)
                 end) 0%nat elems result)
    | JStr _ =>
        JObj (fold_left (fun result kv => props_set result (fst kv) (snd kv))
                        (own_props source) result)
    | _ => JObj result
    end.

(** [loadFromFile]: the configuration after the attempt, and its result.
    [file] is the content of the file at the resolved path, [None] when
    there is no file there. *)
Definition loadFromFile `{Host} (config : JsValue) (file : option string)
  : JsValue * bool :=
  match file with
  | None => (config, false)                      (* warn: not found *)
  | Some fileContent =>
      match JSON_parse fileContent with
      | None => (config, false)                  (* catch: SyntaxError *)
      | Some fileConfig => (deepMerge config fileConfig, true)
      end
  end.

(** ** Environment overrides *)

Definition prefix : string := "APP_CONFIG_".

(** [s.substring(n)] *)
Fixpoint substring_from (n : nat) (s : string) : string :=
  match n, s with
  | O, _ => s
  | S n', String _ r => substring_from n' r
  | S _, EmptyString => EmptyString
  end.

(** The path of keys an environment variable name stands for:
    [key.substring(prefix.length).toLowerCase().split('_')]. *)
Definition configPath (key : string) : list string :=
  split_on "_" (toLowerCase (substring_from (String.length prefix) key)).

(** [/^-?\d+(\.\d+)?$/.test(s)] *)
Definition is_decimal_text (s : string) : bool :=
  let unsigned :=
    match s with
    | String c r => if (c =? "-")%char then r else s
    | EmptyString => s
    end in
  match take_digits unsigned with
  | ([], _) => false
  | (_ :: _, EmptyString) => true
  | (_ :: _, String c r) =>
      (c =? ".")%char
      && match take_digits r with
         | (_ :: _, EmptyString) => true
         | _ => false
         end
  end.

(** An [ExponentPart] at the head of [s], when there is a complete one. *)
Definition exponent_prefix (s : string) : Z :=
  match s with
  | String c r =>
      if (c =? "e")%char || (c =? "E")%char then
        let '(neg, r1) := take_sign r in
        match take_digits r1 with
        | (d :: ds, _) =>
            let v := digits_value 10 (d :: ds) in if neg then - v else v
        | ([], _) => 0
        end
      else 0
  | EmptyString => 0
  end.

(** [parseFloat(s)]: leading white space is skipped, then the longest
    prefix that is a decimal literal is converted; [NaN] without one. *)
Definition parseFloat (s : string) : number :=
  let '(neg, r) := take_sign (trimStart s) in
  let signed (v : number) := if neg then SFopp v else v in
  match strip_prefix "Infinity" r with
  | Some _ => signed Infinity
  | None =>
      let '(ip, r1) := take_digits r in
      let '(fp, r2) :=
        match r1 with
        | String c r' => if (c =? ".")%char then take_digits r' else ([], r1)
        | EmptyString => ([], r1)
        end in
      match (ip ++ fp)%list with
      | [] => NaN
      | ds =>
          signed (decimal_to_number
                    (digits_value 10 ds)
                    (exponent_prefix r2 - Z.of_nat (List.length fp)))
      end
  end.

(** The value an environment variable is given in the configuration. *)
Definition typedValue (value : string) : JsValue :=
  if is_decimal_text value then JNum (parseFloat value)
  else if (toLowerCase value =? "true")%string then JBool true
  else if (toLowerCase value =? "false")%string then JBool false
  else JStr value.

End Config.

(* ===================================================================== *)
(** * src/utils/logger.ts *)
(* ===================================================================== *)

Module Logger.

(** Log levels with their numeric priority. *)
Inductive LogLevel : Type := DEBUG | INFO | WARN | ERROR | NONE.

Definition priority (level : LogLevel) : Z :=
  match level with
  | DEBUG => 0 | INFO => 1 | WARN => 2 | ERROR => 3 | NONE => 4
  end.

(** The settings that govern the file output. *)
Record LoggerConfig : Type := {
  minLevel : LogLevel;
  logToFile : bool;
  logDir : string;
  logFilename : string;
  maxFileSize : Z;
  maxFiles : nat
}.

(** The entries of the file system: a path names a file, known by its
    identity. *)
Abbreviation Directory := (gmap string nat).

(** The static fields of the class and the file system: the lines written
    to the open stream ([None] for the null stream), the tracked size and
    the entries. What goes to the console is not part of the model. *)
Record LoggerState : Type := {
  logStream : option (list string);
  currentFileSize : Z;
  dir : Directory
}.

(** The state of the entries when a sequence of renames ends: all done,
    or one has thrown. *)
Inductive Renamed : Type :=
| Done (d : Directory)
| Threw (d : Directory).

(** [`${logPath}.${i}`] *)
Definition generation (logPath : string) (i : nat) : string :=
  logPath ++ "." ++ pretty i.

Section Files.

Context `{Host}.
Variable config : LoggerConfig.

(** [fails path] tells whether renaming the file at [path] throws. *)
Variable fails : string -> bool.

(** [fs.renameSync(oldPath, newPath)]; [None] when it throws. *)
Definition renameSync (oldPath newPath : string) (d : Directory)
  : option Directory :=
  match d !! oldPath with
  | Some file =>
      if fails oldPath then None
      else Some (<[newPath := file]> (delete oldPath d))
  | None => None
  end.

(** The loop that shifts the existing log files, from [i] down to 1. *)
Fixpoint shift (logPath : string) (i : nat) (d : Directory) : Renamed :=
  match i with
  | O => Done d
  | S i' =>
      let oldPath := generation logPath i in
      let newPath := generation logPath (i + 1) in
      if bool_decide (is_Some (d !! oldPath)) then
        match renameSync oldPath newPath d with
        | Some d' => shift logPath i' d'
        | None => Threw d
        end
      else shift logPath i' d
  end.

(** [Logger.rotateLogFile()] *)
Definition rotateLogFile (st : LoggerState) : LoggerState :=
  match logStream st with
  | None => st
  | Some _ =>
      let logPath := path_join (logDir config) (logFilename config) in
      let renamed :=
        match shift logPath (maxFiles config - 1) (dir st) with
        | Done d =>
            if bool_decide (is_Some (d !! logPath)) then
              match renameSync logPath (generation logPath 1) d with
              | Some d' => Done d'
              | None => Threw d
              end
            else Done d
        | Threw d => Threw d
        end in
      match renamed with
      | Done d =>
          {| logStream := Some []; currentFileSize := 0; dir := d |}
      | Threw d =>                      (* catch: the stream is reopened *)
          {| logStream := Some [];
             currentFileSize := currentFileSize st;
             dir := d |}
      end
  end.

(** [log(level, message, ...args)]: [logLine] is the line built from the
    time stamp, the level, the context and the formatted message, with
    its newline, and [bytes] its [Buffer.byteLength]. *)
Definition log (level : LogLevel) (logLine : string) (bytes : Z)
    (st : LoggerState) : LoggerState :=
  if priority level <? priority (minLevel config) then st
  else
    match logStream st with
    | Some lines =>
        if logToFile config then
          let st' := {| logStream := Some (lines ++ [logLine])%list;
                        currentFileSize := currentFileSize st + bytes;
                        dir := dir st |} in
          if maxFileSize config <=? currentFileSize st'
          then rotateLogFile st' else st'
        else st
    | None => st
    end.

End Files.

End Logger.

(* ===================================================================== *)
(** * Further notions used by the properties *)
(* ===================================================================== *)

Module Notions.

Import CraigslistScraper OpenAIService.

(** A score of the closed unit interval. *)
Definition unit_score (x : number) : Prop :=
  is_finite x = true /\ (0 <= F2Q x)%Q /\ (F2Q x <= 1)%Q.

(** An analysis every field of which is in its domain: a market value
    that is a number, one of the three assessments, two scores of the unit
    interval, and three texts that are not empty. *)
Definition in_domain (a : AntiqueAnalysis) : Prop :=
  isNaN (marketValue a) = false /\
  In (pricingAssessment a) validValues /\
  unit_score (pricingConfidence a) /\
  unit_score (authenticityScore a) /\
  truthy_str (authenticityTips a) = true /\
  truthy_str (historicalContext a) = true /\
  truthy_str (additionalNotes a) = true.

(** A score that clamping leaves as it is: [+0], [1], or a number
    strictly between them. *)
Definition exact_score (x : number) : Prop :=
  (x = pos_zero \/ IsLessThan pos_zero x = true) /\
  (x = one \/ IsLessThan x one = true).

(** An analysis that validation leaves as it is. *)
Definition canonical (a : AntiqueAnalysis) : Prop :=
  isNaN (marketValue a) = false /\
  In (pricingAssessment a) validValues /\
  exact_score (pricingConfidence a) /\
  exact_score (authenticityScore a) /\
  (truthy_str (authenticityTips a) = true /\
   trim (authenticityTips a) = authenticityTips a) /\
  (truthy_str (historicalContext a) = true /\
   trim (historicalContext a) = historicalContext a) /\
  (truthy_str (additionalNotes a) = true /\
   trim (additionalNotes a) = additionalNotes a).

(** The object a model answers with for the analysis [a]. *)
Definition analysis_object (a : AntiqueAnalysis) : JsValue :=
  JObj [("marketValue", JNum (marketValue a));
        ("pricingAssessment", JStr (pricingAssessment a));
        ("pricingConfidence", JNum (pricingConfidence a));
        ("authenticityScore", JNum (authenticityScore a));
        ("authenticityTips", JStr (authenticityTips a));
        ("historicalContext", JStr (historicalContext a));
        ("additionalNotes", JStr (additionalNotes a))].

(** [obj[key]] on a record of strings; [None] is [undefined]. *)
Definition obj_get (obj : list (string * string)) (key : string)
  : option string :=
  match find (fun kv => String.eqb (fst kv) key) obj with
  | Some kv => Some (snd kv)
  | None => None
  end.

(** A string that does not start with white space. *)
Definition starts_clean (s : string) : Prop :=
  match s with
  | String c _ => is_white c = false
  | EmptyString => True
  end.

(** A price text made of digits, dollar signs and commas, with at least
    one digit; its digits; the amount they spell. *)
Definition money_char (c : ascii) : bool :=
  is_digit c || (c =? "$")%char || (c =? ",")%char.

Fixpoint money_digits (s : string) : list Z :=
  match s with
  | String c r =>
      if is_digit c then digit_val c :: money_digits r else money_digits r
  | EmptyString => []
  end.

Definition money_text (s : string) : bool :=
  forallb money_char (list_ascii_of_string s)
  && match money_digits s with [] => false | _ => true end.

Definition money_amount (s : string) : Z := digits_value 10 (money_digits s).

(** The listings, the images and the analyses a sequence of storage calls
    asks to save, in order. *)
Definition saved_listings (calls : list AntiqueAnalyzer.DbCall)
  : list ListingData :=
  omap (fun c => match c with
                 | AntiqueAnalyzer.SaveListing l => Some l
                 | _ => None
                 end) calls.

Definition saved_images (calls : list AntiqueAnalyzer.DbCall)
  : list ImageData :=
  omap (fun c => match c with
                 | AntiqueAnalyzer.SaveImage _ img => Some img
                 | _ => None
                 end) calls.

(** A storage call that is fit to be made after the calls [earlier]: an
    image is saved under the id of a listing saved earlier; an analysis is
    saved under an id that is not empty and is the id of a listing saved
    earlier, of which it is the analysis, with every field in its
    domain. *)
Definition sound_call `{Host} (api : ListingData -> nat -> ApiOutcome)
    (earlier : list AntiqueAnalyzer.DbCall) (c : AntiqueAnalyzer.DbCall)
  : Prop :=
  match c with
  | AntiqueAnalyzer.SaveListing _ => True
  | AntiqueAnalyzer.SaveImage listingId _ =>
      exists listing,
        In (AntiqueAnalyzer.SaveListing listing) earlier /\
        id listing = listingId
  | AntiqueAnalyzer.SaveAnalysis listingId a =>
      truthy_str listingId = true /\
      in_domain a /\
      exists listing,
        In (AntiqueAnalyzer.SaveListing listing) earlier /\
        id listing = listingId /\
        a = analyzeAntique api listing
  end.

(** Every call of [calls], made after [earlier], is fit to be made after
    the calls before it. *)
Fixpoint sound_calls `{Host} (api : ListingData -> nat -> ApiOutcome)
    (earlier calls : list AntiqueAnalyzer.DbCall) : Prop :=
  match calls with
  | [] => True
  | c :: rest =>
      sound_call api earlier c /\ sound_calls api (earlier ++ [c])%list rest
  end.

(** Every call of the sequence was answered, none threw. *)
Definition all_answered (storage : nat -> AntiqueAnalyzer.DbCall -> option Z)
    (calls : list AntiqueAnalyzer.DbCall) : Prop :=
  forall n c, calls !! n = Some c -> is_Some (storage n c).

(** How a run ended, read on its storage calls: after a normal completion
    every call was answered; after a storage error the failing call is the
    last one made, and every call before it was answered. *)
Definition ended_as (storage : nat -> AntiqueAnalyzer.DbCall -> option Z)
    (thrown : option AntiqueAnalyzer.RunError)
    (calls : list AntiqueAnalyzer.DbCall) : Prop :=
  match thrown with
  | None => all_answered storage calls
  | Some (AntiqueAnalyzer.StorageError c) =>
      exists before,
        calls = (before ++ [c])%list /\
        storage (List.length before) c = None /\
        all_answered storage before
  | Some (AntiqueAnalyzer.ScraperError _) => calls = []
  end.



(** The name of the log file of generation [i]: the current file for 0,
    the rotated ones after it. *)
Definition log_name (logPath : string) (i : nat) : string :=
  match i with
  | O => logPath
  | S _ => Logger.generation logPath i
  end.

(** A sequence of calls of [log]. *)
Definition logged `{Host} (config : Logger.LoggerConfig) (fails : string -> bool)
    (entries : list (Logger.LogLevel * string * Z)) (st : Logger.LoggerState)
  : Logger.LoggerState :=
  fold_left (fun st '(level, logLine, bytes) =>
               Logger.log config fails level logLine bytes st)
            entries st.

End Notions.

(* ===================================================================== *)
(** * Further inputs for the worked examples *)
(* ===================================================================== *)

Module Cases.

Import CraigslistScraper OpenAIService AntiqueAnalyzer.

(** A valid analysis, the text of a response carrying it, and a host that
    parses that text (and otherwise answers as the host of [Fixture]). *)
Definition appraisal : AntiqueAnalysis := {|
  marketValue := of_Z 1250;
  pricingAssessment := "underpriced";
  pricingConfidence := S754_finite false 4503599627370496 (-53);
  authenticityScore := one;
  authenticityTips := "Look for hand-cut dovetails.";
  historicalContext := "American oak, about 1900.";
  additionalNotes := "Original brass pulls."
|}.

Definition appraisal_text : string :=
  "{" ++ Fixture.quoted "marketValue" ++ ":1250,"
      ++ Fixture.quoted "pricingAssessment" ++ ":" ++ Fixture.quoted "underpriced" ++ ","
      ++ Fixture.quoted "pricingConfidence" ++ ":0.5,"
      ++ Fixture.quoted "authenticityScore" ++ ":1,"
      ++ Fixture.quoted "authenticityTips" ++ ":"
      ++ Fixture.quoted "Look for hand-cut dovetails." ++ ","
      ++ Fixture.quoted "historicalContext" ++ ":"
      ++ Fixture.quoted "American oak, about 1900." ++ ","
      ++ Fixture.quoted "additionalNotes" ++ ":"
      ++ Fixture.quoted "Original brass pulls." ++ "}".

Definition host : Host := {|
  NumberToString := @NumberToString Fixture.host;
  JSON_parse text :=
    if (text =? appraisal_text)%string
    then Some (Notions.analysis_object appraisal)
    else @JSON_parse Fixture.host text;
  Date_parse := @Date_parse Fixture.host;
  URL_pathname := @URL_pathname Fixture.host;
  path_extname := @path_extname Fixture.host;
  path_join := @path_join Fixture.host
|}.

(** An inference API that is rate limited once and then answers. *)
Definition limited_api (_ : ListingData) (attempt : nat) : ApiOutcome :=
  match attempt with
  | 0%nat => ApiThrows (Some 429)
  | _ => Completion (Some appraisal_text)
  end.

(** The record of the live page of [Fixture] without posting date. *)
Definition dresser_url : string := "https://cl.example/atq/1.html".

Definition dresser : ListingData := {|
  id := "7f3c";
  url := dresser_url;
  title := "Oak dresser";
  price := Some (of_Z 1250);
  description := "Solid oak, original brass pulls.";
  location := "(Brooklyn)";
  postedDate := Some 1714570000000;
  imageUrls := ["https://images.craigslist.org/00a0a_600x450.jpg"];
  metadata := [("condition", "good"); ("delivery available", "true")]
|}.

(** A search with one short result page; a search whose pages are all
    full. *)
Definition one_page : CraigslistConfig := {| maxPages := 3; resultsPerPage := 2 |}.
Definition one_page_search (pageNum : nat) : SearchPage := Results [dresser_url].

Definition two_pages : CraigslistConfig := {| maxPages := 2; resultsPerPage := 2 |}.
Definition full_search (pageNum : nat) : SearchPage :=
  Results ["https://cl.example/atq/1.html"; "https://cl.example/atq/2.html"].

(** The records of the four URLs that the result pages of [Fixture] list,
    each fetched as the live page of [Fixture]. *)
Definition four_listings : list ListingData :=
  map (fun u => {|
         id := "7f3c";
         url := u;
         title := "Oak dresser";
         price := Some (of_Z 1250);
         description := "Solid oak, original brass pulls.";
         location := "(Brooklyn)";
         postedDate := Some 1714570000000;
         imageUrls := ["https://images.craigslist.org/00a0a_600x450.jpg"];
         metadata := [("condition", "good"); ("delivery available", "true")]
       |})
      ["https://cl.example/atq/1.html"; "https://cl.example/atq/2.html";
       "https://cl.example/atq/3.html"; "https://cl.example/atq/4.html"].

(** The image the one download of the dresser gives. *)
Definition dresser_image : ImageData := {|
  img_id := "0a01";
  listingId := "7f3c";
  filename := "7f3c_0a01.jpg";
  originalUrl := "https://images.craigslist.org/00a0a_600x450.jpg";
  localPath := "/data/images/7f3c_0a01.jpg";
  contentType := "image/jpeg";
  size := of_Z 2048
|}.

(** A world with that one listing, downloads as in [Fixture.batch], an
    API in error, and a storage that answers each call with a fresh id. *)
Definition world : World := {|
  w_search := one_page_search;
  w_tabs := Fixture.tabs;
  w_visit := fun _ => Fixture.visit None;
  w_download := fun _ => Fixture.batch;
  w_api := Fixture.failing_api;
  w_storage := fun n _ => Some (Z.of_nat n + 1)
|}.

(** The storage calls of the run in that world. *)
Definition dresser_calls : list DbCall :=
  [SaveListing dresser;
   SaveImage "7f3c" dresser_image;
   SaveAnalysis "7f3c" getDefaultAnalysis].

(** A default configuration, and the content of a configuration file. *)
Definition defaults : list (string * JsValue) :=
  [("craigslist", JObj [("baseUrl", JStr "https://newyork.craigslist.org");
                        ("maxPages", JNum (of_Z 10))]);
   ("categories", JArr [JStr "atq"; JStr "art"])].

Definition file_config : list (string * JsValue) :=
  [("craigslist", JObj [("maxPages", JNum (of_Z 2))]);
   ("categories", JArr [JStr "fuo"])].

(** A logger that writes to `logs/application.log` and keeps two rotated
    files, at the moment its current file is full; renames that never
    throw. *)
Definition log_config : Logger.LoggerConfig := {|
  Logger.minLevel := Logger.INFO;
  Logger.logToFile := true;
  Logger.logDir := "logs";
  Logger.logFilename := "application.log";
  Logger.maxFileSize := 100;
  Logger.maxFiles := 2
|}.

Definition full_log : Logger.LoggerState := {|
  Logger.logStream := Some ["[INFO ] [Main] Starting"];
  Logger.currentFileSize := 100;
  Logger.dir := {[ "logs/application.log" := 7%nat;
                   "logs/application.log.1" := 6%nat;
                   "logs/application.log.2" := 5%nat;
                   "logs/notes.txt" := 1%nat ]}
|}.

Definition new_log : Logger.LoggerState := {|
  Logger.logStream := Some [];
  Logger.currentFileSize := 0;
  Logger.dir := ∅
|}.

Definition never_fails (path : string) : bool := false.

End Cases.

(* ===================================================================== *)
(** * Properties *)
(* ===================================================================== *)

Import CraigslistScraper OpenAIService Spec.

(** ** Numbers: comparison and clamping *)

Lemma F2Q_one : (F2Q one == 1)%Q.
Proof. reflexivity. Qed.

Lemma IsLessThan_finite_Lt (x y : number) :
  is_finite x = true -> is_finite y = true ->
  IsLessThan x y = true <-> (F2Q x < F2Q y)%Q.
Proof.
  intros Hx Hy. rewrite Qlt_alt.
  destruct x, y; simpl in Hx, Hy; try discriminate; unfold IsLessThan;
    destruct (_ ?= _)%Q; split; congruence.
Qed.

(** Clamping a number that is not [NaN] gives a finite number of
    [[0, 1]]. *)
Lemma clamp_unit_interval (x : number) :
  isNaN x = false ->
  is_finite (Math_max pos_zero (Math_min one x)) = true /\
  (0 <= F2Q (Math_max pos_zero (Math_min one x)))%Q /\
  (F2Q (Math_max pos_zero (Math_min one x)) <= 1)%Q.
Proof.
  intros Hx.
  destruct x as [s | s | | s m e]; try discriminate.
  - (* a zero is less than 1, and not above +0 *)
    destruct s; vm_compute; intuition discriminate.
  - (* an infinity: -oo is raised to +0, +oo is lowered to 1 *)
    destruct s; vm_compute; intuition discriminate.
  - (* a finite non-zero value *)
    set (x := S754_finite s m e).
    assert (Hfx : is_finite x = true) by reflexivity.
    unfold Math_max, Math_min.
    replace (isNaN one || isNaN x) with false by reflexivity.
    replace (is_pos_zero one && is_neg_zero x) with false by reflexivity.
    destruct (IsLessThan x one) eqn:Hlt1.
    + apply IsLessThan_finite_Lt in Hlt1; [| done | done].
      rewrite F2Q_one in Hlt1.
      replace (isNaN pos_zero || isNaN x) with false by reflexivity.
      replace (is_neg_zero pos_zero && is_pos_zero x) with false by reflexivity.
      destruct (IsLessThan pos_zero x) eqn:Hlt0.
      * apply IsLessThan_finite_Lt in Hlt0; [| done | done].
        change (F2Q pos_zero) with 0%Q in Hlt0.
        split; [done |]. split; by apply Qlt_le_weak.
      * vm_compute; intuition discriminate.
    + vm_compute; intuition discriminate.
Qed.

(** ** Strings: lower-casing against a lower-case word *)


Lemma code_bounded (a : ascii) : (code a < 256)%N.
Proof. apply N_ascii_bounded. Qed.

Lemma code_ascii_of_N (n : N) : (n < 256)%N -> code (ascii_of_N n) = n.
Proof. apply N_ascii_embedding. Qed.

Ltac bool_to_N :=
  unfold between in *;
  repeat match goal with
  | H : (_ && _) = true |- _ => apply andb_true_iff in H; destruct H
  | H : (_ || _) = true |- _ => apply orb_true_iff in H
  | H : (_ && _) = false |- _ => apply andb_false_iff in H
  | H : (_ || _) = false |- _ => apply orb_false_iff in H; destruct H
  | H : negb _ = true |- _ => apply negb_true_iff in H
  | H : negb _ = false |- _ => apply negb_false_iff in H
  | H : (_ <=? _)%N = true |- _ => apply N.leb_le in H
  | H : (_ <=? _)%N = false |- _ => apply N.leb_gt in H
  | H : (_ =? _)%N = true |- _ => apply N.eqb_eq in H
  | H : (_ =? _)%N = false |- _ => apply N.eqb_neq in H
  end.



(** ** Numeric literals reject foreign characters *)

Lemma numeric_char_neq (c d : ascii) :
  numeric_char c = false -> numeric_char d = true -> (d =? c)%char = false.
Proof.
  intros Hc Hd. destruct (Ascii.eqb_spec d c) as [-> | ]; congruence.
Qed.

Lemma is_digit_numeric (d : ascii) : is_digit d = true -> numeric_char d = true.
Proof. unfold numeric_char. by intros ->. Qed.

Lemma hex_val_numeric (d : ascii) (v : Z) :
  hex_val d = Some v -> numeric_char d = true.
Proof.
  unfold hex_val, numeric_char. intros Hv.
  destruct (is_digit d); [done |].
  destruct (between 97 102 d) eqn:Hlow.
  - replace (between 97 122 d) with true; [by rewrite orb_true_r |].
    symmetry. bool_to_N. unfold between.
    apply andb_true_iff; split; apply N.leb_le; lia.
  - destruct (between 65 70 d) eqn:Hup; [| done].
    replace (between 65 90 d) with true; [done |].
    symmetry. bool_to_N. unfold between.
    apply andb_true_iff; split; apply N.leb_le; lia.
Qed.

Lemma eqb_numeric (d k : ascii) :
  numeric_char k = true -> (d =? k)%char = true -> numeric_char d = true.
Proof. intros Hk Hd. apply Ascii.eqb_eq in Hd. by subst. Qed.

Section ForeignCharacter.
Variable c : ascii.
Hypothesis Hforeign : numeric_char c = false.

Lemma take_digits_includes (s : string) (ds : list Z) (r : string) :
  take_digits s = (ds, r) -> str_includes c s = str_includes c r.
Proof using Hforeign.
  revert ds r. induction s as [| d s IH]; intros ds r Htake; simpl in Htake.
  - by inversion Htake.
  - destruct (is_digit d) eqn:Hd.
    + destruct (take_digits s) as [ds' r'] eqn:Hs. inversion Htake; subst.
      simpl. rewrite (numeric_char_neq c d Hforeign (is_digit_numeric d Hd)).
      by apply (IH ds').
    + by inversion Htake.
Qed.

Lemma take_sign_includes (s : string) (neg : bool) (r : string) :
  take_sign s = (neg, r) -> str_includes c s = str_includes c r.
Proof using Hforeign.
  destruct s as [| d s]; simpl; [by inversion 1 |].
  destruct (d =? "+")%char eqn:Hplus.
  - inversion 1; subst.
    by rewrite (numeric_char_neq c d Hforeign (eqb_numeric d "+" eq_refl Hplus)).
  - destruct (d =? "-")%char eqn:Hminus; inversion 1; subst; [| done].
    by rewrite (numeric_char_neq c d Hforeign (eqb_numeric d "-" eq_refl Hminus)).
Qed.

Lemma parse_exponent_foreign (s : string) :
  str_includes c s = true -> parse_exponent s = None.
Proof using Hforeign.
  destruct s as [| d s]; simpl; [done |]. intros Hinc.
  destruct ((d =? "e")%char || (d =? "E")%char) eqn:He; [| done].
  assert (Hd : numeric_char d = true).
  { apply orb_true_iff in He as [He | He];
      [apply (eqb_numeric d "e") | apply (eqb_numeric d "E")]; done. }
  rewrite (numeric_char_neq c d Hforeign Hd) in Hinc. simpl in Hinc.
  destruct (take_sign s) as [neg r1] eqn:Hsign.
  rewrite (take_sign_includes _ _ _ Hsign) in Hinc.
  destruct (take_digits r1) as [ds r2] eqn:Hdigits.
  rewrite (take_digits_includes _ _ _ Hdigits) in Hinc.
  destruct ds; [done |]. by destruct r2.
Qed.

Lemma parse_unsigned_decimal_foreign (s : string) :
  str_includes c s = true -> parse_unsigned_decimal s = None.
Proof using Hforeign.
  intros Hinc. unfold parse_unsigned_decimal.
  destruct (String.eqb_spec s "Infinity") as [-> | _].
  - exfalso. cbn [str_includes] in Hinc.
    repeat (apply orb_true_iff in Hinc as [Hinc | Hinc];
            [apply Ascii.eqb_eq in Hinc; rewrite <- Hinc in Hforeign;
             discriminate Hforeign |]).
    discriminate.
  - destruct (take_digits s) as [ip r1] eqn:Hip.
    rewrite (take_digits_includes _ _ _ Hip) in Hinc.
    assert (Hfrac : forall fp r2,
               match r1 with
               | String d r => if (d =? ".")%char then take_digits r else ([], r1)
               | EmptyString => ([], r1)
               end = (fp, r2) -> str_includes c r2 = true).
    { intros fp r2. destruct r1 as [| d r]; [by inversion 1; subst |].
      destruct (d =? ".")%char eqn:Hdot.
      - intros Hfp. rewrite <- (take_digits_includes _ _ _ Hfp).
        simpl in Hinc.
        by rewrite (numeric_char_neq c d Hforeign
                      (eqb_numeric d "." eq_refl Hdot)) in Hinc.
      - by inversion 1; subst. }
    destruct (match r1 with
              | String d r => if (d =? ".")%char then take_digits r else ([], r1)
              | EmptyString => ([], r1)
              end) as [fp r2] eqn:Hfp.
    rewrite (parse_exponent_foreign r2 (Hfrac fp r2 eq_refl)).
    by destruct (ip ++ fp)%list.
Qed.

Lemma radix_digits_foreign (base : Z) (s : string) :
  str_includes c s = true -> radix_digits base s = None.
Proof using Hforeign.
  induction s as [| d s IH]; simpl; [done |]. intros Hinc.
  destruct (hex_val d) as [v |] eqn:Hv; [| done].
  rewrite (numeric_char_neq c d Hforeign (hex_val_numeric d v Hv)) in Hinc.
  rewrite (IH Hinc). by destruct (v <? base).
Qed.

Lemma radix_prefix_includes (s : string) (base : Z) (r : string) :
  radix_prefix s = Some (base, r) -> str_includes c s = str_includes c r.
Proof using Hforeign.
  destruct s as [| z [| x s]]; simpl; try done.
  destruct (z =? "0")%char eqn:Hz; [| done].
  intros Hpre.
  rewrite (numeric_char_neq c z Hforeign (eqb_numeric z "0" eq_refl Hz)).
  assert (Hx : numeric_char x = true /\ r = s).
  { destruct ((x =? "x")%char || (x =? "X")%char) eqn:H16;
      [| destruct ((x =? "o")%char || (x =? "O")%char) eqn:H8;
         [| destruct ((x =? "b")%char || (x =? "B")%char) eqn:H2; [| done]]];
      inversion Hpre; subst; split; try done;
      match goal with
      | Hor : (_ || _) = true |- _ =>
          apply orb_true_iff in Hor as [Hor | Hor];
          eapply eqb_numeric; try exact Hor; reflexivity
      end. }
  destruct Hx as [Hx ->].
  by rewrite (numeric_char_neq c x Hforeign Hx).
Qed.

Lemma parse_numeric_literal_foreign (s : string) :
  str_includes c s = true -> parse_numeric_literal s = None.
Proof using Hforeign.
  intros Hinc. unfold parse_numeric_literal.
  destruct (radix_prefix s) as [[base r] |] eqn:Hpre.
  - rewrite (radix_prefix_includes _ _ _ Hpre) in Hinc.
    unfold parse_radix. by rewrite (radix_digits_foreign base r Hinc).
  - destruct (take_sign s) as [neg r] eqn:Hsign.
    rewrite (take_sign_includes _ _ _ Hsign) in Hinc.
    by rewrite (parse_unsigned_decimal_foreign r Hinc).
Qed.

End ForeignCharacter.

(** Trimming keeps every character that is not white space. *)
Lemma trimStart_includes (c : ascii) (s : string) :
  is_white c = false -> str_includes c s = true ->
  str_includes c (trimStart s) = true.
Proof.
  intros Hc. induction s as [| d s IH]; simpl; [done |]. intros Hinc.
  destruct (is_white d) eqn:Hd; [| done].
  apply IH. destruct (Ascii.eqb_spec d c) as [-> | ]; [congruence | done].
Qed.

Lemma trimEnd_includes (c : ascii) (s : string) :
  is_white c = false -> str_includes c s = true ->
  str_includes c (trimEnd s) = true.
Proof.
  intros Hc. induction s as [| d s IH]; simpl; [done |]. intros Hinc.
  destruct (Ascii.eqb_spec d c) as [-> | Hne].
  - destruct (trimEnd s); simpl; [rewrite Hc; simpl |];
      by rewrite Ascii.eqb_refl.
  - simpl in Hinc. specialize (IH Hinc).
    destruct (trimEnd s) as [| e r]; [done |].
    simpl in *. rewrite IH. apply orb_true_r.
Qed.

(** A string with a character that is neither white space nor part of
    the alphabet of numeric literals converts to [NaN]. *)
Lemma StringToNumber_foreign (c : ascii) (s : string) :
  numeric_char c = false -> is_white c = false ->
  str_includes c s = true -> StringToNumber s = NaN.
Proof.
  intros Hnum Hwhite Hinc. unfold StringToNumber.
  assert (Ht : str_includes c (trim s) = true).
  { by apply trimEnd_includes, trimStart_includes. }
  destruct (trim s) as [| d t] eqn:Htrim; [done |].
  simpl. by rewrite (parse_numeric_literal_foreign c Hnum _ Ht).
Qed.

(** A string with a currency symbol or a thousands separator is [NaN]. *)
Lemma StringToNumber_currency (s : string) :
  str_includes "$" s || str_includes "," s = true -> StringToNumber s = NaN.
Proof.
  intros Hinc. apply orb_true_iff in Hinc as [Hinc | Hinc].
  - by apply (StringToNumber_foreign "$").
  - by apply (StringToNumber_foreign ",").
Qed.

(** ** Values without a string form *)





Section EnrichmentValidation.
Context `{Host}.



(** An object that has one property read without error has them all. *)
Lemma get_prop_defined (v : JsValue) (k : string) (x : JsValue) :
  get_prop v k = Some x -> forall k', exists x', get_prop v k' = Some x'.
Proof.
  intros Hk k'. destruct v; try discriminate; simpl; eauto.
  destruct (find _ _); eauto.
Qed.

(** Whatever the input, an assessment that is returned is one of the
    three valid values. *)
Lemma validatePricingAssessment_valid (value : JsValue) (assessment : string) :
  validatePricingAssessment value = Some assessment ->
  In assessment validValues.
Proof.
  unfold validatePricingAssessment, includes.
  destruct (ToString value) as [text |]; [| done]. cbv zeta.
  destruct (existsb (String.eqb (toLowerCase text)) validValues) eqn:Hmem;
    intros Hout; injection Hout as <-.
  - apply existsb_exists in Hmem as (w & Hw & Heq).
    apply String.eqb_eq in Heq. by rewrite Heq.
  - simpl. auto.
Qed.

(** [validateNumber] never answers [NaN] when its default is a number. *)
Lemma validateNumber_not_NaN (value : JsValue) (defaultValue num : number) :
  validateNumber value defaultValue = Some num ->
  isNaN defaultValue = false -> isNaN num = false.
Proof.
  unfold validateNumber.
  destruct (ToNumber value) as [x |]; [| done]. intros [= <-] Hd.
  by destruct (isNaN x) eqn:Hnan.
Qed.

(** A string field with a currency symbol or a thousands separator is not
    cleaned: it is [NaN] for [Number], and the default is returned. *)
Lemma validateNumber_currency (s : string) (defaultValue : number) :
  str_includes "$" s || str_includes "," s = true ->
  validateNumber (JStr s) defaultValue = Some defaultValue.
Proof.
  intros Hinc. unfold validateNumber. simpl.
  by rewrite (StringToNumber_currency s Hinc).
Qed.

(** C5, as amended. When the market-value field of a parsed response is a
    string that carries a currency symbol or a thousands separator, the
    enrichment client does not clean it: the raw text is not a numeric
    literal, and the parsed market value is the default [+0]. *)
Theorem parseResponse_currency_marketValue
    (content : string) (parsed : JsValue) (s : string) :
  truthy_str content = true ->
  JSON_parse content = Some parsed ->
  get_prop parsed "marketValue" = Some (JStr s) ->
  str_includes "$" s || str_includes "," s = true ->
  marketValue (parseResponse (Some content)) = pos_zero.
Proof.
  intros Hcontent Hparse Hfield Hinc. unfold parseResponse.
  rewrite Hcontent, Hparse. cbn [negb].
  destruct (validatedAnalysis parsed) as [analysis |] eqn:Hvalidated;
    [| reflexivity].
  unfold validatedAnalysis in Hvalidated.
  rewrite Hfield in Hvalidated. cbn [mbind option_bind] in Hvalidated.
  rewrite (validateNumber_currency s pos_zero Hinc) in Hvalidated.
  simplify_option_eq. reflexivity.
Qed.

End EnrichmentValidation.

Lemma parseResponse_currency_marketValue_witness :
  marketValue (parseResponse (H := Fixture.host) (Some Fixture.priced_text))
  = pos_zero.
Proof.
  apply (parseResponse_currency_marketValue (H := Fixture.host)
           Fixture.priced_text Fixture.priced_value "$1,250");
    reflexivity.
Defined.



Example validateConfidence_samples :
  map (validateConfidence (H := Fixture.host))
      [JUndefined; JNull; JBool true; JStr "abc"; JStr " 0.5 "; JStr "1.5";
       JStr "-3"; JStr "Infinity"; JNum NaN; JNum neg_zero;
       JNum (S754_infinity true); JArr []; JObj [];
       JObj [("valueOf", JNum one)]; JArr [JObj [("toString", JNull)]]]
  = [Some pos_zero; Some pos_zero; Some one; Some pos_zero;
     Some (StringToNumber "0.5"); Some one;
     Some pos_zero; Some one; Some pos_zero; Some pos_zero;
     Some pos_zero; Some pos_zero; Some pos_zero;
     Some pos_zero; None].
Proof. reflexivity. Qed.

Example validatePricingAssessment_samples :
  map (validatePricingAssessment (H := Fixture.host))
      [JStr "UnderPriced"; JStr "OVERPRICED"; JStr "fair"; JStr " fair";
       JStr "cheap"; JUndefined; JNull; JArr [JStr "Overpriced"];
       JArr [JStr "fair"; JStr "fair"]; JObj [];
       JArr [JNull; JObj [("toString", JStr "fair")]]]
  = [Some "underpriced"; Some "overpriced"; Some "fair"; Some "fair";
     Some "fair"; Some "fair"; Some "fair"; Some "overpriced";
     Some "fair"; Some "fair";
     None].
Proof. reflexivity. Qed.

Example StringToNumber_samples :
  map StringToNumber
      ["0.1"; " 12 "; "1e3"; ".5"; "5."; "-0"; "0x1F"; "Infinity";
       ""; "1,250"; "$5"; "12px"; "-0x1F"; "."; "1e"; "1 2"]
  = [S754_finite false 7205759403792794 (-56); of_Z 12; of_Z 1000;
     S754_finite false 4503599627370496 (-53); of_Z 5; neg_zero; of_Z 31;
     Infinity;
     pos_zero; NaN; NaN; NaN; NaN; NaN; NaN; NaN].
Proof. reflexivity. Qed.

(** C5, as stated, fails: the market value parsed from "$1,250" is not the
    number that parsing the cleaned text "1250" gives. *)
Lemma marketValue_not_cleaned :
  marketValue (parseResponse (H := Fixture.host) (Some Fixture.priced_text))
  <> StringToNumber (strip_currency "$1,250").
Proof. vm_compute. discriminate. Qed.

Example StringToNumber_cleaned : StringToNumber (strip_currency "$1,250") = of_Z 1250.
Proof. reflexivity. Qed.

(** ** The retry loop and the outward call *)

Section Enrichment.
Context `{Host}.
Variable api : ListingData -> nat -> ApiOutcome.

(** The loop throws exactly when each of the three attempts throws. *)
Lemma performAnalysis_throws_iff (listing : ListingData) :
  (exists e, fst (performAnalysis api listing) = Thrown e) <->
  (forall attempt, (attempt < maxRetries)%nat ->
     exists status, api listing attempt = ApiThrows status).
Proof.
  unfold performAnalysis, maxRetries. split.
  - intros [e He] attempt Hlt. simpl in He.
    destruct (api listing 0%nat) as [c0 | st0] eqn:H0; [done |].
    destruct (api listing 1%nat) as [c1 | st1] eqn:H1;
      [by destruct (is_rate_limit st0) |].
    destruct (api listing 2%nat) as [c2 | st2] eqn:H2;
      [by destruct (is_rate_limit st0), (is_rate_limit st1) |].
    destruct attempt as [| [| [| ?]]]; [by eexists .. | lia].
  - intros Hall.
    destruct (Hall 0%nat ltac:(lia)) as [st0 H0].
    destruct (Hall 1%nat ltac:(lia)) as [st1 H1].
    destruct (Hall 2%nat ltac:(lia)) as [st2 H2].
    simpl. rewrite H0, H1, H2.
    destruct (is_rate_limit st0), (is_rate_limit st1), (is_rate_limit st2);
      simpl; by eexists.
Qed.

(** C1. When the retry loop of [performAnalysis] completes by throwing,
    [analyzeAntique] does not throw: it returns the fallback analysis, with
    market value [0], assessment "fair", confidence [0], authenticity [0]
    and the placeholder texts. *)
Theorem analyzeAntique_fallback (listing : ListingData) (e : Error) :
  fst (performAnalysis api listing) = Thrown e ->
  analyzeAntique api listing =
    {| marketValue := pos_zero;
       pricingAssessment := "fair";
       pricingConfidence := pos_zero;
       authenticityScore := pos_zero;
       authenticityTips := "Analysis unavailable due to API error";
       historicalContext := "Analysis unavailable due to API error";
       additionalNotes := "Please try analyzing this item again later" |}.
Proof. unfold analyzeAntique. by intros ->. Qed.

End Enrichment.

(** Three server errors in a row: the loop throws the last one, after
    waiting 1 s and 2 s, and the outward call answers the fallback. *)
Lemma analyzeAntique_fallback_witness :
  performAnalysis (H := Fixture.host) Fixture.failing_api Fixture.listing
    = (Thrown (ApiFailure (Some 500)), [1000; 2000]) /\
  analyzeAntique (H := Fixture.host) Fixture.failing_api Fixture.listing
    = getDefaultAnalysis.
Proof.
  split; [reflexivity |].
  apply (analyzeAntique_fallback (H := Fixture.host) Fixture.failing_api
           Fixture.listing (ApiFailure (Some 500))).
  reflexivity.
Defined.

(** ** URL collection: the pagination loop *)

Lemma Set_add_In (set : list string) (u v : string) :
  In v (Set_add set u) <-> In v set \/ v = u.
Proof.
  unfold Set_add. destruct (existsb (String.eqb u) set) eqn:Hmem.
  - apply existsb_exists in Hmem as (w & Hw & Heq).
    apply String.eqb_eq in Heq. subst w. split; [by left |].
    by intros [? | ->].
  - rewrite in_app_iff. simpl. intuition.
Qed.

Lemma Set_add_NoDup (set : list string) (u : string) :
  NoDup set -> NoDup (Set_add set u).
Proof.
  intros Hnd. unfold Set_add.
  destruct (existsb (String.eqb u) set) eqn:Hmem; [done |].
  apply NoDup_app; split; [done |]. split.
  - intros x Hx Hu. apply list_elem_of_In in Hx.
    apply list_elem_of_In in Hu as [Heq | []].
    assert (existsb (String.eqb u) set = true); [| congruence].
    apply existsb_exists. exists x. split; [done |]. by apply String.eqb_eq.
  - apply NoDup_singleton.
Qed.

Lemma Set_add_all_In (hrefs set : list string) (v : string) :
  In v (Set_add_all set hrefs) <-> In v set \/ In v hrefs.
Proof.
  unfold Set_add_all. revert set.
  induction hrefs as [| u hrefs IH]; intros set; simpl; [tauto |].
  rewrite IH, Set_add_In. intuition.
Qed.

Lemma Set_add_all_NoDup (hrefs set : list string) :
  NoDup set -> NoDup (Set_add_all set hrefs).
Proof.
  unfold Set_add_all. revert set.
  induction hrefs as [| u hrefs IH]; intros set Hnd; simpl; [done |].
  by apply IH, Set_add_NoDup.
Qed.

Section Pagination.
Variable config : CraigslistConfig.
Variable search : nat -> SearchPage.
Variable tabs : nat -> Tab.

(** One iteration of the loop: the page it navigates to, the links it
    adds, the error it leaves the loop with, and whether the loop goes
    on. *)
Lemma collectPage_spec (pageNum : nat) (st : Collected) :
  navigated (fst (collectPage config search tabs pageNum st))
    = (navigated st ++ if tab_opens (tabs pageNum) then [pageNum] else [])%list /\
  listingUrls (fst (collectPage config search tabs pageNum st))
    = (if tab_opens (tabs pageNum)
       then Set_add_all (listingUrls st) (page_links search pageNum)
       else listingUrls st) /\
  loop_error (fst (collectPage config search tabs pageNum st))
    = (if negb (tab_opens (tabs pageNum)) || leaves_loop search tabs pageNum
       then Some pageNum else loop_error st) /\
  snd (collectPage config search tabs pageNum st)
    = tab_opens (tabs pageNum)
      && negb (ends_loop config search tabs pageNum)
      && negb (leaves_loop search tabs pageNum).
Proof.
  unfold collectPage, ends_loop, leaves_loop, page_error, page_links,
    terminal_page.
  destruct (tab_opens (tabs pageNum)); cbn [negb orb andb fst snd];
    [| by rewrite app_nil_r].
  destruct (search pageNum) as [| | hrefs];
    destruct (tab_closes (tabs pageNum));
    destruct (tab_closes_after_error (tabs pageNum));
    try destruct (Z.of_nat (List.length hrefs) <? resultsPerPage config);
    done.
Qed.

(** Shape of a run of the loop: it navigates to [k] consecutive pages
    from [pageNum] on and gains their links; every page but the last of
    them lets the loop go on; and the loop is left in one of four ways: it
    runs out of pages, it reaches a [break], an error leaves it at the
    last page navigated to, or the tab of the next page does not open. *)
Lemma collectFrom_shape (remaining pageNum : nat) (st : Collected) :
  loop_error st = None ->
  exists k : nat,
    (k <= remaining)%nat /\
    navigated (collectFrom config search tabs remaining pageNum st)
      = (navigated st ++ seq pageNum k)%list /\
    listingUrls (collectFrom config search tabs remaining pageNum st)
      = Set_add_all (listingUrls st)
          (flat_map (page_links search) (seq pageNum k)) /\
    (forall q, (pageNum <= q)%nat -> (S q < pageNum + k)%nat ->
       ends_loop config search tabs q = false /\
       leaves_loop search tabs q = false) /\
    (forall q, (pageNum <= q < pageNum + k)%nat ->
       tab_opens (tabs q) = true) /\
    let r := collectFrom config search tabs remaining pageNum st in
    ((loop_error r = None /\ k = remaining) \/
     (loop_error r = None /\ (0 < k)%nat /\
      ends_loop config search tabs (pageNum + k - 1) = true) \/
     (loop_error r = Some (pageNum + k - 1)%nat /\ (0 < k)%nat /\
      leaves_loop search tabs (pageNum + k - 1) = true) \/
     (loop_error r = Some (pageNum + k)%nat /\ (k < remaining)%nat /\
      tab_opens (tabs (pageNum + k)) = false)).
Proof.
  revert pageNum st.
  induction remaining as [| remaining IH]; intros pageNum st Hnone.
  { exists 0%nat. cbn [collectFrom seq flat_map]. rewrite app_nil_r.
    split; [lia |]. split; [done |]. split; [done |].
    split; [intros; lia |]. split; [intros; lia |]. by left. }
  cbn [collectFrom].
  destruct (collectPage_spec pageNum st) as (Hnav & Hurls & Herr & Hgoes).
  destruct (collectPage config search tabs pageNum st) as [st' goes_on].
  cbn [fst snd] in Hnav, Hurls, Herr, Hgoes.
  destruct (tab_opens (tabs pageNum)) eqn:Hopens; cbn [negb orb andb] in *.
  2: { (* the tab does not open *)
    subst goes_on. exists 0%nat. cbn [seq flat_map].
    rewrite Hnav, Hurls, Herr, Nat.add_0_r.
    split; [lia |]. split; [done |]. split; [done |].
    split; [intros; lia |]. split; [intros; lia |].
    right. right. right. split; [done |]. split; [lia | done]. }
  (* one page, the last one navigated to *)
  assert (Hlast :
    goes_on = false ->
    exists k : nat,
      (k <= S remaining)%nat /\
      navigated st' = (navigated st ++ seq pageNum k)%list /\
      listingUrls st'
        = Set_add_all (listingUrls st)
            (flat_map (page_links search) (seq pageNum k)) /\
      (forall q, (pageNum <= q)%nat -> (S q < pageNum + k)%nat ->
         ends_loop config search tabs q = false /\
         leaves_loop search tabs q = false) /\
      (forall q, (pageNum <= q < pageNum + k)%nat ->
         tab_opens (tabs q) = true) /\
      ((loop_error st' = None /\ k = S remaining) \/
       (loop_error st' = None /\ (0 < k)%nat /\
        ends_loop config search tabs (pageNum + k - 1) = true) \/
       (loop_error st' = Some (pageNum + k - 1)%nat /\ (0 < k)%nat /\
        leaves_loop search tabs (pageNum + k - 1) = true) \/
       (loop_error st' = Some (pageNum + k)%nat /\ (k < S remaining)%nat /\
        tab_opens (tabs (pageNum + k)) = false))).
  { intros ->. exists 1%nat. cbn [seq flat_map]. rewrite app_nil_r.
    replace (pageNum + 1 - 1)%nat with pageNum by lia.
    split; [lia |]. split; [done |]. split; [done |].
    split; [intros; lia |]. split.
    { intros q Hq. by replace q with pageNum by lia. }
    destruct (leaves_loop search tabs pageNum) eqn:Hleaves.
    - right. right. left. split; [done |]. split; [lia | done].
    - right. left. rewrite Herr, Hnone. split; [done |]. split; [lia |].
      symmetry in Hgoes. rewrite andb_true_r in Hgoes.
      by apply negb_false_iff in Hgoes. }
  destruct goes_on; [| by apply Hlast].
  symmetry in Hgoes. apply andb_true_iff in Hgoes as [Hends Hleaves].
  apply negb_true_iff in Hends, Hleaves. rewrite Hleaves in Herr.
  destruct (IH (S pageNum) st') as (k & Hk & Hnav' & Hurls' & Hon & Htabs & Hend);
    [by rewrite Herr |].
  exists (S k). cbv zeta in Hend.
  replace (pageNum + S k)%nat with (S pageNum + k)%nat by lia.
  split; [lia |]. split.
  { rewrite Hnav', Hnav, <- app_assoc. done. }
  split.
  { rewrite Hurls', Hurls. cbn [seq flat_map].
    unfold Set_add_all. by rewrite fold_left_app. }
  split.
  { intros q Hq Hq'. destruct (Nat.eq_dec q pageNum) as [-> | Hne]; [done |].
    apply Hon; lia. }
  split.
  { intros q Hq. destruct (Nat.eq_dec q pageNum) as [-> | Hne]; [done |].
    apply Htabs. lia. }
  cbv zeta.
  destruct Hend as [[? ->] | [(? & ? & ?) | [(? & ? & ?) | (? & ? & ?)]]].
  - by left.
  - right. left. split; [done |]. split; [lia | done].
  - right. right. left. split; [done |]. split; [lia | done].
  - right. right. right. split; [done |]. split; [lia | done].
Qed.

End Pagination.

Section UrlCollection.
Variable config : CraigslistConfig.
Variable search : nat -> SearchPage.
Variable tabs : nat -> Tab.

(** The run of [collectListings]: pages [0 .. k-1] for some [k] within
    the configured maximum. *)
Lemma collectUrls_shape :
  exists k : nat,
    (k <= Z.to_nat (maxPages config))%nat /\
    navigated (collectUrls config search tabs) = seq 0 k /\
    detailTasks config search tabs
      = Set_add_all [] (flat_map (page_links search) (seq 0 k)) /\
    (forall q, (S q < k)%nat ->
       ends_loop config search tabs q = false /\
       leaves_loop search tabs q = false) /\
    (forall q, (q < k)%nat -> tab_opens (tabs q) = true) /\
    ((loop_error (collectUrls config search tabs) = None /\
      k = Z.to_nat (maxPages config)) \/
     (loop_error (collectUrls config search tabs) = None /\ (0 < k)%nat /\
      ends_loop config search tabs (k - 1) = true) \/
     (loop_error (collectUrls config search tabs) = Some (k - 1)%nat /\
      (0 < k)%nat /\ leaves_loop search tabs (k - 1) = true) \/
     (loop_error (collectUrls config search tabs) = Some k /\
      (k < Z.to_nat (maxPages config))%nat /\
      tab_opens (tabs k) = false)).
Proof.
  unfold detailTasks, collectUrls.
  destruct (collectFrom_shape config search tabs (Z.to_nat (maxPages config)) 0
              {| listingUrls := []; navigated := []; loop_error := None |}
              eq_refl)
    as (k & Hk & Hnav & Hurls & Hon & Htabs & Hend).
  exists k. cbn [listingUrls navigated app Nat.add] in *.
  split; [done |]. split; [done |]. split; [done |].
  split; [intros q Hq; apply Hon; lia |].
  split; [intros q Hq; apply Htabs; lia |]. exact Hend.
Qed.

(** The URL set holds exactly the links of the pages navigated to. *)
Lemma detailTasks_In (u : string) :
  In u (detailTasks config search tabs) <->
  exists p hrefs,
    In p (navigated (collectUrls config search tabs)) /\
    search p = Results hrefs /\ In u hrefs.
Proof.
  destruct collectUrls_shape as (k & _ & -> & -> & _).
  rewrite Set_add_all_In, in_flat_map. unfold page_links. split.
  - intros [[] | (p & Hp & Hu)]. exists p.
    destruct (search p) as [| | hrefs]; try done. by exists hrefs.
  - intros (p & hrefs & Hp & Hpage & Hu). right. exists p.
    split; [done |]. by rewrite Hpage.
Qed.

(** No URL is submitted twice for a detail fetch. *)
Lemma detailTasks_NoDup : NoDup (detailTasks config search tabs).
Proof.
  destruct collectUrls_shape as (k & _ & _ & -> & _).
  apply Set_add_all_NoDup. constructor.
Qed.

(** The loop never navigates to more pages than the configured maximum. *)
Lemma navigated_at_most_maxPages :
  Z.of_nat (List.length (navigated (collectUrls config search tabs)))
    <= Z.max 0 (maxPages config).
Proof.
  destruct collectUrls_shape as (k & Hk & -> & _).
  rewrite length_seq. lia.
Qed.

(** A page at which the loop reaches a [break] is the last page navigated
    to. *)
Lemma break_is_last (p : nat) :
  In p (navigated (collectUrls config search tabs)) ->
  ends_loop config search tabs p = true ->
  navigated (collectUrls config search tabs) = seq 0 (S p).
Proof.
  destruct collectUrls_shape as (k & _ & -> & _ & Hon & _).
  intros Hp Hends. apply in_seq in Hp. f_equal.
  destruct (Nat.eq_dec k (S p)) as [-> | Hne]; [done |].
  destruct (Hon p) as [Hgoes _]; [lia | congruence].
Qed.

(** After a page whose error the [catch] block absorbs, the loop starts
    the iteration of the next page number, when there is one. *)
Lemma absorbed_error_goes_on (p : nat) :
  In p (navigated (collectUrls config search tabs)) ->
  ends_loop config search tabs p = false ->
  leaves_loop search tabs p = false ->
  Z.of_nat (S p) < maxPages config ->
  loop_error (collectUrls config search tabs) <> Some p /\
  (tab_opens (tabs (S p)) = true ->
   In (S p) (navigated (collectUrls config search tabs))) /\
  (tab_opens (tabs (S p)) = false ->
   loop_error (collectUrls config search tabs) = Some (S p)).
Proof.
  destruct collectUrls_shape as (k & Hk & -> & _ & Hon & Htabs & Hend).
  intros Hp Hends Hleaves Hbound. apply in_seq in Hp.
  destruct (Nat.eq_dec k (S p)) as [-> | Hne].
  - replace (S p - 1)%nat with p in Hend by lia.
    destruct Hend as [[? ?] | [(? & ? & ?) | [(? & ? & ?) | (Herr & ? & Hopens)]]];
      [lia | congruence | congruence |].
    rewrite Herr. split; [intros [= ?]; lia |].
    split; [congruence | done].
  - assert (Hnext : (S p < k)%nat) by lia.
    split.
    + destruct Hend as [[-> ?] | [(-> & ? & ?) | [(-> & ? & ?) | (-> & ? & ?)]]];
        try done; intros [= ?]; lia.
    + split; [intros _; apply in_seq; lia |].
      intros Hopens. rewrite (Htabs (S p)) in Hopens; [done | lia].
Qed.


(** C8, as amended. A result page with fewer links than the configured
    page size, whose tab closes, is the last page navigated to, and the
    loop never navigates to more pages than the configured maximum. *)
Theorem short_page_ends_pagination (p : nat) (hrefs : list string) :
  In p (navigated (collectUrls config search tabs)) ->
  search p = Results hrefs ->
  Z.of_nat (List.length hrefs) < resultsPerPage config ->
  tab_closes (tabs p) = true ->
  navigated (collectUrls config search tabs) = seq 0 (S p) /\
  (forall q, (p < q)%nat -> ~ In q (navigated (collectUrls config search tabs))) /\
  Z.of_nat (List.length (navigated (collectUrls config search tabs)))
    <= Z.max 0 (maxPages config).
Proof.
  intros Hp Hpage Hshort Hcloses.
  assert (Hnav : navigated (collectUrls config search tabs) = seq 0 (S p)).
  { apply break_is_last; [done |].
    unfold ends_loop, page_error, terminal_page. rewrite Hpage, Hcloses.
    cbn [negb]. rewrite andb_true_r. by apply Z.ltb_lt. }
  split; [done |]. split; [| apply navigated_at_most_maxPages].
  intros q Hq. rewrite Hnav, in_seq. lia.
Qed.

(** The no-results marker ends the pagination as well, when the tab
    closes. *)
Lemma no_results_ends_pagination (p : nat) :
  In p (navigated (collectUrls config search tabs)) ->
  search p = NoResults ->
  tab_closes (tabs p) = true ->
  navigated (collectUrls config search tabs) = seq 0 (S p).
Proof.
  intros Hp Hpage Hcloses. apply break_is_last; [done |].
  unfold ends_loop, page_error, terminal_page. by rewrite Hpage, Hcloses.
Qed.

(** C10, as amended. A result page whose navigation or processing throws
    (the navigation, an evaluation in the page, or the closing of its tab
    in the [try] block) does not end the pagination and does not make
    [collectListings] throw, when the [page.close()] of the [catch] block
    succeeds: the error of that page is not the one that leaves the loop;
    the next page
    number, when below the configured maximum, is navigated to as soon as
    its tab opens (and when it does not, it is that error, of the next
    page, that leaves the loop); the links collected so far are kept; a
    page at which the loop reaches a [break] is the last one navigated
    to; and [collectListings] returns the records of the collected URLs
    exactly when no error leaves the loop, at any page. *)
Theorem page_error_is_absorbed `{Host}
    (visit : string -> DetailVisit) (p : nat) :
  In p (navigated (collectUrls config search tabs)) ->
  page_error search tabs p = true ->
  tab_closes_after_error (tabs p) = true ->
  Z.of_nat (S p) < maxPages config ->
  loop_error (collectUrls config search tabs) <> Some p /\
  (tab_opens (tabs (S p)) = true ->
   In (S p) (navigated (collectUrls config search tabs))) /\
  (tab_opens (tabs (S p)) = false ->
   loop_error (collectUrls config search tabs) = Some (S p)) /\
  (forall q hrefs u, (q <= p)%nat -> search q = Results hrefs -> In u hrefs ->
     In u (detailTasks config search tabs)) /\
  (forall q, In q (navigated (collectUrls config search tabs)) ->
     ends_loop config search tabs q = true ->
     navigated (collectUrls config search tabs) = seq 0 (S q)) /\
  (collectListings true config search tabs visit
   = match loop_error (collectUrls config search tabs) with
     | Some _ => Thrown SessionError
     | None =>
         Returned (omap (fun u => scrapeListingPage (visit u) u)
                        (detailTasks config search tabs))
     end).
Proof.
  intros Hp Hpage Hcloses Hbound.
  destruct (absorbed_error_goes_on p Hp) as (Hnot & Hnext & Hstuck);
    [by unfold ends_loop; rewrite Hpage, andb_false_r
    | by unfold leaves_loop; rewrite Hcloses, andb_false_r
    | done |].
  split; [done |]. split; [done |]. split; [done |]. split; [| split].
  - intros q hrefs u Hq Hres Hu. apply detailTasks_In. exists q, hrefs.
    split; [| done].
    destruct collectUrls_shape as (k & _ & Hnav & _).
    rewrite Hnav in *. apply in_seq in Hp. apply in_seq. lia.
  - intros q Hq Hends. by apply break_is_last.
  - reflexivity.
Qed.

End UrlCollection.


(** Page 3 of the example has one link for a page size of two. *)
Lemma short_page_ends_pagination_witness :
  navigated (collectUrls Fixture.config Fixture.search Fixture.tabs) = seq 0 4 /\
  (forall q, (3 < q)%nat ->
     ~ In q (navigated (collectUrls Fixture.config Fixture.search Fixture.tabs))) /\
  Z.of_nat (List.length
              (navigated (collectUrls Fixture.config Fixture.search Fixture.tabs)))
    <= Z.max 0 (maxPages Fixture.config).
Proof.
  apply (short_page_ends_pagination Fixture.config Fixture.search Fixture.tabs 3
           ["https://cl.example/atq/4.html"]).
  - vm_compute. auto.
  - reflexivity.
  - vm_compute. reflexivity.
  - reflexivity.
Defined.

(** C8, as stated, fails: when the tab of the short page 3 does not close
    in the [try] block, the [break] is not reached; the error is handled
    as a page error, and page 4 is navigated to. *)
Lemma short_page_with_stuck_tab_goes_on :
  Fixture.search 3 = Results ["https://cl.example/atq/4.html"] /\
  Z.of_nat (List.length ["https://cl.example/atq/4.html"])
    < resultsPerPage Fixture.config /\
  In 3%nat (navigated (collectUrls Fixture.config Fixture.search
                                   Fixture.stuck_tabs)) /\
  In 4%nat (navigated (collectUrls Fixture.config Fixture.search
                                   Fixture.stuck_tabs)).
Proof. vm_compute. intuition. Qed.

(** Page 1 of the example throws; page 2 is navigated to all the same. *)
Lemma page_error_is_absorbed_witness :
  loop_error (collectUrls Fixture.config Fixture.search Fixture.tabs)
    <> Some 1%nat /\
  (tab_opens (Fixture.tabs 2) = true ->
   In 2%nat (navigated (collectUrls Fixture.config Fixture.search Fixture.tabs))) /\
  (tab_opens (Fixture.tabs 2) = false ->
   loop_error (collectUrls Fixture.config Fixture.search Fixture.tabs)
     = Some 2%nat) /\
  (forall q hrefs u, (q <= 1)%nat -> Fixture.search q = Results hrefs ->
     In u hrefs ->
     In u (detailTasks Fixture.config Fixture.search Fixture.tabs)) /\
  (forall q,
     In q (navigated (collectUrls Fixture.config Fixture.search Fixture.tabs)) ->
     ends_loop Fixture.config Fixture.search Fixture.tabs q = true ->
     navigated (collectUrls Fixture.config Fixture.search Fixture.tabs)
       = seq 0 (S q)) /\
  (collectListings (H := Fixture.host) true Fixture.config Fixture.search
                   Fixture.tabs (fun _ => Fixture.visit None)
   = match loop_error (collectUrls Fixture.config Fixture.search Fixture.tabs) with
     | Some _ => Thrown SessionError
     | None =>
         Returned (omap (fun u => scrapeListingPage (H := Fixture.host)
                                    (Fixture.visit None) u)
                        (detailTasks Fixture.config Fixture.search Fixture.tabs))
     end).
Proof.
  apply (page_error_is_absorbed Fixture.config Fixture.search Fixture.tabs
           (H := Fixture.host) (fun _ => Fixture.visit None) 1).
  - vm_compute. auto.
  - reflexivity.
  - reflexivity.
  - vm_compute. reflexivity.
Defined.

(** C10, as stated, fails: when page 1 throws and the [page.close()] of
    the [catch] block throws in its turn, the error leaves the loop, page
    2 is not navigated to, and [collectListings] throws: the links of
    page 0 are not returned. *)
Lemma page_error_with_lost_tab_aborts :
  Fixture.search 1 = SearchThrows /\
  In 1%nat (navigated (collectUrls Fixture.config Fixture.search
                                   Fixture.lost_tabs)) /\
  ~ In 2%nat (navigated (collectUrls Fixture.config Fixture.search
                                     Fixture.lost_tabs)) /\
  collectListings (H := Fixture.host) true Fixture.config Fixture.search
                  Fixture.lost_tabs (fun _ => Fixture.visit None)
  = Thrown SessionError.
Proof. vm_compute. intuition discriminate. Qed.

(** ** The detail fetch and the posting date *)

Section PostingDate.
Context `{Host}.

(** Without posting-date text, the record carries the fetch time. *)
Lemma missing_date_uses_fetch_time (visit : DetailVisit) (dom : DetailDom)
    (url : string) :
  visit_opens visit = true -> visit_closes visit = true ->
  visit_page visit = Live dom ->
  truthy_str (getText (sel_date_timeago dom)) = false ->
  exists listing,
    scrapeListingPage visit url = Some listing /\
    postedDate listing = Some (visit_now visit).
Proof.
  intros Hopens Hcloses Hpage Hdate. unfold scrapeListingPage, extract.
  rewrite Hopens, Hcloses, Hpage, Hdate. simpl. by eexists.
Qed.

(** With posting-date text that parses, the record carries that date. *)
Lemma parsed_date_is_kept (visit : DetailVisit) (dom : DetailDom)
    (url : string) (t : Z) :
  visit_opens visit = true -> visit_closes visit = true ->
  visit_page visit = Live dom ->
  truthy_str (getText (sel_date_timeago dom)) = true ->
  Date_parse (getText (sel_date_timeago dom)) = Some t ->
  exists listing,
    scrapeListingPage visit url = Some listing /\
    postedDate listing = Some t.
Proof.
  intros Hopens Hcloses Hpage Hdate Hparse. unfold scrapeListingPage, extract.
  rewrite Hopens, Hcloses, Hpage, Hdate, Hparse. simpl. by eexists.
Qed.

(** C6 fails on the code. With posting-date text that does not parse,
    [toISOString] throws on the Invalid Date inside the page; the error is
    caught by [scrapeListingPage], which returns [null]: no record is
    produced for the URL, and the fetch time is not substituted. *)
Theorem unparseable_date_drops_listing (visit : DetailVisit) (dom : DetailDom)
    (url : string) :
  visit_page visit = Live dom ->
  truthy_str (getText (sel_date_timeago dom)) = true ->
  Date_parse (getText (sel_date_timeago dom)) = None ->
  scrapeListingPage visit url = None.
Proof.
  intros Hpage Hdate Hparse. unfold scrapeListingPage, extract.
  rewrite Hpage, Hdate, Hparse. by destruct (visit_opens visit).
Qed.

End PostingDate.

Lemma unparseable_date_drops_listing_witness :
  scrapeListingPage (H := Fixture.host)
    (Fixture.visit (Some "yesterday"))
    "https://cl.example/atq/1.html" = None.
Proof.
  apply (unparseable_date_drops_listing (H := Fixture.host)
           (Fixture.visit (Some "yesterday"))
           (Fixture.dom (Some "yesterday"))
           "https://cl.example/atq/1.html");
    reflexivity.
Defined.

(** ** Image downloads *)

Section Downloads.
Context `{Host}.
Variable imageDir : string.

Lemma cleanup_removes (env : DownloadEnv) (path : string) (fs : FileSystem) :
  dl_unlink_ok env = true -> cleanup env path fs !! path = None.
Proof.
  intros Hunlink. unfold cleanup. rewrite Hunlink.
  destruct (fs !! path) eqn:Hfile; [apply lookup_delete_eq | done].
Qed.

Lemma cleanup_elsewhere (env : DownloadEnv) (path other : string)
    (fs : FileSystem) :
  other <> path -> cleanup env path fs !! other = fs !! other.
Proof.
  intros Hne. unfold cleanup.
  destruct (fs !! path); [| done].
  destruct (dl_unlink_ok env); [by apply lookup_delete_ne | done].
Qed.

(** What a download returns does not depend on the file system it starts
    from: it succeeds exactly when the request, the opening of the file,
    the body and the read-back all do. *)
Lemma downloadImage_result (env : DownloadEnv) (fs : FileSystem)
    (url listing : string) :
  snd (downloadImage imageDir env fs url listing) =
    match getFileExtension url with
    | None => Thrown InvalidURL
    | Some extension =>
        if download_fails env then Returned None
        else
          match dl_response env with
          | None => Returned None
          | Some response =>
              let filename := listing ++ "_" ++ dl_uuid env ++ extension in
              Returned (Some
                {| img_id := dl_uuid env;
                   listingId := listing;
                   filename := filename;
                   originalUrl := url;
                   localPath := path_join imageDir filename;
                   contentType :=
                     header_or (header_content_type response) "image/jpeg";
                   size :=
                     if (body_bytes response =? 0)%N
                     then parseInt10
                            (header_or (header_content_length response) "0")
                     else of_Z (Z.of_N (body_bytes response)) |})
          end
    end.
Proof.
  unfold downloadImage, download_fails, pipeline, stat.
  destruct (getFileExtension url) as [extension |]; [| done].
  destruct (dl_response env) as [response |]; [| done].
  destruct (dl_open_ok env); [| done].
  destruct (body_complete response); [| done].
  destruct (dl_stat_ok env); [| done].
  simpl. by rewrite lookup_insert_eq.
Qed.

(** A download touches no other path than its own. *)
Lemma downloadImage_frame (env : DownloadEnv) (fs : FileSystem)
    (url listing path other : string) :
  localPathOf imageDir env url listing = Some path ->
  other <> path ->
  fst (downloadImage imageDir env fs url listing) !! other = fs !! other.
Proof.
  unfold localPathOf, downloadImage, pipeline, stat.
  destruct (getFileExtension url) as [extension |]; [| done].
  intros [= <-] Hne.
  destruct (dl_response env) as [response |]; simpl;
    [| by apply cleanup_elsewhere].
  destruct (dl_open_ok env); [| by apply cleanup_elsewhere].
  destruct (body_complete response); simpl;
    [| by rewrite cleanup_elsewhere, lookup_insert_ne].
  destruct (dl_stat_ok env); simpl.
  - rewrite lookup_insert_eq. simpl. by rewrite lookup_insert_ne.
  - by rewrite cleanup_elsewhere, lookup_insert_ne.
Qed.

(** After a failed download whose clean-up could remove the file, there
    is no file at the local path. *)
Lemma failed_download_no_file (env : DownloadEnv) (fs : FileSystem)
    (url listing path : string) :
  localPathOf imageDir env url listing = Some path ->
  download_fails env = true ->
  dl_unlink_ok env = true ->
  fst (downloadImage imageDir env fs url listing) !! path = None.
Proof.
  unfold localPathOf, downloadImage, download_fails, pipeline, stat.
  destruct (getFileExtension url) as [extension |]; [| done].
  intros [= <-] Hfails Hunlink.
  destruct (dl_response env) as [response |]; simpl;
    [| by apply cleanup_removes].
  destruct (dl_open_ok env); [| by apply cleanup_removes].
  destruct (body_complete response); simpl; [| by apply cleanup_removes].
  destruct (dl_stat_ok env); simpl; [done | by apply cleanup_removes].
Qed.

Lemma settleAll_results (envs : nat -> DownloadEnv) (i : nat)
    (fs fs' : FileSystem) (urls : list string) (listing : string) :
  snd (settleAll imageDir envs i fs urls listing)
  = snd (settleAll imageDir envs i fs' urls listing).
Proof.
  revert i fs fs'. induction urls as [| u urls IH]; intros i fs fs'; [done |].
  simpl.
  pose proof (downloadImage_result (envs i) fs u listing) as Hr.
  pose proof (downloadImage_result (envs i) fs' u listing) as Hr'.
  destruct (downloadImage imageDir (envs i) fs u listing) as [fs1 r].
  destruct (downloadImage imageDir (envs i) fs' u listing) as [fs1' r'].
  simpl in Hr, Hr'. rewrite <- Hr' in Hr. subst r'.
  specialize (IH (S i) fs1 fs1').
  destruct (settleAll imageDir envs (S i) fs1 urls listing) as [fs2 rs].
  destruct (settleAll imageDir envs (S i) fs1' urls listing) as [fs2' rs'].
  simpl in *. by subst.
Qed.




(** C9, as amended. The size recorded for a downloaded asset is the size
    read back from the written file when that size is not zero; for an
    empty file it is what [parseInt] makes of the content-length header
    (of "0" when the header is absent or empty). *)
Theorem recorded_size_is_read_back (env : DownloadEnv) (fs : FileSystem)
    (url listing : string) (img : ImageData) :
  snd (downloadImage imageDir env fs url listing) = Returned (Some img) ->
  exists (on_disk : N) (response : Response),
    dl_response env = Some response /\
    fst (downloadImage imageDir env fs url listing) !! localPath img
      = Some on_disk /\
    size img =
      if (on_disk =? 0)%N
      then parseInt10 (header_or (header_content_length response) "0")
      else of_Z (Z.of_N on_disk).
Proof.
  unfold downloadImage, pipeline, stat.
  destruct (getFileExtension url) as [extension |]; [| done].
  destruct (dl_response env) as [response |]; [| done].
  destruct (dl_open_ok env); [| done].
  destruct (body_complete response); [| done].
  destruct (dl_stat_ok env); [| done].
  simpl. rewrite lookup_insert_eq. simpl. intros [= <-]. simpl.
  exists (body_bytes response), response.
  by rewrite lookup_insert_eq.
Qed.

End Downloads.


Example batch_downloads :
  map localPath
      (snd (downloadImages (H := Fixture.host) "/data/images" Fixture.batch ∅
              Fixture.batch_urls "7f3c"))
  = ["/data/images/7f3c_0a01.jpg"; "/data/images/7f3c_0a03.png"].
Proof. reflexivity. Qed.


(** A body of 2048 bytes announced as 9999: the size read back wins. *)
Lemma recorded_size_is_read_back_witness :
  exists (on_disk : N) (response : Response),
    dl_response (Fixture.download (Some Fixture.full_body) true)
      = Some response /\
    fst (downloadImage (H := Fixture.host) "/data/images"
           (Fixture.download (Some Fixture.full_body) true) ∅
           Fixture.image_url "7f3c")
      !! "/data/images/7f3c_1b9d.jpg" = Some on_disk /\
    of_Z 2048 =
      if (on_disk =? 0)%N
      then parseInt10 (header_or (header_content_length response) "0")
      else of_Z (Z.of_N on_disk).
Proof.
  apply (recorded_size_is_read_back (H := Fixture.host) "/data/images"
           (Fixture.download (Some Fixture.full_body) true) ∅
           Fixture.image_url "7f3c"
           {| img_id := "1b9d"; listingId := "7f3c";
              filename := "7f3c_1b9d.jpg";
              originalUrl := Fixture.image_url;
              localPath := "/data/images/7f3c_1b9d.jpg";
              contentType := "image/jpeg";
              size := of_Z 2048 |}).
  reflexivity.
Defined.

(** C9, as stated, fails: an empty body announced as 20 bytes is written
    as a file of 0 bytes, and the size recorded is 20, from the header. *)
Lemma header_size_recorded_for_empty_file :
  exists img,
    snd (downloadImage (H := Fixture.host) "/data/images"
           (Fixture.download (Some Fixture.empty_body) true) ∅
           Fixture.image_url "7f3c") = Returned (Some img) /\
    fst (downloadImage (H := Fixture.host) "/data/images"
           (Fixture.download (Some Fixture.empty_body) true) ∅
           Fixture.image_url "7f3c") !! localPath img = Some 0%N /\
    size img = of_Z 20 /\
    size img <> of_Z 0.
Proof.
  eexists. split; [reflexivity |]. split; [reflexivity |].
  split; [reflexivity | discriminate].
Qed.

(* ===================================================================== *)
(** * Further properties of the enrichment client *)
(* ===================================================================== *)

Import Notions.

(** ** Trimming *)

Lemma trimStart_starts_clean (s : string) : starts_clean (trimStart s).
Proof.
  induction s as [| c s IH]; simpl; [done |].
  destruct (is_white c) eqn:Hc; [done | by simpl].
Qed.

Lemma trimStart_id (s : string) : starts_clean s -> trimStart s = s.
Proof. destruct s as [| c s]; simpl; [done |]. by intros ->. Qed.

Lemma trimEnd_starts_clean (s : string) :
  starts_clean s -> starts_clean (trimEnd s).
Proof.
  destruct s as [| c s]; simpl; [done |]. intros Hc.
  destruct (trimEnd s); simpl; [by rewrite Hc |]; done.
Qed.

Lemma trimEnd_idempotent (s : string) : trimEnd (trimEnd s) = trimEnd s.
Proof.
  induction s as [| c s IH]; simpl; [done |].
  destruct (trimEnd s) as [| d r] eqn:Hr.
  - destruct (is_white c) eqn:Hc; simpl; [done | by rewrite Hc].
  - simpl in *. rewrite IH. done.
Qed.

Lemma trim_idempotent (s : string) : trim (trim s) = trim s.
Proof.
  unfold trim.
  rewrite (trimStart_id (trimEnd (trimStart s))).
  - apply trimEnd_idempotent.
  - apply trimEnd_starts_clean, trimStart_starts_clean.
Qed.

Section ValidatedFields.
Context `{Host}.

(** X1. With a default that is itself a non-blank, trimmed text, the text
    [validateString] returns is never blank and has no white space around
    it, whatever the value: a non-string, a blank string or a padded one. *)
Theorem validateString_clean (value : JsValue) (defaultValue : string) :
  truthy_str defaultValue = true ->
  trim defaultValue = defaultValue ->
  truthy_str (validateString value defaultValue) = true /\
  trim (validateString value defaultValue) = validateString value defaultValue.
Proof.
  intros Hd Htrim. unfold validateString.
  destruct value as [| | | | s | |]; try done.
  destruct (truthy_str (trim s)) eqn:Hs; [| done].
  split; [done | apply trim_idempotent].
Qed.

Lemma validateString_nonblank (value : JsValue) (defaultValue : string) :
  truthy_str defaultValue = true ->
  truthy_str (validateString value defaultValue) = true.
Proof.
  intros Hd. unfold validateString.
  destruct value as [| | | | s | |]; try done.
  by destruct (truthy_str (trim s)) eqn:Hs.
Qed.

Lemma validateConfidence_unit_score (value : JsValue) (score : number) :
  validateConfidence value = Some score -> unit_score score.
Proof.
  unfold validateConfidence, unit_score.
  destruct (ToNumber value) as [num |]; [| done]. intros [= <-].
  destruct (isNaN num) eqn:Hnan.
  - vm_compute; intuition discriminate.
  - by apply clamp_unit_interval.
Qed.

Lemma getDefaultAnalysis_in_domain : in_domain getDefaultAnalysis.
Proof.
  repeat split; try reflexivity; try (vm_compute; discriminate).
  simpl. auto.
Qed.

Lemma parseResponse_domain (responseContent : option string) :
  in_domain (parseResponse responseContent).
Proof.
  unfold parseResponse.
  destruct responseContent as [content |];
    [| apply getDefaultAnalysis_in_domain].
  destruct (truthy_str content); simpl;
    [| apply getDefaultAnalysis_in_domain].
  destruct (JSON_parse content) as [parsed |];
    [| apply getDefaultAnalysis_in_domain].
  destruct (validatedAnalysis parsed) as [analysis |] eqn:Hvalidated;
    [| apply getDefaultAnalysis_in_domain].
  unfold validatedAnalysis in Hvalidated.
  destruct (get_prop parsed "marketValue") as [mv |]; [| done].
  cbn [mbind option_bind] in Hvalidated.
  destruct (validateNumber mv pos_zero) as [value |] eqn:Hvalue; [| done].
  cbn [mbind option_bind] in Hvalidated.
  destruct (get_prop parsed "pricingAssessment") as [pa |]; [| done].
  cbn [mbind option_bind] in Hvalidated.
  destruct (validatePricingAssessment pa) as [assessment |] eqn:Hassessment;
    [| done].
  cbn [mbind option_bind] in Hvalidated.
  destruct (get_prop parsed "pricingConfidence") as [pc |]; [| done].
  cbn [mbind option_bind] in Hvalidated.
  destruct (validateConfidence pc) as [confidence |] eqn:Hconfidence; [| done].
  cbn [mbind option_bind] in Hvalidated.
  destruct (get_prop parsed "authenticityScore") as [au |]; [| done].
  cbn [mbind option_bind] in Hvalidated.
  destruct (validateConfidence au) as [score |] eqn:Hscore; [| done].
  cbn [mbind option_bind] in Hvalidated.
  destruct (get_prop parsed "authenticityTips") as [tips |]; [| done].
  destruct (get_prop parsed "historicalContext") as [ctx |]; [| done].
  destruct (get_prop parsed "additionalNotes") as [notes |]; [| done].
  cbn [mbind option_bind] in Hvalidated. injection Hvalidated as <-.
  unfold in_domain. simpl.
  split; [by apply (validateNumber_not_NaN mv pos_zero) |].
  split; [by apply (validatePricingAssessment_valid pa) |].
  split; [by apply (validateConfidence_unit_score pc) |].
  split; [by apply (validateConfidence_unit_score au) |].
  repeat split; by apply validateString_nonblank.
Qed.

(** X2. Whatever the upstream service answers (no content, empty content,
    text that is not JSON, JSON of any shape), every field of the analysis
    [parseResponse] returns is in its domain: the market value is a
    number, the assessment one of the three, both scores in [[0, 1]], the
    three texts not empty. *)
Theorem parseResponse_in_domain (responseContent : option string) :
  in_domain (parseResponse responseContent).
Proof. apply parseResponse_domain. Qed.

Lemma validateConfidence_exact (x : number) :
  exact_score x -> validateConfidence (JNum x) = Some x.
Proof.
  intros [Hlow Hhigh]. unfold validateConfidence. simpl. f_equal.
  assert (Hnan : isNaN x = false).
  { destruct Hlow as [-> | Hlt]; [done |]. by destruct x. }
  rewrite Hnan.
  assert (Hmin : Math_min one x = x).
  { unfold Math_min. rewrite Hnan. simpl.
    destruct Hhigh as [-> | ->]; done. }
  rewrite Hmin. unfold Math_max. rewrite Hnan.
  destruct Hlow as [-> | ->]; done.
Qed.

Lemma validatePricingAssessment_exact (w : string) :
  In w validValues -> validatePricingAssessment (JStr w) = Some w.
Proof.
  intros [<- | [<- | [<- | []]]]; reflexivity.
Qed.

Lemma validateString_exact (s defaultValue : string) :
  truthy_str s = true -> trim s = s ->
  validateString (JStr s) defaultValue = s.
Proof. intros Hs Htrim. unfold validateString. by rewrite Htrim, Hs. Qed.

(** X3. Validation changes nothing in a response that is already valid:
    when the content parses to an object holding a number as market value,
    one of the three assessments, two scores of [[0, 1]] and three trimmed,
    non-empty texts, [parseResponse] returns exactly these values. *)
Theorem parseResponse_keeps_canonical (content : string) (a : AntiqueAnalysis) :
  truthy_str content = true ->
  JSON_parse content = Some (analysis_object a) ->
  canonical a ->
  parseResponse (Some content) = a.
Proof.
  intros Hcontent Hparse (Hmv & Hpa & Hpc & Hau & [Ht1 Ht2] & [Hc1 Hc2] & [Hn1 Hn2]).
  unfold parseResponse, validatedAnalysis. rewrite Hcontent, Hparse.
  change (get_prop (analysis_object a) "marketValue")
    with (Some (JNum (marketValue a))).
  change (get_prop (analysis_object a) "pricingAssessment")
    with (Some (JStr (pricingAssessment a))).
  change (get_prop (analysis_object a) "pricingConfidence")
    with (Some (JNum (pricingConfidence a))).
  change (get_prop (analysis_object a) "authenticityScore")
    with (Some (JNum (authenticityScore a))).
  change (get_prop (analysis_object a) "authenticityTips")
    with (Some (JStr (authenticityTips a))).
  change (get_prop (analysis_object a) "historicalContext")
    with (Some (JStr (historicalContext a))).
  change (get_prop (analysis_object a) "additionalNotes")
    with (Some (JStr (additionalNotes a))).
  cbn [negb mbind option_bind].
  unfold validateNumber. cbn [ToNumber]. rewrite Hmv.
  cbn [mbind option_bind].
  rewrite (validatePricingAssessment_exact _ Hpa). cbn [mbind option_bind].
  rewrite (validateConfidence_exact _ Hpc). cbn [mbind option_bind].
  rewrite (validateConfidence_exact _ Hau). cbn [mbind option_bind].
  rewrite !validateString_exact by done.
  by destruct a.
Qed.

End ValidatedFields.

(** ** The retry loop *)

Section RetryLoop.
Context `{Host}.
Variable api : ListingData -> nat -> ApiOutcome.

(** X4. When the first attempt that completes is attempt [k] (of the
    three), [performAnalysis] returns the parsed response of that attempt
    after waiting 1000 * 2^i ms behind each failed attempt [i < k]: no
    wait for an immediate success, 1 s after one failure, 1 s and 2 s
    after two. *)
Theorem performAnalysis_first_success (listing : ListingData) (k : nat)
    (content : option string) :
  (k < maxRetries)%nat ->
  (forall i, (i < k)%nat -> exists status, api listing i = ApiThrows status) ->
  api listing k = Completion content ->
  performAnalysis api listing
  = (Returned (parseResponse content), map backoffTime (seq 0 k)).
Proof.
  unfold performAnalysis, maxRetries. intros Hk Hfail Hok.
  destruct k as [| [| [| k]]]; [| | | lia]; simpl.
  - by rewrite Hok.
  - destruct (Hfail 0%nat ltac:(lia)) as [st0 H0]. rewrite H0, Hok.
    by destruct (is_rate_limit st0).
  - destruct (Hfail 0%nat ltac:(lia)) as [st0 H0].
    destruct (Hfail 1%nat ltac:(lia)) as [st1 H1]. rewrite H0, H1, Hok.
    by destruct (is_rate_limit st0), (is_rate_limit st1).
Qed.

(** X5. When all three attempts throw, what [performAnalysis] throws
    depends on the last error: a last error that is not a rate limit is
    rethrown at once, after the waits of 1 s and 2 s; a last rate limit is
    waited on for 4 s more and replaced by the generic error of the
    exhausted loop. *)
Theorem performAnalysis_exhausted (listing : ListingData)
    (st0 st1 st2 : option Z) :
  api listing 0%nat = ApiThrows st0 ->
  api listing 1%nat = ApiThrows st1 ->
  api listing 2%nat = ApiThrows st2 ->
  performAnalysis api listing
  = if is_rate_limit st2
    then (Thrown RetriesExhausted, [1000; 2000; 4000])
    else (Thrown (ApiFailure st2), [1000; 2000]).
Proof.
  unfold performAnalysis, maxRetries. intros H0 H1 H2. simpl.
  rewrite H0, H1, H2.
  by destruct (is_rate_limit st0), (is_rate_limit st1), (is_rate_limit st2).
Qed.

Lemma retryFrom_returned (create : nat -> ApiOutcome) (remaining attempt : nat)
    (a : AntiqueAnalysis) :
  fst (retryFrom create remaining attempt) = Returned a ->
  exists content, a = parseResponse content.
Proof.
  revert attempt. induction remaining as [| remaining IH]; intros attempt;
    simpl; [done |].
  destruct (create attempt) as [content | status].
  - simpl. intros [= <-]. by exists content.
  - specialize (IH (S attempt)).
    destruct (retryFrom create remaining (S attempt)) as [r waits].
    destruct (is_rate_limit status); [exact IH |].
    match goal with
    | |- context [if ?b then _ else _] => destruct b
    end; [simpl; discriminate | exact IH].
Qed.

Lemma analyzeAntique_domain (listing : ListingData) :
  in_domain (analyzeAntique api listing).
Proof.
  unfold analyzeAntique, performAnalysis.
  destruct (fst (retryFrom (api listing) maxRetries 0)) as [a | e] eqn:Hr.
  - apply retryFrom_returned in Hr as [content ->].
    apply parseResponse_domain.
  - apply getDefaultAnalysis_in_domain.
Qed.

(** X6. Whatever the upstream service does on the three attempts
    (answers, malformed answers, rate limits, errors), every field of the
    analysis [analyzeAntique] returns is in its domain. *)
Theorem analyzeAntique_in_domain (listing : ListingData) :
  in_domain (analyzeAntique api listing).
Proof. apply analyzeAntique_domain. Qed.

End RetryLoop.

(* ===================================================================== *)
(** * Further properties of the listing fetcher *)
(* ===================================================================== *)

(** ** The listed price *)

Lemma is_digit_neq (c k : ascii) :
  is_digit c = true -> is_digit k = false -> (c =? k)%char = false.
Proof.
  intros Hc Hk. destruct (Ascii.eqb_spec c k) as [-> | ]; congruence.
Qed.

Lemma is_digit_not_white (c : ascii) : is_digit c = true -> is_white c = false.
Proof.
  unfold is_digit, is_white. intros Hc.
  apply orb_false_iff; split; [apply orb_false_iff; split |].
  - bool_to_N. unfold between. apply andb_false_iff. right.
    apply N.leb_gt. lia.
  - bool_to_N. apply N.eqb_neq. lia.
  - bool_to_N. apply N.eqb_neq. lia.
Qed.

Lemma digit_val_nonneg (c : ascii) : is_digit c = true -> 0 <= digit_val c.
Proof. unfold is_digit, digit_val. intros Hc. bool_to_N. lia. Qed.

Lemma money_digits_nonneg (s : string) : Forall (fun d => 0 <= d) (money_digits s).
Proof.
  induction s as [| c s IH]; simpl; [constructor |].
  destruct (is_digit c) eqn:Hc; [| done].
  constructor; [by apply digit_val_nonneg | done].
Qed.

Lemma fold_digits_nonneg (ds : list Z) (acc : Z) :
  0 <= acc -> Forall (fun d => 0 <= d) ds ->
  0 <= fold_left (fun a d => 10 * a + d) ds acc.
Proof.
  revert acc. induction ds as [| d ds IH]; intros acc Hacc Hds; simpl; [done |].
  inversion Hds; subst. apply IH; [lia | done].
Qed.

Lemma digits_value_nonneg (ds : list Z) :
  Forall (fun d => 0 <= d) ds -> 0 <= digits_value 10 ds.
Proof. intros Hds. by apply fold_digits_nonneg. Qed.

(** Stripping the currency characters of a price text leaves its digits. *)
Lemma strip_currency_money (s : string) :
  forallb money_char (list_ascii_of_string s) = true ->
  take_digits (strip_currency s) = (money_digits s, EmptyString) /\
  trimEnd (strip_currency s) = strip_currency s.
Proof.
  induction s as [| c s IH]; simpl; [done |]. intros Hs.
  apply andb_true_iff in Hs as [Hc Hs]. destruct (IH Hs) as [IHd IHt].
  destruct (is_digit c) eqn:Hdigit.
  - rewrite (is_digit_neq c "$" Hdigit eq_refl),
            (is_digit_neq c "," Hdigit eq_refl).
    simpl. rewrite Hdigit, IHd, IHt. split; [done |].
    destruct (strip_currency s); [| done].
    by rewrite (is_digit_not_white c Hdigit).
  - unfold money_char in Hc. rewrite Hdigit in Hc. simpl in Hc.
    by rewrite Hc.
Qed.

Lemma take_digits_head (s : string) (d : Z) (ds : list Z) (r : string) :
  take_digits s = (d :: ds, r) ->
  exists c t, s = String c t /\ is_digit c = true.
Proof.
  destruct s as [| c t]; simpl; [done |].
  destruct (is_digit c) eqn:Hc; [| done]. intros _. by exists c, t.
Qed.

(** A non-empty string of digits converts to the integer it spells. *)
Lemma StringToNumber_digits (t : string) (d : Z) (ds : list Z) :
  take_digits t = (d :: ds, EmptyString) ->
  trimEnd t = t ->
  Forall (fun x => 0 <= x) (d :: ds) ->
  StringToNumber t = of_Z (digits_value 10 (d :: ds)).
Proof.
  intros Htake Htrim Hpos.
  destruct (take_digits_head _ _ _ _ Htake) as (c & r & -> & Hc).
  unfold StringToNumber, trim.
  assert (Hstart : trimStart (String c r) = String c r).
  { simpl. by rewrite (is_digit_not_white c Hc). }
  rewrite Hstart, Htrim. cbn [is_empty].
  assert (Hprefix : radix_prefix (String c r) = None).
  { destruct r as [| x r]; [done |]. cbn [radix_prefix].
    destruct (c =? "0")%char; [| done].
    assert (Hx : is_digit x = true).
    { simpl in Htake. rewrite Hc in Htake. simpl in Htake.
      destruct (is_digit x); [done |]. by inversion Htake. }
    by rewrite (is_digit_neq x "x" Hx eq_refl), (is_digit_neq x "X" Hx eq_refl),
               (is_digit_neq x "o" Hx eq_refl), (is_digit_neq x "O" Hx eq_refl),
               (is_digit_neq x "b" Hx eq_refl), (is_digit_neq x "B" Hx eq_refl). }
  unfold parse_numeric_literal. rewrite Hprefix.
  assert (Hsign : take_sign (String c r) = (false, String c r)).
  { cbn [take_sign].
    by rewrite (is_digit_neq c "+" Hc eq_refl), (is_digit_neq c "-" Hc eq_refl). }
  rewrite Hsign. unfold parse_unsigned_decimal.
  assert (Hinf : (String c r =? "Infinity")%string = false).
  { cbn [String.eqb]. by rewrite (is_digit_neq c "I" Hc eq_refl). }
  rewrite Hinf, Htake. cbn [app parse_exponent List.length].
  rewrite app_nil_r.
  pose proof (digits_value_nonneg _ Hpos) as Hv.
  unfold decimal_to_number.
  destruct (digits_value 10 (d :: ds)) as [| p | p] eqn:Hval; [done | | lia].
  change (0 - Z.of_nat 0) with 0. cbv iota.
  by replace (Z.pos p * 10 ^ 0) with (Z.pos p) by lia.
Qed.

Section ListingRecord.
Context `{Host}.

(** X7. A price text written with dollar signs and thousands separators
    is read as the plain amount: for a page whose [.price] text is made of
    digits, `$` and `,` (at least one digit), the record's price is the
    integer the digits spell, as a number ([null] for an integer so large
    that the number nearest to it is infinite). *)
Theorem listed_price_is_the_amount (visit : DetailVisit) (dom : DetailDom)
    (url : string) (listing : ListingData) :
  visit_page visit = Live dom ->
  scrapeListingPage visit url = Some listing ->
  money_text (getText (sel_price dom)) = true ->
  price listing
  = if is_finite (of_Z (money_amount (getText (sel_price dom))))
    then Some (of_Z (money_amount (getText (sel_price dom))))
    else None.
Proof.
  intros Hpage Hscrape Hmoney.
  unfold money_text in Hmoney. apply andb_true_iff in Hmoney as [Hchars Hsome].
  destruct (strip_currency_money _ Hchars) as [Htake Htrim].
  unfold scrapeListingPage in Hscrape. rewrite Hpage in Hscrape.
  destruct (visit_opens visit); [| done]. cbn [negb] in Hscrape.
  unfold extract in Hscrape.
  destruct (toISOString _) as [iso |]; [| done].
  destruct (visit_closes visit); [| done]. cbn [negb] in Hscrape.
  inversion Hscrape; subst listing; clear Hscrape. cbn [price ex_price].
  assert (Htruthy : truthy_str (getText (sel_price dom)) = true).
  { destruct (getText (sel_price dom)); [done | done]. }
  rewrite Htruthy. unfold by_value, money_amount.
  apply (f_equal (fun x => if is_finite x then Some x else None)).
  destruct (money_digits (getText (sel_price dom))) as [| d ds] eqn:Hds;
    [done |].
  apply StringToNumber_digits; [done | done |].
  rewrite <- Hds. apply money_digits_nonneg.
Qed.

End ListingRecord.

(** ** The record of a detail page *)

Section DetailRecord.
Context `{Host}.


End DetailRecord.

(** ** The attribute map *)

Lemma own_set_keys (obj : list (string * string)) (key value : string) :
  map fst (own_set obj key value)
  = if existsb (String.eqb key) (map fst obj) then map fst obj
    else (map fst obj ++ [key])%list.
Proof.
  induction obj as [| [k v] obj IH]; simpl; [done |].
  rewrite (String.eqb_sym key k).
  destruct (String.eqb k key) eqn:Hk; simpl; [done |].
  rewrite IH. by destruct (existsb _ _).
Qed.

Lemma obj_set_NoDup (obj : list (string * string)) (key value : string) :
  NoDup (map fst obj) -> NoDup (map fst (obj_set obj key value)).
Proof.
  intros Hnd. unfold obj_set.
  destruct (key =? "__proto__")%string; [done |]. rewrite own_set_keys.
  destruct (existsb (String.eqb key) (map fst obj)) eqn:Hmem; [done |].
  apply NoDup_app. split; [done |]. split; [| apply NoDup_singleton].
  intros x Hx Hkey. apply list_elem_of_In in Hx.
  apply list_elem_of_In in Hkey as [Heq | []].
  assert (existsb (String.eqb key) (map fst obj) = true); [| congruence].
  apply existsb_exists. exists x. split; [done |]. by apply String.eqb_eq.
Qed.

Lemma obj_get_set_eq (obj : list (string * string)) (key value : string) :
  key <> "__proto__" ->
  obj_get (obj_set obj key value) key = Some value.
Proof.
  intros Hkey. unfold obj_set.
  replace (key =? "__proto__")%string with false
    by (symmetry; by apply String.eqb_neq).
  unfold obj_get. induction obj as [| [k v] obj IH]; simpl.
  - by rewrite String.eqb_refl.
  - destruct (String.eqb k key) eqn:Hk; simpl; rewrite Hk; [done | exact IH].
Qed.

Lemma obj_get_set_ne (obj : list (string * string)) (key other value : string) :
  other <> key -> obj_get (obj_set obj key value) other = obj_get obj other.
Proof.
  intros Hne. unfold obj_set.
  destruct (key =? "__proto__")%string; [done |].
  unfold obj_get. induction obj as [| [k v] obj IH]; simpl.
  - by replace (String.eqb key other) with false
      by (symmetry; apply String.eqb_neq; congruence).
  - destruct (String.eqb k key) eqn:Hk; simpl.
    + apply String.eqb_eq in Hk. subst k.
      by replace (String.eqb key other) with false
        by (symmetry; apply String.eqb_neq; congruence).
    + destruct (String.eqb k other); [done | exact IH].
Qed.

Lemma append_cons (c : ascii) (s t : string) :
  String c s ++ t = String c (s ++ t).
Proof. reflexivity. Qed.

Lemma append_empty (s : string) : s ++ EmptyString = s.
Proof.
  induction s as [| c s IH]; [done |]. by rewrite append_cons, IH.
Qed.

Lemma str_includes_app (c : ascii) (a b : string) :
  str_includes c (a ++ b) = str_includes c a || str_includes c b.
Proof.
  induction a as [| d a IH]; [done |].
  rewrite append_cons. simpl. by rewrite IH, orb_assoc.
Qed.

Lemma split_on_none (sep : ascii) (a : string) :
  str_includes sep a = false -> split_on sep a = [a].
Proof.
  induction a as [| d a IH]; simpl; [done |]. intros Hinc.
  apply orb_false_iff in Hinc as [Hd Ha]. by rewrite Hd, (IH Ha).
Qed.

Lemma split_on_app (sep : ascii) (a b : string) :
  str_includes sep a = false ->
  split_on sep (a ++ String sep b) = a :: split_on sep b.
Proof.
  induction a as [| d a IH].
  - intros _. change (EmptyString ++ String sep b) with (String sep b).
    simpl. by rewrite Ascii.eqb_refl.
  - intros Hinc. simpl in Hinc. apply orb_false_iff in Hinc as [Hd Ha].
    rewrite append_cons. simpl. by rewrite Hd, (IH Ha).
Qed.

Lemma extract_metadata_snoc (before : list string) (span : string) :
  extract_metadata (before ++ [span])
  = let md := extract_metadata before in
    let text := trim span in
    if truthy_str text && str_includes ":" text then
      match map trim (split_on ":" text) with
      | key :: value :: _ => obj_set md key value
      | _ => md
      end
    else if truthy_str text then obj_set md text "true"
    else md.
Proof. unfold extract_metadata. by rewrite fold_left_app. Qed.

(** X9. The attribute map has no key twice, however many spans repeat a
    key. *)
Theorem extract_metadata_keys_distinct (spans : list string) :
  NoDup (map fst (extract_metadata spans)).
Proof.
  induction spans as [| span spans IH] using rev_ind.
  - constructor.
  - rewrite extract_metadata_snoc. cbv zeta.
    destruct (truthy_str (trim span) && str_includes ":" (trim span)).
    + destruct (map trim (split_on ":" (trim span))) as [| key [| value rest]];
        try done. by apply obj_set_NoDup.
    + destruct (truthy_str (trim span)); [by apply obj_set_NoDup | done].
Qed.

(** X10. The last span decides the value of a key, and a value stops at
    the second colon: after a span whose trimmed text is `k:v` or
    `k:v:...` ([k] and [v] without colon, the trimmed [k] other than
    `__proto__`), the map holds the trimmed [v] under the trimmed [k],
    whatever the earlier spans said and whatever follows the second
    colon. A span whose key is `__proto__` changes nothing in the map. *)
Theorem extract_metadata_last_span (before : list string)
    (span k v tail : string) :
  trim span = k ++ String ":" (v ++ tail) ->
  str_includes ":" k = false ->
  str_includes ":" v = false ->
  (tail = EmptyString \/ exists t, tail = String ":" t) ->
  if (trim k =? "__proto__")%string
  then extract_metadata (before ++ [span]) = extract_metadata before
  else obj_get (extract_metadata (before ++ [span])) (trim k) = Some (trim v).
Proof.
  intros Htext Hk Hv Htail. rewrite extract_metadata_snoc. cbv zeta.
  rewrite Htext.
  assert (Htruthy : truthy_str (k ++ String ":" (v ++ tail)) = true).
  { destruct k; [done | by rewrite append_cons]. }
  assert (Hcolon : str_includes ":" (k ++ String ":" (v ++ tail)) = true).
  { rewrite str_includes_app. simpl. apply orb_true_r. }
  rewrite Htruthy, Hcolon. cbn [andb].
  rewrite (split_on_app ":" k _ Hk).
  assert (Hsplit : exists more, split_on ":" (v ++ tail) = v :: more).
  { destruct Htail as [-> | [t ->]].
    - exists []. rewrite append_empty. by apply split_on_none.
    - eexists. by apply split_on_app. }
  destruct Hsplit as [more ->]. cbn [map].
  destruct (String.eqb_spec (trim k) "__proto__") as [Hproto | Hkey].
  - unfold obj_set. by rewrite Hproto.
  - by apply obj_get_set_eq.
Qed.

(** ** What [collectListings] returns *)

Section CollectedRecords.
Context `{Host}.
Variable config : CraigslistConfig.
Variable search : nat -> SearchPage.
Variable tabs : nat -> Tab.
Variable visit : string -> DetailVisit.

Lemma scrapeListingPage_url (v : DetailVisit) (u : string) (listing : ListingData) :
  scrapeListingPage v u = Some listing -> url listing = u.
Proof.
  unfold scrapeListingPage.
  destruct (visit_opens v); [| done]. cbn [negb].
  destruct (visit_page v) as [| | page]; try done.
  destruct (extract page (visit_now v)); [| done].
  destruct (visit_closes v); [| done]. by intros [= <-].
Qed.

Lemma scraped_urls (tasks : list string) :
  NoDup tasks ->
  NoDup (map url (omap (fun u => scrapeListingPage (visit u) u) tasks)) /\
  (forall listing,
     In listing (omap (fun u => scrapeListingPage (visit u) u) tasks) ->
     In (url listing) tasks) /\
  (List.length (omap (fun u => scrapeListingPage (visit u) u) tasks)
     <= List.length tasks)%nat.
Proof.
  induction tasks as [| u tasks IH]; intros Hnd; simpl.
  - split; [constructor |]. split; [by intros ? [] | lia].
  - apply NoDup_cons in Hnd as [Hu Hnd].
    destruct (IH Hnd) as (IHnd & IHin & IHlen).
    destruct (scrapeListingPage (visit u) u) as [listing |] eqn:Hscrape; simpl.
    + apply scrapeListingPage_url in Hscrape. split; [| split].
      * apply NoDup_cons. split; [| done]. rewrite Hscrape.
        intros Hin. apply Hu. apply list_elem_of_In.
        apply list_elem_of_In, in_map_iff in Hin as (l' & Heq & Hl').
        rewrite <- Heq. by apply IHin.
      * intros l' [<- | Hl']; [by left | right; by apply IHin].
      * simpl. apply ->Nat.succ_le_mono. exact IHlen.
    + split; [done |]. split; [| by apply Nat.le_le_succ_r].
      intros l' Hl'. right. by apply IHin.
Qed.

(** X11. No two records returned by [collectListings] have the same
    source URL; each record is the record of a URL that was collected from
    a result page, and there are at most as many records as collected
    URLs. *)
Theorem collectListings_distinct_urls (browser : bool)
    (listings : list ListingData) :
  collectListings browser config search tabs visit = Returned listings ->
  NoDup (map url listings) /\
  (forall listing, In listing listings ->
     In (url listing) (detailTasks config search tabs)) /\
  (List.length listings <= List.length (detailTasks config search tabs))%nat.
Proof.
  unfold collectListings. destruct browser; simpl; [| done].
  destruct (loop_error (collectUrls config search tabs)); [done |].
  intros [= <-]. apply scraped_urls, detailTasks_NoDup.
Qed.


(** X13. When none of the pages below the configured maximum is terminal
    (each is a full page, or throws) and no error of the session leaves
    the loop, the loop navigates to every page number below the maximum,
    and to no other. *)
Theorem full_pages_run_to_maxPages :
  (forall p, (p < Z.to_nat (maxPages config))%nat ->
     terminal_page config (search p) = false) ->
  loop_error (collectUrls config search tabs) = None ->
  navigated (collectUrls config search tabs)
  = seq 0 (Z.to_nat (maxPages config)).
Proof.
  intros Hfull Hnone.
  destruct (collectUrls_shape config search tabs)
    as (k & Hk & Hnav & _ & _ & _ & Hend).
  rewrite Hnav. f_equal.
  destruct Hend as [[_ ->] | [(_ & Hpos & Hends) | [(? & _) | (? & _)]]];
    [done | | congruence | congruence].
  unfold ends_loop in Hends. rewrite Hfull in Hends; [done | lia].
Qed.

End CollectedRecords.

(* ===================================================================== *)
(** * Further properties of the asset downloader *)
(* ===================================================================== *)

Section DownloadBatch.
Context `{Host}.
Variable imageDir : string.

Lemma downloadImage_elsewhere (env : DownloadEnv) (fs : FileSystem)
    (url listing other : string) :
  localPathOf imageDir env url listing <> Some other ->
  fst (downloadImage imageDir env fs url listing) !! other = fs !! other.
Proof.
  intros Hpath.
  destruct (localPathOf imageDir env url listing) as [path |] eqn:Hlocal.
  - apply (downloadImage_frame imageDir env fs url listing path); [done |].
    congruence.
  - unfold localPathOf in Hlocal. unfold downloadImage.
    by destruct (getFileExtension url).
Qed.

Lemma settleAll_elsewhere (envs : nat -> DownloadEnv) (i0 : nat)
    (fs : FileSystem) (urls : list string) (listing other : string) :
  (forall j u, urls !! j = Some u ->
     localPathOf imageDir (envs (i0 + j)%nat) u listing <> Some other) ->
  fst (settleAll imageDir envs i0 fs urls listing) !! other = fs !! other.
Proof.
  revert i0 fs. induction urls as [| u urls IH]; intros i0 fs Hpaths; [done |].
  simpl.
  pose proof (downloadImage_elsewhere (envs i0) fs u listing other) as Hhead.
  destruct (downloadImage imageDir (envs i0) fs u listing) as [fs1 r].
  specialize (IH (S i0) fs1).
  destruct (settleAll imageDir envs (S i0) fs1 urls listing) as [fs2 rs].
  simpl in *. rewrite IH.
  - apply Hhead. specialize (Hpaths 0%nat u eq_refl).
    by rewrite Nat.add_0_r in Hpaths.
  - intros j v Hv. specialize (Hpaths (S j) v Hv).
    by replace (i0 + S j)%nat with (S (i0 + j)) in Hpaths by lia.
Qed.

(** X14. A batch of downloads changes the file system at the local paths
    of its own downloads only: the file at any other path (the images of
    other listings, the database) is as it was. *)
Theorem downloadImages_touches_own_paths_only (envs : nat -> DownloadEnv)
    (fs : FileSystem) (urls : list string) (listing other : string) :
  (forall i u, urls !! i = Some u ->
     localPathOf imageDir (envs i) u listing <> Some other) ->
  fst (downloadImages imageDir envs fs urls listing) !! other = fs !! other.
Proof.
  intros Hpaths. unfold downloadImages.
  pose proof (settleAll_elsewhere envs 0 fs urls listing other Hpaths) as Hfs.
  by destruct (settleAll imageDir envs 0 fs urls listing).
Qed.

Lemma downloadImage_own_path (env : DownloadEnv) (fs : FileSystem)
    (url listing path : string) :
  localPathOf imageDir env url listing = Some path ->
  (download_fails env = false ->
     exists response,
       dl_response env = Some response /\
       fst (downloadImage imageDir env fs url listing) !! path
         = Some (body_bytes response)) /\
  (download_fails env = true -> dl_unlink_ok env = true ->
     fst (downloadImage imageDir env fs url listing) !! path = None).
Proof.
  intros Hpath. split; [| by apply failed_download_no_file].
  unfold localPathOf in Hpath.
  unfold downloadImage, download_fails, pipeline, stat.
  destruct (getFileExtension url) as [extension |]; [| done].
  injection Hpath as <-.
  destruct (dl_response env) as [response |]; [| done].
  destruct (dl_open_ok env); [| done].
  destruct (body_complete response); [| done].
  destruct (dl_stat_ok env); [| done].
  intros _. exists response. split; [done |]. simpl.
  rewrite lookup_insert_eq. simpl. by rewrite lookup_insert_eq.
Qed.

Lemma settleAll_own_paths (envs : nat -> DownloadEnv) (i0 : nat)
    (fs : FileSystem) (urls : list string) (listing : string) :
  (forall i j u v path, i <> j ->
     urls !! i = Some u -> urls !! j = Some v ->
     localPathOf imageDir (envs (i0 + i)%nat) u listing = Some path ->
     localPathOf imageDir (envs (i0 + j)%nat) v listing <> Some path) ->
  forall i u path,
    urls !! i = Some u ->
    localPathOf imageDir (envs (i0 + i)%nat) u listing = Some path ->
    (download_fails (envs (i0 + i)%nat) = false ->
       exists response,
         dl_response (envs (i0 + i)%nat) = Some response /\
         fst (settleAll imageDir envs i0 fs urls listing) !! path
           = Some (body_bytes response)) /\
    (download_fails (envs (i0 + i)%nat) = true ->
     dl_unlink_ok (envs (i0 + i)%nat) = true ->
       fst (settleAll imageDir envs i0 fs urls listing) !! path = None).
Proof.
  revert i0 fs. induction urls as [| u0 urls IH]; intros i0 fs Hdistinct i u path Hu Hpath;
    [done |].
  simpl.
  destruct i as [| i].
  - (* the head: the rest of the batch does not touch its path *)
    injection Hu as <-. rewrite Nat.add_0_r in *.
    pose proof (downloadImage_own_path (envs i0) fs u0 listing path Hpath) as Hhead.
    destruct (downloadImage imageDir (envs i0) fs u0 listing) as [fs1 r].
    pose proof (settleAll_elsewhere envs (S i0) fs1 urls listing path) as Hrest.
    destruct (settleAll imageDir envs (S i0) fs1 urls listing) as [fs2 rs].
    simpl in *. rewrite Hrest; [done |].
    intros j v Hv.
    replace (S (i0 + j)) with (i0 + S j)%nat by lia.
    apply (Hdistinct 0%nat (S j) u0 v path); [lia | done | done |].
    by rewrite Nat.add_0_r.
  - (* a later download *)
    simpl in Hu.
    replace (i0 + S i)%nat with (S i0 + i)%nat in * by lia.
    destruct (downloadImage imageDir (envs i0) fs u0 listing) as [fs1 r].
    specialize (IH (S i0) fs1).
    destruct (settleAll imageDir envs (S i0) fs1 urls listing) as [fs2 rs].
    simpl in *. eapply IH; [| exact Hu | exact Hpath].
    intros a b ua ub p Hab Hua Hub Hp.
    replace (S (i0 + b)) with (i0 + S b)%nat by lia.
    apply (Hdistinct (S a) (S b) ua ub p); [lia | done | done |].
    by replace (i0 + S a)%nat with (S (i0 + a)) by lia.
Qed.

(** X15. When the local paths of a batch are pairwise distinct, the file
    system after [downloadImages] holds, at the path of each download
    that succeeded, a file with the bytes of its body, and no file at the
    path of a download that failed and could be cleaned up. *)
Theorem downloadImages_files_on_disk (envs : nat -> DownloadEnv)
    (fs : FileSystem) (urls : list string) (listing : string)
    (i : nat) (u path : string) :
  (forall a b ua ub p, a <> b ->
     urls !! a = Some ua -> urls !! b = Some ub ->
     localPathOf imageDir (envs a) ua listing = Some p ->
     localPathOf imageDir (envs b) ub listing <> Some p) ->
  urls !! i = Some u ->
  localPathOf imageDir (envs i) u listing = Some path ->
  (download_fails (envs i) = false ->
     exists response,
       dl_response (envs i) = Some response /\
       fst (downloadImages imageDir envs fs urls listing) !! path
         = Some (body_bytes response)) /\
  (download_fails (envs i) = true -> dl_unlink_ok (envs i) = true ->
     fst (downloadImages imageDir envs fs urls listing) !! path = None).
Proof.
  intros Hdistinct Hu Hpath. unfold downloadImages.
  pose proof (settleAll_own_paths envs 0 fs urls listing Hdistinct i u path
                Hu Hpath) as Hown.
  by destruct (settleAll imageDir envs 0 fs urls listing).
Qed.

Lemma settleAll_sublist (envs : nat -> DownloadEnv) (i0 : nat)
    (fs : FileSystem) (urls : list string) (listing : string) :
  map originalUrl (omap fulfilled_value
                     (snd (settleAll imageDir envs i0 fs urls listing)))
    `sublist_of` urls /\
  Forall (fun img => listingId img = listing)
         (omap fulfilled_value
            (snd (settleAll imageDir envs i0 fs urls listing))) /\
  ((forall j u, urls !! j = Some u ->
      is_Some (getFileExtension u) /\
      download_fails (envs (i0 + j)%nat) = false) ->
   map originalUrl (omap fulfilled_value
                      (snd (settleAll imageDir envs i0 fs urls listing)))
   = urls).
Proof.
  revert i0 fs. induction urls as [| u urls IH]; intros i0 fs.
  { simpl. split; [constructor |]. split; [constructor | done]. }
  simpl.
  pose proof (downloadImage_result imageDir (envs i0) fs u listing) as Hr.
  destruct (downloadImage imageDir (envs i0) fs u listing) as [fs1 r].
  specialize (IH (S i0) fs1).
  destruct (settleAll imageDir envs (S i0) fs1 urls listing) as [fs2 rs].
  simpl in *. destruct IH as (IHsub & IHall & IHeq).
  assert (Hshift : (forall j v, (u :: urls) !! j = Some v ->
             is_Some (getFileExtension v) /\
             download_fails (envs (i0 + j)%nat) = false) ->
           forall j v, urls !! j = Some v ->
             is_Some (getFileExtension v) /\
             download_fails (envs (S (i0 + j))) = false).
  { intros Hall j v Hv.
    replace (S (i0 + j)) with (i0 + S j)%nat by lia. by apply (Hall (S j)). }
  destruct (getFileExtension u) as [extension |] eqn:Hext.
  - destruct (download_fails (envs i0)) eqn:Hfails.
    + subst r. simpl. split; [by apply sublist_cons |]. split; [done |].
      intros Hall. destruct (Hall 0%nat u eq_refl) as [_ Hok].
      rewrite Nat.add_0_r in Hok. congruence.
    + destruct (dl_response (envs i0)) as [response |] eqn:Hresp.
      * subst r. simpl. split; [by apply sublist_skip |].
        split; [by constructor |].
        intros Hall. f_equal. apply IHeq. by apply Hshift.
      * unfold download_fails in Hfails. by rewrite Hresp in Hfails.
  - subst r. simpl. split; [by apply sublist_cons |]. split; [done |].
    intros Hall. destruct (Hall 0%nat u eq_refl) as [[? Hsome] _]. congruence.
Qed.

(** X16. The images [downloadImages] returns follow the order of the
    requested URLs: their original URLs form a subsequence of the request,
    each carries the requested listing id, and when every URL is valid
    and every download succeeds there is exactly one image per URL, in
    order. *)
Theorem downloadImages_in_request_order (envs : nat -> DownloadEnv)
    (fs : FileSystem) (urls : list string) (listing : string) :
  map originalUrl (snd (downloadImages imageDir envs fs urls listing))
    `sublist_of` urls /\
  Forall (fun img => listingId img = listing)
         (snd (downloadImages imageDir envs fs urls listing)) /\
  ((forall i u, urls !! i = Some u ->
      is_Some (getFileExtension u) /\ download_fails (envs i) = false) ->
   map originalUrl (snd (downloadImages imageDir envs fs urls listing))
   = urls).
Proof.
  unfold downloadImages.
  pose proof (settleAll_sublist envs 0 fs urls listing) as Hsub.
  by destruct (settleAll imageDir envs 0 fs urls listing).
Qed.

End DownloadBatch.

(* ===================================================================== *)
(** * Properties of the run *)
(* ===================================================================== *)

Import AntiqueAnalyzer.

Section RunProperties.
Context `{Host}.
Variable imageDir : string.
Variable world : World.

Lemma all_answered_snoc (calls : list DbCall) (c : DbCall) :
  all_answered (w_storage world) calls ->
  is_Some (w_storage world (List.length calls) c) ->
  all_answered (w_storage world) (calls ++ [c]).
Proof.
  intros Hall Hc n c' Hlookup.
  destruct (decide (n < List.length calls)%nat) as [Hlt | Hge].
  - rewrite lookup_app_l in Hlookup by done. by apply Hall.
  - rewrite lookup_app_r in Hlookup by lia.
    destruct (n - List.length calls)%nat as [| m] eqn:Hm; [| done].
    simpl in Hlookup. injection Hlookup as <-.
    by replace n with (List.length calls) by lia.
Qed.

(** ** A storage error ends the run at once *)

Lemma saveImages_ended (listingId : string) (images : list ImageData)
    (st : RunState) :
  all_answered (w_storage world) (calls st) ->
  ended_as (w_storage world)
           (fst (saveImages world listingId images st))
           (calls (snd (saveImages world listingId images st))).
Proof.
  revert st. induction images as [| image rest IH]; intros st Hall; [done |].
  simpl. destruct (w_storage world (List.length (calls st))
                     (SaveImage listingId image)) as [rowid |] eqn:Hanswer.
  - apply IH. simpl. apply all_answered_snoc; [done | by rewrite Hanswer].
  - simpl. by exists (calls st).
Qed.

Lemma processListing_ended (listing : ListingData) (st : RunState) :
  all_answered (w_storage world) (calls st) ->
  ended_as (w_storage world)
           (fst (processListing imageDir world listing st))
           (calls (snd (processListing imageDir world listing st))).
Proof.
  intros Hall. unfold processListing, db_call.
  destruct (w_storage world (List.length (calls st)) (SaveListing listing))
    as [rowid |] eqn:Hsaved; [| simpl; by exists (calls st)].
  assert (Hall1 : all_answered (w_storage world) (calls st ++ [SaveListing listing])).
  { apply all_answered_snoc; [done | by rewrite Hsaved]. }
  set (st1 := {| files := files st; calls := calls st ++ [SaveListing listing] |}).
  assert (Himages : exists thrown st2,
    match imageUrls listing with
    | [] => (None, st1)
    | _ :: _ =>
        let '(fs', downloadedImages) :=
          downloadImages imageDir (w_download world (id listing))
                         (files st1) (imageUrls listing) (id listing) in
        saveImages world (id listing) downloadedImages
                   {| files := fs'; calls := calls st1 |}
    end = (thrown, st2) /\
    ended_as (w_storage world) thrown (calls st2)).
  { destruct (imageUrls listing) as [| u urls].
    - by exists None, st1.
    - destruct (downloadImages imageDir (w_download world (id listing))
                  (files st1) (u :: urls) (id listing)) as [fs' imgs].
      pose proof (saveImages_ended (id listing) imgs
                    {| files := fs'; calls := calls st1 |} Hall1) as Hended.
      destruct (saveImages world (id listing) imgs
                  {| files := fs'; calls := calls st1 |}) as [thrown st2].
      by exists thrown, st2. }
  cbv zeta. destruct Himages as (thrown & st2 & -> & Hended).
  destruct thrown as [e |]; [done |]. simpl in Hended.
  destruct (negb (truthy_str (id listing))); [done |].
  destruct (w_storage world (List.length (calls st2))
              (SaveAnalysis (id listing) (analyzeAntique (w_api world) listing)))
    as [rowid' |] eqn:Hanalysis; simpl.
  - apply all_answered_snoc; [done | by rewrite Hanalysis].
  - by exists (calls st2).
Qed.

Lemma processListings_ended (listings : list ListingData) (st : RunState) :
  all_answered (w_storage world) (calls st) ->
  ended_as (w_storage world)
           (fst (processListings imageDir world listings st))
           (calls (snd (processListings imageDir world listings st))).
Proof.
  revert st. induction listings as [| listing rest IH]; intros st Hall; [done |].
  simpl. pose proof (processListing_ended listing st Hall) as Hended.
  destruct (processListing imageDir world listing st) as [[e |] st1]; [done |].
  by apply IH.
Qed.

(** X17. A storage error ends the run at once. When [run] rethrows the
    error of a storage call, that call is the last storage call the run
    made and every call before it was answered; when [run] completes,
    every storage call it made was answered; and when the scraper throws,
    no storage call was made at all. *)
Theorem run_stops_at_storage_error (browser : bool) (config : CraigslistConfig)
    (fs : FileSystem) :
  ended_as (w_storage world)
           (fst (run imageDir world browser config fs))
           (calls (snd (run imageDir world browser config fs))).
Proof.
  unfold run.
  destruct (collectListings browser config (w_search world) (w_tabs world)
              (w_visit world))
    as [listings | e]; [| done].
  apply processListings_ended. by intros n c Hc.
Qed.

(** ** What is asked to be saved *)

Lemma sound_calls_snoc (earlier calls : list DbCall) (c : DbCall) :
  sound_calls (w_api world) earlier calls ->
  sound_call (w_api world) (earlier ++ calls) c ->
  sound_calls (w_api world) earlier (calls ++ [c]).
Proof.
  revert earlier. induction calls as [| c' calls IH]; intros earlier; simpl.
  - intros _ Hc. by rewrite app_nil_r in Hc.
  - intros [Hc' Hrest] Hc. split; [done |]. apply IH; [done |].
    by rewrite <- app_assoc.
Qed.

Lemma sound_calls_at (earlier before after : list DbCall) (c : DbCall) :
  sound_calls (w_api world) earlier (before ++ c :: after) ->
  sound_call (w_api world) (earlier ++ before) c.
Proof.
  revert earlier. induction before as [| c' before IH]; intros earlier; simpl.
  - intros [Hc _]. by rewrite app_nil_r.
  - intros [_ Hrest]. apply IH in Hrest. by rewrite <- app_assoc in Hrest.
Qed.

Lemma saveImages_sound (listing : ListingData) (images : list ImageData)
    (st : RunState) :
  sound_calls (w_api world) [] (calls st) ->
  In (SaveListing listing) (calls st) ->
  sound_calls (w_api world) []
    (calls (snd (saveImages world (id listing) images st))) /\
  In (SaveListing listing)
     (calls (snd (saveImages world (id listing) images st))).
Proof.
  revert st.
  induction images as [| image rest IH]; intros st Hsound Hsaved; [done |].
  assert (Hnext :
    sound_calls (w_api world) [] (calls st ++ [SaveImage (id listing) image]) /\
    In (SaveListing listing) (calls st ++ [SaveImage (id listing) image])).
  { split; [| apply in_app_iff; by left].
    apply sound_calls_snoc; [done |]. by exists listing. }
  destruct Hnext as [Hsound' Hsaved']. simpl.
  destruct (w_storage world (List.length (calls st))
              (SaveImage (id listing) image)) as [rowid |].
  - by apply IH.
  - done.
Qed.

Lemma processListing_sound (listing : ListingData) (st : RunState) :
  sound_calls (w_api world) [] (calls st) ->
  sound_calls (w_api world) []
    (calls (snd (processListing imageDir world listing st))).
Proof.
  intros Hsound. unfold processListing, db_call.
  assert (Hsound1 : sound_calls (w_api world) []
                      (calls st ++ [SaveListing listing])).
  { by apply sound_calls_snoc. }
  assert (Hsaved1 : In (SaveListing listing) (calls st ++ [SaveListing listing])).
  { apply in_app_iff. right. by left. }
  destruct (w_storage world (List.length (calls st)) (SaveListing listing))
    as [rowid |]; [| done].
  set (st1 := {| files := files st; calls := calls st ++ [SaveListing listing] |}).
  assert (Himages : exists thrown st2,
    match imageUrls listing with
    | [] => (None, st1)
    | _ :: _ =>
        let '(fs', downloadedImages) :=
          downloadImages imageDir (w_download world (id listing))
                         (files st1) (imageUrls listing) (id listing) in
        saveImages world (id listing) downloadedImages
                   {| files := fs'; calls := calls st1 |}
    end = (thrown, st2) /\
    sound_calls (w_api world) [] (calls st2) /\
    In (SaveListing listing) (calls st2)).
  { destruct (imageUrls listing) as [| u urls].
    - by exists None, st1.
    - destruct (downloadImages imageDir (w_download world (id listing))
                  (files st1) (u :: urls) (id listing)) as [fs' imgs].
      pose proof (saveImages_sound listing imgs
                    {| files := fs'; calls := calls st1 |} Hsound1 Hsaved1)
        as Hs.
      destruct (saveImages world (id listing) imgs
                  {| files := fs'; calls := calls st1 |}) as [thrown st2].
      by exists thrown, st2. }
  cbv zeta. destruct Himages as (thrown & st2 & -> & Hsound2 & Hsaved2).
  destruct thrown as [e |]; [done |].
  destruct (truthy_str (id listing)) eqn:Hid; [| done]. cbn [negb].
  assert (Hcall : sound_calls (w_api world) []
            (calls st2 ++ [SaveAnalysis (id listing)
                             (analyzeAntique (w_api world) listing)])).
  { apply sound_calls_snoc; [done |]. split; [done |].
    split; [apply analyzeAntique_domain |]. by exists listing. }
  by destruct (w_storage world _ _).
Qed.

Lemma processListings_sound (listings : list ListingData) (st : RunState) :
  sound_calls (w_api world) [] (calls st) ->
  sound_calls (w_api world) []
    (calls (snd (processListings imageDir world listings st))).
Proof.
  revert st. induction listings as [| listing rest IH]; intros st Hsound; [done |].
  simpl. pose proof (processListing_sound listing st Hsound) as Hs.
  destruct (processListing imageDir world listing st) as [[e |] st1]; [done |].
  by apply IH.
Qed.

Lemma run_sound (browser : bool) (config : CraigslistConfig) (fs : FileSystem) :
  sound_calls (w_api world) []
    (calls (snd (run imageDir world browser config fs))).
Proof.
  unfold run.
  destruct (collectListings browser config (w_search world) (w_tabs world)
              (w_visit world))
    as [listings | e]; [| done].
  by apply processListings_sound.
Qed.

(** X18. Whatever the site, the session, the downloads, the inference
    API and the storage do, every analysis a run asks the storage to save
    is saved under the id of a listing that the run asked to save before,
    an id that is not empty; it is the analysis [analyzeAntique] returns
    for that listing, and every field of it is in its domain. *)
Theorem run_saves_sound_analyses (browser : bool) (config : CraigslistConfig)
    (fs : FileSystem) (earlier later : list DbCall) (listingId : string)
    (analysis : AntiqueAnalysis) :
  calls (snd (run imageDir world browser config fs))
  = (earlier ++ SaveAnalysis listingId analysis :: later)%list ->
  truthy_str listingId = true /\
  in_domain analysis /\
  exists listing,
    In (SaveListing listing) earlier /\
    id listing = listingId /\
    analysis = analyzeAntique (w_api world) listing.
Proof.
  intros Hcalls. pose proof (run_sound browser config fs) as Hsound.
  rewrite Hcalls in Hsound. exact (sound_calls_at [] _ _ _ Hsound).
Qed.

(** ** A run the storage never fails *)

Hypothesis storage_answers : forall n c, is_Some (w_storage world n c).

Lemma saveImages_all (listingId : string) (images : list ImageData)
    (st : RunState) :
  saveImages world listingId images st
  = (None, {| files := files st;
              calls := calls st ++ map (SaveImage listingId) images |}).
Proof using storage_answers.
  revert st. induction images as [| image rest IH]; intros st; simpl.
  - rewrite app_nil_r. by destruct st.
  - destruct (storage_answers (List.length (calls st))
                (SaveImage listingId image)) as [rowid ->].
    rewrite IH. simpl. by rewrite <- app_assoc.
Qed.

Lemma saved_listings_app (c1 c2 : list DbCall) :
  saved_listings (c1 ++ c2) = (saved_listings c1 ++ saved_listings c2)%list.
Proof. apply omap_app. Qed.

Lemma saved_images_app (c1 c2 : list DbCall) :
  saved_images (c1 ++ c2) = (saved_images c1 ++ saved_images c2)%list.
Proof. apply omap_app. Qed.

Lemma saved_images_map (listingId : string) (images : list ImageData) :
  saved_images (map (SaveImage listingId) images) = images /\
  saved_listings (map (SaveImage listingId) images) = [].
Proof.
  induction images as [| image rest [IH1 IH2]]; [done |].
  split; simpl; [by f_equal | done].
Qed.

(** The images downloaded for a listing; they do not depend on the files
    the downloads start from. *)
Lemma downloaded_images_independent (listing : ListingData) (fs fs' : FileSystem) :
  snd (downloadImages imageDir (w_download world (id listing)) fs
         (imageUrls listing) (id listing))
  = snd (downloadImages imageDir (w_download world (id listing)) fs'
           (imageUrls listing) (id listing)).
Proof.
  unfold downloadImages.
  pose proof (settleAll_results imageDir (w_download world (id listing)) 0
                fs fs' (imageUrls listing) (id listing)) as Hindep.
  destruct (settleAll imageDir (w_download world (id listing)) 0 fs
              (imageUrls listing) (id listing)).
  destruct (settleAll imageDir (w_download world (id listing)) 0 fs'
              (imageUrls listing) (id listing)).
  simpl in *. by subst.
Qed.

Lemma processListing_all (listing : ListingData) (st : RunState) :
  fst (processListing imageDir world listing st) = None /\
  saved_listings (calls (snd (processListing imageDir world listing st)))
  = (saved_listings (calls st) ++ [listing])%list /\
  saved_images (calls (snd (processListing imageDir world listing st)))
  = (saved_images (calls st)
     ++ snd (downloadImages imageDir (w_download world (id listing)) ∅
               (imageUrls listing) (id listing)))%list.
Proof using storage_answers.
  unfold processListing, db_call.
  destruct (storage_answers (List.length (calls st)) (SaveListing listing))
    as [rowid ->].
  set (st1 := {| files := files st; calls := calls st ++ [SaveListing listing] |}).
  assert (Himages : exists st2,
    match imageUrls listing with
    | [] => (None, st1)
    | _ :: _ =>
        let '(fs', downloadedImages) :=
          downloadImages imageDir (w_download world (id listing))
                         (files st1) (imageUrls listing) (id listing) in
        saveImages world (id listing) downloadedImages
                   {| files := fs'; calls := calls st1 |}
    end = (None, st2) /\
    saved_listings (calls st2) = (saved_listings (calls st) ++ [listing])%list /\
    saved_images (calls st2)
    = (saved_images (calls st)
       ++ snd (downloadImages imageDir (w_download world (id listing)) ∅
                 (imageUrls listing) (id listing)))%list).
  { pose proof (downloaded_images_independent listing (files st1) ∅) as Hindep.
    destruct (imageUrls listing) as [| u urls] eqn:Hurls.
    - exists st1. split; [done |]. subst st1. simpl.
      rewrite saved_listings_app, saved_images_app. simpl.
      by rewrite !app_nil_r.
    - destruct (downloadImages imageDir (w_download world (id listing))
                  (files st1) (u :: urls) (id listing)) as [fs' imgs].
      simpl in Hindep. rewrite saveImages_all. eexists. split; [done |].
      subst st1. simpl.
      rewrite !saved_listings_app, !saved_images_app.
      destruct (saved_images_map (id listing) imgs) as [-> ->]. simpl.
      rewrite !app_nil_r. by rewrite Hindep. }
  cbv zeta. destruct Himages as (st2 & -> & Hl & Hi).
  destruct (negb (truthy_str (id listing))); [done |].
  destruct (storage_answers (List.length (calls st2))
              (SaveAnalysis (id listing) (analyzeAntique (w_api world) listing)))
    as [rowid' ->]. simpl.
  rewrite saved_listings_app, saved_images_app, Hl, Hi. simpl.
  by rewrite !app_nil_r.
Qed.

Lemma processListings_all (listings : list ListingData) (st : RunState) :
  fst (processListings imageDir world listings st) = None /\
  saved_listings (calls (snd (processListings imageDir world listings st)))
  = (saved_listings (calls st) ++ listings)%list /\
  saved_images (calls (snd (processListings imageDir world listings st)))
  = (saved_images (calls st)
     ++ flat_map (fun listing =>
                    snd (downloadImages imageDir
                           (w_download world (id listing)) ∅
                           (imageUrls listing) (id listing)))
                 listings)%list.
Proof using storage_answers.
  revert st. induction listings as [| listing rest IH]; intros st; simpl.
  - by rewrite !app_nil_r.
  - destruct (processListing_all listing st) as (Hnone & Hl & Hi).
    destruct (processListing imageDir world listing st) as [thrown st1].
    simpl in *. subst thrown.
    destruct (IH st1) as (IHnone & IHl & IHi).
    rewrite IHl, IHi, Hl, Hi. by rewrite <- !app_assoc.
Qed.

(** X19. When no storage call throws, [run] completes; the listings it
    asked to save are the collected listings, each once and in order, and
    the images it asked to save are, listing after listing, exactly the
    images whose download succeeded. *)
Theorem run_saves_what_was_collected (browser : bool) (config : CraigslistConfig)
    (fs : FileSystem) (listings : list ListingData) :
  collectListings browser config (w_search world) (w_tabs world) (w_visit world)
    = Returned listings ->
  fst (run imageDir world browser config fs) = None /\
  saved_listings (calls (snd (run imageDir world browser config fs)))
    = listings /\
  saved_images (calls (snd (run imageDir world browser config fs)))
    = flat_map (fun listing =>
                  snd (downloadImages imageDir
                         (w_download world (id listing)) ∅
                         (imageUrls listing) (id listing)))
               listings.
Proof using storage_answers.
  intros Hcollected. unfold run. rewrite Hcollected.
  apply (processListings_all listings {| files := fs; calls := [] |}).
Qed.

End RunProperties.

(* ===================================================================== *)
(** * Waiting and ordering *)
(* ===================================================================== *)

Section Waits.
Context `{Host}.

(** X20. Whatever the upstream service does, the retry loop waits after
    at most three failed attempts, 1000 * 2^i ms after attempt [i], and
    so never more than 7 s in total. *)
Theorem performAnalysis_waits_bounded (api : ListingData -> nat -> ApiOutcome)
    (listing : ListingData) :
  (exists k, (k <= maxRetries)%nat /\
     snd (performAnalysis api listing) = map backoffTime (seq 0 k)) /\
  fold_right Z.add 0 (snd (performAnalysis api listing)) <= 7000.
Proof.
  unfold performAnalysis, maxRetries. simpl.
  assert (Hclosed : forall waits : list Z,
    (waits = [] \/ waits = [1000] \/ waits = [1000; 2000]
     \/ waits = [1000; 2000; 4000]) ->
    (exists k, (k <= 3)%nat /\ waits = map backoffTime (seq 0 k)) /\
    fold_right Z.add 0 waits <= 7000).
  { intros waits [-> | [-> | [-> | ->]]];
      (split; [| by vm_compute]).
    - exists 0%nat. split; [lia | done].
    - exists 1%nat. split; [lia | done].
    - exists 2%nat. split; [lia | done].
    - exists 3%nat. split; [lia | done]. }
  apply Hclosed.
  destruct (api listing 0%nat) as [c0 | st0]; [by left |].
  destruct (api listing 1%nat) as [c1 | st1];
    [destruct (is_rate_limit st0); right; by left |].
  destruct (api listing 2%nat) as [c2 | st2];
    [destruct (is_rate_limit st0), (is_rate_limit st1); right; right; by left |].
  destruct (is_rate_limit st0), (is_rate_limit st1), (is_rate_limit st2);
    simpl; auto.
Qed.

End Waits.

Section FetchOrder.
Variable config : CraigslistConfig.
Variable search : nat -> SearchPage.
Variable tabs : nat -> Tab.



End FetchOrder.

(* ===================================================================== *)
(** * Properties of the configuration *)
(* ===================================================================== *)

(** ** Environment overrides *)

Lemma lower_char_not_capital (d : ascii) : between 65 90 (lower_char d) = false.
Proof.
  unfold lower_char. pose proof (code_bounded d) as Hd.
  destruct (between 65 90 d) eqn:Hupper; simpl.
  - bool_to_N. unfold between. rewrite code_ascii_of_N by lia.
    apply andb_false_iff. right. apply N.leb_gt. lia.
  - destruct (between 192 222 d && negb (code d =? 215)%N) eqn:Hlatin;
      [| done].
    bool_to_N. unfold between. rewrite code_ascii_of_N by lia.
    apply andb_false_iff. right. apply N.leb_gt. lia.
Qed.

Lemma toLowerCase_no_capital (c : ascii) (s : string) :
  str_includes c (toLowerCase s) = true -> between 65 90 c = false.
Proof.
  induction s as [| d s IH]; simpl; [done |]. intros Hinc.
  apply orb_true_iff in Hinc as [Hd | Hs]; [| by apply IH].
  apply Ascii.eqb_eq in Hd. subst c. apply lower_char_not_capital.
Qed.

Lemma split_on_part (sep c : ascii) (s part : string) :
  In part (split_on sep s) -> str_includes c part = true ->
  str_includes c s = true /\ c <> sep.
Proof.
  revert part. induction s as [| d s IH]; intros part; simpl.
  - intros [<- | []]. done.
  - destruct (Ascii.eqb_spec d sep) as [-> | Hne].
    + intros [<- | Hin] Hc; [done |].
      destruct (IH part Hin Hc) as [Hs Hsep]. split; [| done].
      rewrite Hs. apply orb_true_r.
    + destruct (split_on sep s) as [| h t] eqn:Hsplit.
      * intros [<- | []] Hc. simpl in Hc.
        apply orb_true_iff in Hc as [Hc | Hc]; [| done].
        apply Ascii.eqb_eq in Hc. subst c.
        split; [| done]. by rewrite Ascii.eqb_refl.
      * intros [<- | Hin] Hc.
        -- simpl in Hc. apply orb_true_iff in Hc as [Hc | Hc].
           ++ apply Ascii.eqb_eq in Hc. subst c.
              split; [| done]. by rewrite Ascii.eqb_refl.
           ++ destruct (IH h (or_introl eq_refl) Hc) as [Hs Hsep].
              split; [| done]. rewrite Hs. apply orb_true_r.
        -- destruct (IH part (or_intror Hin) Hc) as [Hs Hsep].
           split; [| done]. rewrite Hs. apply orb_true_r.
Qed.

(** X22. The key path an environment variable stands for never holds a
    capital letter nor an underscore, whatever the variable is called: an
    override cannot address a configuration key spelt with either, such
    as `maxPages` or `resultsPerPage`. *)
Theorem configPath_lower_case (key part : string) (c : ascii) :
  In part (Config.configPath key) ->
  str_includes c part = true ->
  between 65 90 c = false /\ c <> "_"%char.
Proof.
  unfold Config.configPath. intros Hpart Hc.
  destruct (split_on_part "_" c _ part Hpart Hc) as [Hs Hsep].
  split; [| done]. by apply toLowerCase_no_capital in Hs.
Qed.

(** ** Merging *)

Lemma props_get_set_eq (props : list (string * JsValue)) (key : string)
    (value : JsValue) :
  Config.props_get (Config.props_set props key value) key = Some value.
Proof.
  unfold Config.props_get. induction props as [| [k v] props IH]; simpl.
  - by rewrite String.eqb_refl.
  - destruct (String.eqb k key) eqn:Hk; simpl; rewrite Hk; [done | exact IH].
Qed.

Lemma props_get_set_ne (props : list (string * JsValue)) (key other : string)
    (value : JsValue) :
  other <> key ->
  Config.props_get (Config.props_set props key value) other
  = Config.props_get props other.
Proof.
  intros Hne. unfold Config.props_get.
  induction props as [| [k v] props IH]; simpl.
  - by replace (String.eqb key other) with false
      by (symmetry; apply String.eqb_neq; congruence).
  - destruct (String.eqb k key) eqn:Hk; simpl.
    + apply String.eqb_eq in Hk. subst k.
      by replace (String.eqb key other) with false
        by (symmetry; apply String.eqb_neq; congruence).
    + destruct (String.eqb k other); [done | exact IH].
Qed.

Lemma props_get_absent (props : list (string * JsValue)) (key : string) :
  ~ In key (map fst props) -> Config.props_get props key = None.
Proof.
  unfold Config.props_get. induction props as [| [k v] props IH]; simpl;
    [done |].
  intros Hnot. destruct (String.eqb_spec k key) as [-> | Hne].
  - exfalso. apply Hnot. by left.
  - apply IH. intros Hin. apply Hnot. by right.
Qed.

Lemma props_get_cons (k key : string) (v : JsValue)
    (props : list (string * JsValue)) :
  Config.props_get ((k, v) :: props) key
  = if String.eqb k key then Some v else Config.props_get props key.
Proof. unfold Config.props_get. simpl. by destruct (String.eqb k key). Qed.

(** X23. What a merged configuration holds under a key, for a target
    object and a source object whose keys are distinct and none of which
    is `__proto__`: the target's value when the source has no such key;
    the merge of the two values when both are objects; and the source's
    value in every other case, so that arrays and primitives of the source
    replace what the target had. *)
Theorem deepMerge_lookup (targetProps sourceProps : list (string * JsValue))
    (key : string) :
  NoDup (map fst sourceProps) ->
  ~ In "__proto__" (map fst sourceProps) ->
  Config.props_get
    (Config.own_props (Config.deepMerge (JObj targetProps) (JObj sourceProps)))
    key
  = match Config.props_get sourceProps key with
    | None => Config.props_get targetProps key
    | Some sourceValue =>
        Some match Config.props_get targetProps key, sourceValue with
             | Some (JObj props), JObj _ =>
                 Config.deepMerge (JObj props) sourceValue
             | _, _ => sourceValue
             end
    end.
Proof.
  intros Hnd _. simpl.
  generalize targetProps as result. revert Hnd.
  induction sourceProps as [| [k sv] keys IH]; intros Hnd result; [done |].
  simpl in Hnd. apply NoDup_cons in Hnd as [Hk Hnd].
  rewrite IH by done. clear IH. rewrite props_get_cons.
  destruct (String.eqb_spec k key) as [-> | Hne].
  - rewrite props_get_absent
      by (intros Hin; apply Hk; by apply list_elem_of_In).
    by rewrite props_get_set_eq.
  - by rewrite props_get_set_ne by congruence.
Qed.

(** ** Numbers in the environment *)

Lemma shr_1_nonneg (mrs : shr_record) : 0 <= shr_m mrs -> 0 <= shr_m (shr_1 mrs).
Proof.
  destruct mrs as [m r s]. simpl.
  destruct m as [| [p | p |] | p]; simpl; lia.
Qed.

Lemma iter_pos_shr_1_nonneg (n : positive) (mrs : shr_record) :
  0 <= shr_m mrs -> 0 <= shr_m (iter_pos shr_1 n mrs).
Proof.
  revert mrs. induction n as [n IH | n IH |]; intros mrs Hm; simpl.
  - apply IH, IH. by apply shr_1_nonneg.
  - by apply IH, IH.
  - by apply shr_1_nonneg.
Qed.

Lemma shr_fexp_nonneg (m e : Z) (l : SpecFloat.location) :
  0 <= m -> 0 <= shr_m (fst (shr_fexp prec emax m e l)).
Proof.
  intros Hm. unfold shr_fexp, shr.
  assert (Hrec : 0 <= shr_m (shr_record_of_loc m l)).
  { by destruct l as [| []]. }
  destruct (fexp prec emax (Zdigits2 m + e) - e); simpl; [done | | done].
  by apply iter_pos_shr_1_nonneg.
Qed.

Lemma round_nearest_even_nonneg (m : Z) (l : SpecFloat.location) :
  0 <= m -> 0 <= round_nearest_even m l.
Proof.
  intros Hm. destruct l as [| []]; simpl; [done | | done | lia].
  destruct (Z.even m); lia.
Qed.

(** Rounding a non-negative mantissa never gives [NaN]. *)
Lemma binary_round_aux_not_NaN (sx : bool) (mx ex : Z) (lx : SpecFloat.location) :
  0 <= mx -> isNaN (binary_round_aux prec emax sx mx ex lx) = false.
Proof.
  intros Hm. unfold binary_round_aux.
  pose proof (shr_fexp_nonneg mx ex lx Hm) as H1.
  destruct (shr_fexp prec emax mx ex lx) as [mrs' e']. simpl in H1.
  pose proof (shr_fexp_nonneg _ e' loc_Exact
                (round_nearest_even_nonneg _ (loc_of_shr_record mrs') H1)) as H2.
  destruct (shr_fexp prec emax _ e' loc_Exact) as [mrs'' e'']. simpl in H2.
  destruct (shr_m mrs'') as [| m | m]; [done | | lia].
  by destruct (e'' <=? emax - prec).
Qed.

Lemma of_Z_not_NaN (n : Z) : 0 <= n -> isNaN (of_Z n) = false.
Proof.
  intros Hn. unfold of_Z, binary_normalize.
  destruct n as [| p | p]; [done | | lia].
  unfold binary_round. destruct (shl_align _ _ _) as [mz ez].
  by apply binary_round_aux_not_NaN.
Qed.

Lemma SFdiv_finite_not_NaN (p q : positive) :
  isNaN (SFdiv prec emax (S754_finite false p 0) (S754_finite false q 0)) = false.
Proof.
  unfold SFdiv, SFdiv_core_binary.
  set (m' := match _ - _ with
             | Z.pos _ => Z.shiftl _ _ | 0 => Z.pos p | Z.neg _ => 0
             end).
  assert (Hm' : 0 <= m').
  { subst m'. destruct (_ - _); [lia | | lia]. by apply Z.shiftl_nonneg. }
  pose proof (Z_div_mod m' (Z.pos q) eq_refl) as Hdiv.
  destruct (Z.div_eucl m' (Z.pos q)) as [quot r].
  apply binary_round_aux_not_NaN. nia.
Qed.

Lemma decimal_to_number_not_NaN (m e : Z) : isNaN (decimal_to_number m e) = false.
Proof.
  unfold decimal_to_number. destruct m as [| p | p]; [done | | done].
  destruct e as [| k | k].
  - apply of_Z_not_NaN. lia.
  - apply of_Z_not_NaN. lia.
  - apply SFdiv_finite_not_NaN.
Qed.

Lemma SFopp_not_NaN (v : number) : isNaN v = false -> isNaN (SFopp v) = false.
Proof. by destruct v. Qed.

Lemma trimEnd_cons (c : ascii) (r : string) :
  trimEnd r = r -> r <> EmptyString -> trimEnd (String c r) = String c r.
Proof. intros Hr Hne. cbn [trimEnd]. rewrite Hr. by destruct r. Qed.

Lemma take_digits_all_trimEnd (t : string) (ds : list Z) :
  take_digits t = (ds, EmptyString) -> trimEnd t = t.
Proof.
  revert ds. induction t as [| c r IH]; intros ds; [done |].
  cbn [take_digits]. destruct (is_digit c) eqn:Hc; [| done].
  destruct (take_digits r) as [ds' rest] eqn:Hr. intros [= _ ->].
  cbn [trimEnd]. rewrite (IH ds' eq_refl).
  destruct r; [| done]. by rewrite (is_digit_not_white c Hc).
Qed.

Lemma take_digits_then_trimEnd (t : string) (ds : list Z) (k : ascii)
    (r' : string) :
  take_digits t = (ds, String k r') ->
  trimEnd r' = r' -> r' <> EmptyString -> trimEnd t = t.
Proof.
  intros Htake Hr' Hne. revert ds Htake.
  induction t as [| c r IH]; intros ds; [done |].
  cbn [take_digits]. destruct (is_digit c) eqn:Hc.
  - destruct (take_digits r) as [ds' rest] eqn:Hr. intros [= _ ->].
    apply trimEnd_cons; [by apply (IH ds') |].
    intros ->. done.
  - intros [= _ -> ->]. by apply trimEnd_cons.
Qed.

(** An unsigned decimal text, [\d+(\.\d+)?]: both [parseFloat] and the
    grammar of numeric literals read all of it, as the same number. *)
Lemma decimal_body_parses (body : string) :
  match take_digits body with
  | ([], _) => false
  | (_ :: _, EmptyString) => true
  | (_ :: _, String c r) =>
      (c =? ".")%char
      && match take_digits r with
         | (_ :: _, EmptyString) => true
         | _ => false
         end
  end = true ->
  exists v,
    parse_unsigned_decimal body = Some v /\
    isNaN v = false /\
    Config.parseFloat body = v /\
    Config.parseFloat (String "-" body) = SFopp v /\
    trimEnd body = body /\
    radix_prefix body = None /\
    exists c r, body = String c r /\ is_digit c = true.
Proof.
  destruct (take_digits body) as [[| d ds] r1] eqn:Htake; [done |].
  destruct (take_digits_head _ _ _ _ Htake) as (c & r & -> & Hc).
  intros Hshape.
  assert (Hsign : take_sign (String c r) = (false, String c r)).
  { cbn [take_sign].
    by rewrite (is_digit_neq c "+" Hc eq_refl), (is_digit_neq c "-" Hc eq_refl). }
  assert (Hinf : (String c r =? "Infinity")%string = false).
  { cbn [String.eqb]. by rewrite (is_digit_neq c "I" Hc eq_refl). }
  assert (Hstrip : strip_prefix "Infinity" (String c r) = None).
  { cbn [strip_prefix].
    destruct (Ascii.eqb_spec "I" c) as [<- | _]; [done | done]. }
  assert (Hstart : trimStart (String c r) = String c r).
  { cbn [trimStart]. by rewrite (is_digit_not_white c Hc). }
  assert (Hfrac : exists fp,
             match r1 with
             | String k r' =>
                 if (k =? ".")%char then take_digits r' else ([], r1)
             | EmptyString => ([], r1)
             end = (fp, EmptyString) /\
             trimEnd (String c r) = String c r /\
             radix_prefix (String c r) = None).
  { destruct r1 as [| k r'].
    - exists []. split; [done |]. split.
      + by apply (take_digits_all_trimEnd _ _ Htake).
      + destruct r as [| x r0]; [done |]. cbn [radix_prefix].
        destruct (c =? "0")%char; [| done].
        assert (Hx : is_digit x = true).
        { cbn [take_digits] in Htake. rewrite Hc in Htake.
          cbn [take_digits] in Htake.
          destruct (is_digit x); [done |]. by inversion Htake. }
        by rewrite (is_digit_neq x "x" Hx eq_refl), (is_digit_neq x "X" Hx eq_refl),
                   (is_digit_neq x "o" Hx eq_refl), (is_digit_neq x "O" Hx eq_refl),
                   (is_digit_neq x "b" Hx eq_refl), (is_digit_neq x "B" Hx eq_refl).
    - apply andb_true_iff in Hshape as [Hk Hdigits].
      apply Ascii.eqb_eq in Hk. subst k.
      destruct (take_digits r') as [[| f fs] [| ? ?]] eqn:Hr'; try done.
      exists (f :: fs). split; [done |]. split.
      + apply (take_digits_then_trimEnd _ _ _ _ Htake).
        * by apply (take_digits_all_trimEnd _ _ Hr').
        * intros ->. done.
      + destruct r as [| x r0]; [done |]. cbn [radix_prefix].
        destruct (c =? "0")%char; [| done].
        assert (Hx : is_digit x = true \/ x = "."%char).
        { cbn [take_digits] in Htake. rewrite Hc in Htake.
          cbn [take_digits] in Htake.
          destruct (is_digit x); [by left |]. right. by inversion Htake. }
        destruct Hx as [Hx | ->]; [| done].
        by rewrite (is_digit_neq x "x" Hx eq_refl), (is_digit_neq x "X" Hx eq_refl),
                   (is_digit_neq x "o" Hx eq_refl), (is_digit_neq x "O" Hx eq_refl),
                   (is_digit_neq x "b" Hx eq_refl), (is_digit_neq x "B" Hx eq_refl). }
  destruct Hfrac as (fp & Hfrac & Hend & Hradix).
  exists (decimal_to_number (digits_value 10 ((d :: ds) ++ fp)%list)
                            (0 - Z.of_nat (List.length fp))).
  split; [| split; [| split; [| split; [| split; [| split]]]]].
  - unfold parse_unsigned_decimal. by rewrite Hinf, Htake, Hfrac.
  - apply decimal_to_number_not_NaN.
  - unfold Config.parseFloat. by rewrite Hstart, Hsign, Hstrip, Htake, Hfrac.
  - unfold Config.parseFloat.
    change (trimStart (String "-" (String c r))) with (String "-" (String c r)).
    change (take_sign (String "-" (String c r))) with (true, String c r).
    cbv beta iota zeta. by rewrite Hstrip, Htake, Hfrac.
  - exact Hend.
  - exact Hradix.
  - by exists c, r.
Qed.

(** X24. An environment value that is a decimal text, [-?\d+(\.\d+)?],
    is stored as a number that is never [NaN] and that is the value of the
    whole text: no part of the text is left out of the conversion. *)
Theorem typedValue_decimal (value : string) :
  Config.is_decimal_text value = true ->
  Config.typedValue value = JNum (StringToNumber value) /\
  isNaN (StringToNumber value) = false.
Proof.
  intros Hdecimal. unfold Config.typedValue. rewrite Hdecimal.
  unfold Config.is_decimal_text in Hdecimal.
  destruct value as [| c0 body]; [done |].
  destruct (Ascii.eqb_spec c0 "-") as [-> | Hplain].
  - destruct (decimal_body_parses body Hdecimal)
      as (v & Hparse & Hv & _ & Hfloat & Hend & _ & c & r & -> & Hc).
    assert (Hnumber : StringToNumber (String "-" (String c r)) = SFopp v).
    { unfold StringToNumber, trim.
      change (trimStart (String "-" (String c r))) with (String "-" (String c r)).
      rewrite (trimEnd_cons "-" _ Hend) by done.
      cbn [is_empty]. unfold parse_numeric_literal.
      change (radix_prefix (String "-" (String c r))) with (@None (Z * string)).
      change (take_sign (String "-" (String c r))) with (true, String c r).
      cbv beta iota zeta. by rewrite Hparse. }
    rewrite Hfloat, Hnumber. split; [done |]. by apply SFopp_not_NaN.
  - destruct (decimal_body_parses (String c0 body) Hdecimal)
      as (v & Hparse & Hv & Hfloat & _ & Hend & Hradix & c & r & Hbody & Hc).
    assert (Hnumber : StringToNumber (String c0 body) = v).
    { rewrite Hbody in *. unfold StringToNumber, trim.
      cbn [trimStart]. rewrite (is_digit_not_white c Hc), Hend.
      cbn [is_empty]. unfold parse_numeric_literal. rewrite Hradix.
      cbn [take_sign].
      rewrite (is_digit_neq c "+" Hc eq_refl), (is_digit_neq c "-" Hc eq_refl).
      by rewrite Hparse. }
    rewrite Hfloat, Hnumber. done.
Qed.

(* ===================================================================== *)
(** * Properties of the log files *)
(* ===================================================================== *)

Lemma generation_inj (logPath : string) (i j : nat) :
  Logger.generation logPath i = Logger.generation logPath j -> i = j.
Proof.
  unfold Logger.generation. intros Heq.
  apply (inj (String.append logPath)) in Heq.
  rewrite !append_cons in Heq. injection Heq as Heq.
  change ((EmptyString ++ pretty i)%string) with (pretty i) in Heq.
  change ((EmptyString ++ pretty j)%string) with (pretty j) in Heq.
  by apply (inj pretty).
Qed.

Lemma generation_not_current (logPath : string) (i : nat) :
  Logger.generation logPath i <> logPath.
Proof.
  unfold Logger.generation. intros Heq.
  rewrite <- (append_empty logPath) in Heq at 2.
  apply (inj (String.append logPath)) in Heq.
  by rewrite append_cons in Heq.
Qed.

Lemma log_name_inj (logPath : string) (i j : nat) :
  log_name logPath i = log_name logPath j -> i = j.
Proof.
  destruct i as [| i], j as [| j]; simpl; intros Heq; [done | | |].
  - by destruct (generation_not_current logPath (S j)).
  - by destruct (generation_not_current logPath (S i)).
  - by apply generation_inj in Heq.
Qed.

Section Rotation.

Context `{Host}.
Variable config : Logger.LoggerConfig.
Variable fails : string -> bool.
Hypothesis healthy : forall path, fails path = false.

(** One guarded rename: the file, if there is one, changes its name, and
    no other entry is touched. *)
Lemma guarded_rename (oldPath newPath : string) (d : Logger.Directory)
    (next : Logger.Directory -> Logger.Renamed) :
  oldPath <> newPath ->
  exists d1,
    (if bool_decide (is_Some (d !! oldPath)) then
       match Logger.renameSync fails oldPath newPath d with
       | Some d' => next d'
       | None => Logger.Threw d
       end
     else next d) = next d1 /\
    d1 !! oldPath = None /\
    d1 !! newPath = match d !! oldPath with
                    | Some file => Some file
                    | None => d !! newPath
                    end /\
    forall p, p <> oldPath -> p <> newPath -> d1 !! p = d !! p.
Proof using healthy.
  intros Hne. unfold Logger.renameSync. rewrite healthy.
  destruct (d !! oldPath) as [file |] eqn:Hold.
  - rewrite bool_decide_eq_true_2 by eauto.
    exists (<[newPath := file]> (delete oldPath d)).
    split; [done |]. split; [| split].
    + rewrite lookup_insert_ne by done. apply lookup_delete_eq.
    + apply lookup_insert_eq.
    + intros p Hp1 Hp2. rewrite lookup_insert_ne by done.
      by rewrite lookup_delete_ne.
  - rewrite bool_decide_eq_false_2 by (intros [? ?]; done).
    exists d. by rewrite Hold.
Qed.

(** The loop moves every rotated file one generation up, from the oldest
    down, so that none overwrites a file that is still to move. *)
Lemma shift_spec (logPath : string) (k : nat) (d : Logger.Directory) :
  exists d',
    Logger.shift fails logPath k d = Logger.Done d' /\
    (forall i, (1 <= i <= k)%nat ->
       d' !! Logger.generation logPath (S i)
       = match d !! Logger.generation logPath i with
         | Some file => Some file
         | None => if bool_decide (i < k)%nat then None
                   else d !! Logger.generation logPath (S i)
         end) /\
    ((1 <= k)%nat -> d' !! Logger.generation logPath 1 = None) /\
    (forall p,
       ((1 <= k)%nat ->
        forall i, (1 <= i <= S k)%nat -> p <> Logger.generation logPath i) ->
       d' !! p = d !! p).
Proof using healthy.
  revert d. induction k as [| k IH]; intros d.
  - exists d. split; [done |]. split; [intros i Hi; lia |]. split; [lia | done].
  - cbn [Logger.shift]. rewrite Nat.add_1_r.
    destruct (guarded_rename (Logger.generation logPath (S k))
                (Logger.generation logPath (S (S k))) d
                (Logger.shift fails logPath k))
      as (d1 & -> & Hold & Hnew & Hrest).
    { intros Heq. apply generation_inj in Heq. lia. }
    destruct (IH d1) as (d' & Hshift & Hgen & Hfree & Hframe).
    exists d'. split; [done |]. split; [| split].
    + intros i Hi. destruct (decide (i = S k)) as [-> | Hne].
      * rewrite Hframe, Hnew.
        -- destruct (d !! Logger.generation logPath (S k)); [done |].
           by rewrite bool_decide_eq_false_2 by lia.
        -- intros _ j Hj Heq. apply generation_inj in Heq. lia.
      * rewrite Hgen by lia.
        rewrite Hrest by (intros Heq; apply generation_inj in Heq; lia).
        destruct (d !! Logger.generation logPath i); [done |].
        rewrite (bool_decide_eq_true_2 (i < S k)%nat) by lia.
        destruct (decide (i < k)%nat) as [Hlt | Hge].
        -- by rewrite bool_decide_eq_true_2.
        -- rewrite bool_decide_eq_false_2 by done.
           replace i with k by lia. exact Hold.
    + intros _. destruct k as [| k].
      * injection Hshift as <-. exact Hold.
      * rewrite Hfree by lia. done.
    + intros p Hp. rewrite Hframe.
      * apply Hrest; apply Hp; lia.
      * intros _ i Hi. apply Hp; lia.
Qed.

(** What a rotation leaves in the directory, when no rename throws. *)
Lemma rotateLogFile_spec (st : Logger.LoggerState) (lines : list string) :
  Logger.logStream st = Some lines ->
  let logPath := path_join (Logger.logDir config) (Logger.logFilename config) in
  let last := (Logger.maxFiles config - 1)%nat in
  let st' := Logger.rotateLogFile config fails st in
  Logger.currentFileSize st' = 0 /\
  Logger.logStream st' = Some [] /\
  Logger.dir st' !! logPath = None /\
  (forall i, (i <= last)%nat ->
     Logger.dir st' !! log_name logPath (S i)
     = match Logger.dir st !! log_name logPath i with
       | Some file => Some file
       | None => if bool_decide (i < last)%nat then None
                 else Logger.dir st !! log_name logPath (S i)
       end) /\
  (forall p, (forall i, (i <= S last)%nat -> p <> log_name logPath i) ->
     Logger.dir st' !! p = Logger.dir st !! p).
Proof using healthy.
  intros Hstream logPath last st'. subst st'.
  unfold Logger.rotateLogFile. rewrite Hstream. fold logPath. fold last.
  destruct (shift_spec logPath last (Logger.dir st))
    as (d' & -> & Hgen & Hfree & Hframe).
  destruct (guarded_rename logPath (Logger.generation logPath 1) d' Logger.Done)
    as (d1 & -> & Hold & Hnew & Hrest).
  { intros Heq. symmetry in Heq. by apply generation_not_current in Heq. }
  cbn [Logger.currentFileSize Logger.logStream Logger.dir].
  assert (Hcurrent : d' !! logPath = Logger.dir st !! logPath).
  { apply Hframe. intros _ i _ Heq. symmetry in Heq.
    by apply generation_not_current in Heq. }
  split; [done |]. split; [done |]. split; [exact Hold |]. split.
  - intros i Hi. destruct i as [| i]; cbn [log_name].
    + rewrite Hnew, Hcurrent.
      destruct (Logger.dir st !! logPath); [done |].
      destruct (decide (0 < last)%nat) as [Hlt | Hge].
      * rewrite bool_decide_eq_true_2 by done. apply Hfree. lia.
      * rewrite bool_decide_eq_false_2 by done.
        apply Hframe. intros Hlast. lia.
    + rewrite Hrest.
      * apply Hgen. lia.
      * apply generation_not_current.
      * intros Heq. apply generation_inj in Heq. lia.
  - intros p Hp. rewrite Hrest.
    + apply Hframe. intros _ i Hi. destruct i as [| i]; [lia |].
      apply (Hp (S i)). lia.
    + apply (Hp 0%nat). lia.
    + apply (Hp 1%nat). lia.
Qed.

(** X25. A rotation moves every log file one generation up and loses at
    most the oldest. Let [last] be `maxFiles - 1`, or 0 when `maxFiles` is
    0, and count the current log as generation 0. When the stream is open
    and no rename throws: the file of generation [i] is under the name of
    generation [i + 1] afterwards, for every [i] up to [last]; a name up
    to [last] whose file has moved on and that got no other is free; the
    name of the current log is free for the new stream; and no other
    entry of the file system is touched. The rotated files are kept under
    `.1` to `.(last + 1)`: `maxFiles` of them beside the current log,
    when `maxFiles` is at least 1. *)
Theorem rotateLogFile_shifts (st : Logger.LoggerState) (lines : list string) :
  Logger.logStream st = Some lines ->
  let logPath := path_join (Logger.logDir config) (Logger.logFilename config) in
  let last := (Logger.maxFiles config - 1)%nat in
  let st' := Logger.rotateLogFile config fails st in
  Logger.dir st' !! logPath = None /\
  (forall i, (i <= last)%nat ->
     Logger.dir st' !! log_name logPath (S i)
     = match Logger.dir st !! log_name logPath i with
       | Some file => Some file
       | None => if bool_decide (i < last)%nat then None
                 else Logger.dir st !! log_name logPath (S i)
       end) /\
  (forall p, (forall i, (i <= S last)%nat -> p <> log_name logPath i) ->
     Logger.dir st' !! p = Logger.dir st !! p).
Proof using healthy.
  intros Hstream logPath last st'.
  destruct (rotateLogFile_spec st lines Hstream) as (_ & _ & Hrest).
  exact Hrest.
Qed.

Lemma log_keeps_size_below (level : Logger.LogLevel) (logLine : string)
    (bytes : Z) (st : Logger.LoggerState) :
  0 < Logger.maxFileSize config ->
  Logger.currentFileSize st < Logger.maxFileSize config ->
  Logger.currentFileSize (Logger.log config fails level logLine bytes st)
  < Logger.maxFileSize config.
Proof using healthy.
  intros Hmax Hsize. unfold Logger.log.
  destruct (Logger.priority level <? _); [done |].
  destruct (Logger.logStream st) as [lines |] eqn:Hstream; [| done].
  destruct (Logger.logToFile config); [| done].
  cbn [Logger.currentFileSize].
  destruct (Z.leb_spec (Logger.maxFileSize config)
              (Logger.currentFileSize st + bytes)) as [Hfull | Hroom];
    [| done].
  edestruct (rotateLogFile_spec
               {| Logger.logStream := Some (lines ++ [logLine])%list;
                  Logger.currentFileSize := Logger.currentFileSize st + bytes;
                  Logger.dir := Logger.dir st |}) as (-> & _); done.
Qed.

(** X26. The tracked size of the current log file stays below
    `maxFileSize` over any sequence of log calls, whatever their levels
    and lengths, when `maxFileSize` is positive and no rename throws: a
    line that takes the size to the limit or beyond is the last one of
    its file. *)
Theorem logged_size_below_limit
    (entries : list (Logger.LogLevel * string * Z)) (st : Logger.LoggerState) :
  0 < Logger.maxFileSize config ->
  Logger.currentFileSize st < Logger.maxFileSize config ->
  Logger.currentFileSize (logged config fails entries st)
  < Logger.maxFileSize config.
Proof using healthy.
  intros Hmax. revert st. unfold logged.
  induction entries as [| [[level logLine] bytes] entries IH]; intros st Hsize;
    [done |].
  cbn [fold_left]. apply IH. by apply log_keeps_size_below.
Qed.

End Rotation.

(* ===================================================================== *)
(** * The further properties on the worked examples *)
(* ===================================================================== *)

Lemma validateString_clean_witness :
  truthy_str (validateString (JStr "  walnut veneer ") "No additional notes")
    = true /\
  trim (validateString (JStr "  walnut veneer ") "No additional notes")
  = validateString (JStr "  walnut veneer ") "No additional notes".
Proof.
  apply (validateString_clean (JStr "  walnut veneer ") "No additional notes");
    reflexivity.
Defined.

Lemma parseResponse_keeps_canonical_witness :
  parseResponse (H := Cases.host) (Some Cases.appraisal_text) = Cases.appraisal.
Proof.
  apply (parseResponse_keeps_canonical (H := Cases.host)
           Cases.appraisal_text Cases.appraisal).
  - reflexivity.
  - reflexivity.
  - unfold canonical, exact_score. simpl.
    repeat split; try reflexivity; auto.
Defined.

Lemma performAnalysis_first_success_witness :
  performAnalysis (H := Cases.host) Cases.limited_api Fixture.listing
  = (Returned (parseResponse (H := Cases.host) (Some Cases.appraisal_text)),
     map backoffTime (seq 0 1)).
Proof.
  apply (performAnalysis_first_success (H := Cases.host) Cases.limited_api
           Fixture.listing 1 (Some Cases.appraisal_text)).
  - unfold maxRetries. lia.
  - intros i Hi. assert (i = 0%nat) as -> by lia.
    exists (Some 429). reflexivity.
  - reflexivity.
Defined.

Lemma performAnalysis_exhausted_witness :
  performAnalysis (H := Fixture.host) Fixture.failing_api Fixture.listing
  = if is_rate_limit (Some 500)
    then (Thrown RetriesExhausted, [1000; 2000; 4000])
    else (Thrown (ApiFailure (Some 500)), [1000; 2000]).
Proof.
  apply (performAnalysis_exhausted (H := Fixture.host) Fixture.failing_api
           Fixture.listing (Some 500) (Some 500) (Some 500)); reflexivity.
Defined.

Lemma listed_price_is_the_amount_witness :
  price Cases.dresser
  = if is_finite (of_Z (money_amount (getText (sel_price (Fixture.dom None)))))
    then Some (of_Z (money_amount (getText (sel_price (Fixture.dom None)))))
    else None.
Proof.
  apply (listed_price_is_the_amount (H := Fixture.host) (Fixture.visit None)
           (Fixture.dom None) Cases.dresser_url Cases.dresser); reflexivity.
Defined.

Lemma extract_metadata_last_span_witness :
  obj_get (extract_metadata (["time: noon"] ++ [" time: 10:30 "])) (trim "time")
  = Some (trim " 10").
Proof.
  apply (extract_metadata_last_span ["time: noon"] " time: 10:30 "
           "time" " 10" ":30").
  - reflexivity.
  - reflexivity.
  - reflexivity.
  - right. by exists "30".
Defined.

Lemma collectListings_distinct_urls_witness :
  NoDup (map url Cases.four_listings) /\
  (forall listing, In listing Cases.four_listings ->
     In (url listing)
        (detailTasks Fixture.config Fixture.search Fixture.tabs)) /\
  (List.length Cases.four_listings
   <= List.length (detailTasks Fixture.config Fixture.search Fixture.tabs))%nat.
Proof.
  apply (collectListings_distinct_urls (H := Fixture.host) Fixture.config
           Fixture.search Fixture.tabs (fun _ => Fixture.visit None) true
           Cases.four_listings).
  reflexivity.
Defined.

Lemma full_pages_run_to_maxPages_witness :
  navigated (collectUrls Cases.two_pages Cases.full_search Fixture.tabs)
  = seq 0 (Z.to_nat (maxPages Cases.two_pages)).
Proof.
  apply (full_pages_run_to_maxPages Cases.two_pages Cases.full_search
           Fixture.tabs).
  - intros p Hp. reflexivity.
  - reflexivity.
Defined.

Lemma downloadImages_touches_own_paths_only_witness :
  fst (downloadImages (H := Fixture.host) "/data/images" Fixture.batch
         {["/data/database.sqlite" := 4096%N]} Fixture.batch_urls "7f3c")
    !! "/data/database.sqlite"
  = ({["/data/database.sqlite" := 4096%N]} : FileSystem)
      !! "/data/database.sqlite".
Proof.
  apply (downloadImages_touches_own_paths_only (H := Fixture.host)
           "/data/images" Fixture.batch
           {["/data/database.sqlite" := 4096%N]} Fixture.batch_urls "7f3c"
           "/data/database.sqlite").
  intros [| [| [| i]]] u Hu; simpl in Hu; try discriminate;
    injection Hu as <-; vm_compute; discriminate.
Defined.

Lemma batch_paths_distinct (a b : nat) (ua ub p : string) :
  a <> b ->
  Fixture.batch_urls !! a = Some ua -> Fixture.batch_urls !! b = Some ub ->
  localPathOf (H := Fixture.host) "/data/images" (Fixture.batch a) ua "7f3c"
    = Some p ->
  localPathOf (H := Fixture.host) "/data/images" (Fixture.batch b) ub "7f3c"
    <> Some p.
Proof.
  intros Hab Ha Hb.
  destruct a as [| [| [| a]]]; simpl in Ha; try discriminate;
    injection Ha as <-;
    destruct b as [| [| [| b]]]; simpl in Hb; try discriminate;
    injection Hb as <-; try (exfalso; apply Hab; reflexivity);
    vm_compute; intros [= <-]; discriminate.
Defined.

Lemma downloadImages_files_on_disk_witness :
  (download_fails (Fixture.batch 1) = false ->
     exists response,
       dl_response (Fixture.batch 1) = Some response /\
       fst (downloadImages (H := Fixture.host) "/data/images" Fixture.batch ∅
              Fixture.batch_urls "7f3c") !! "/data/images/7f3c_0a02.jpg"
         = Some (body_bytes response)) /\
  (download_fails (Fixture.batch 1) = true ->
   dl_unlink_ok (Fixture.batch 1) = true ->
     fst (downloadImages (H := Fixture.host) "/data/images" Fixture.batch ∅
            Fixture.batch_urls "7f3c") !! "/data/images/7f3c_0a02.jpg" = None).
Proof.
  apply (downloadImages_files_on_disk (H := Fixture.host) "/data/images"
           Fixture.batch ∅ Fixture.batch_urls "7f3c" 1
           "https://images.craigslist.org/00b0b_600x450.jpg"
           "/data/images/7f3c_0a02.jpg").
  - apply batch_paths_distinct.
  - reflexivity.
  - reflexivity.
Defined.

Lemma run_saves_sound_analyses_witness :
  truthy_str "7f3c" = true /\
  in_domain getDefaultAnalysis /\
  exists listing,
    In (SaveListing listing)
       [SaveListing Cases.dresser; SaveImage "7f3c" Cases.dresser_image] /\
    id listing = "7f3c" /\
    getDefaultAnalysis
    = analyzeAntique (H := Fixture.host) (w_api Cases.world) listing.
Proof.
  apply (run_saves_sound_analyses (H := Fixture.host) "/data/images"
           Cases.world true Cases.one_page ∅
           [SaveListing Cases.dresser; SaveImage "7f3c" Cases.dresser_image]
           [] "7f3c" getDefaultAnalysis).
  reflexivity.
Defined.

Lemma run_saves_what_was_collected_witness :
  fst (run (H := Fixture.host) "/data/images" Cases.world true
           Cases.one_page ∅) = None /\
  saved_listings (calls (snd (run (H := Fixture.host) "/data/images"
                                  Cases.world true Cases.one_page ∅)))
    = [Cases.dresser] /\
  saved_images (calls (snd (run (H := Fixture.host) "/data/images"
                                Cases.world true Cases.one_page ∅)))
    = flat_map (fun listing =>
                  snd (downloadImages (H := Fixture.host) "/data/images"
                         (w_download Cases.world (id listing)) ∅
                         (imageUrls listing) (id listing)))
               [Cases.dresser].
Proof.
  apply (run_saves_what_was_collected (H := Fixture.host) "/data/images"
           Cases.world).
  - intros n c. by eexists.
  - reflexivity.
Defined.

Example run_of_one_listing :
  calls (snd (run (H := Fixture.host) "/data/images"
                  Cases.world true Cases.one_page ∅))
  = Cases.dresser_calls.
Proof. reflexivity. Qed.

Lemma configPath_lower_case_witness :
  between 65 90 "m" = false /\ "m"%char <> "_"%char.
Proof.
  apply (configPath_lower_case "APP_CONFIG_CRAIGSLIST_MAXPAGES" "maxpages" "m").
  - right. left. reflexivity.
  - reflexivity.
Defined.

Lemma deepMerge_lookup_witness :
  Config.props_get
    (Config.own_props
       (Config.deepMerge (JObj Cases.defaults) (JObj Cases.file_config)))
    "craigslist"
  = Some (JObj [("baseUrl", JStr "https://newyork.craigslist.org");
                ("maxPages", JNum (of_Z 2))]).
Proof.
  etrans.
  - apply (deepMerge_lookup Cases.defaults Cases.file_config "craigslist").
    + apply NoDup_ListNoDup. repeat constructor; simpl; intuition discriminate.
    + simpl. intuition discriminate.
  - reflexivity.
Defined.

Lemma typedValue_decimal_witness :
  Config.typedValue "-12.50" = JNum (StringToNumber "-12.50") /\
  isNaN (StringToNumber "-12.50") = false.
Proof. apply (typedValue_decimal "-12.50"). reflexivity. Defined.

Example merged_configuration :
  Config.deepMerge (JObj Cases.defaults) (JObj Cases.file_config)
  = JObj [("craigslist", JObj [("baseUrl", JStr "https://newyork.craigslist.org");
                               ("maxPages", JNum (of_Z 2))]);
          ("categories", JArr [JStr "fuo"])].
Proof. reflexivity. Qed.

Example environment_values :
  map Config.typedValue ["15"; "-0.5"; "TRUE"; "false"; "1e3"; " 5"; "atq"]
  = [JNum (of_Z 15); JNum (SFopp (S754_finite false 4503599627370496 (-53)));
     JBool true; JBool false; JStr "1e3"; JStr " 5"; JStr "atq"].
Proof. reflexivity. Qed.

Lemma rotateLogFile_shifts_witness :
  let logPath := path_join (Host := Fixture.host) (Logger.logDir Cases.log_config)
                           (Logger.logFilename Cases.log_config) in
  let last := (Logger.maxFiles Cases.log_config - 1)%nat in
  let st' := Logger.rotateLogFile (H := Fixture.host) Cases.log_config
               Cases.never_fails Cases.full_log in
  Logger.dir st' !! logPath = None /\
  (forall i, (i <= last)%nat ->
     Logger.dir st' !! log_name logPath (S i)
     = match Logger.dir Cases.full_log !! log_name logPath i with
       | Some file => Some file
       | None => if bool_decide (i < last)%nat then None
                 else Logger.dir Cases.full_log !! log_name logPath (S i)
       end) /\
  (forall p, (forall i, (i <= S last)%nat -> p <> log_name logPath i) ->
     Logger.dir st' !! p = Logger.dir Cases.full_log !! p).
Proof.
  apply (rotateLogFile_shifts (H := Fixture.host) Cases.log_config
           Cases.never_fails (fun _ => eq_refl) Cases.full_log
           ["[INFO ] [Main] Starting"]).
  reflexivity.
Defined.

Example rotated_directory :
  Logger.dir (Logger.rotateLogFile (H := Fixture.host) Cases.log_config
                Cases.never_fails Cases.full_log)
  = {[ "logs/application.log.1" := 7%nat;
       "logs/application.log.2" := 6%nat;
       "logs/notes.txt" := 1%nat ]}.
Proof. by vm_compute. Qed.

Lemma logged_size_below_limit_witness :
  Logger.currentFileSize
    (logged (H := Fixture.host) Cases.log_config Cases.never_fails
       [(Logger.INFO, "[INFO ] [Main] Starting", 60);
        (Logger.DEBUG, "[DEBUG] [Main] Details", 30);
        (Logger.ERROR, "[ERROR] [Main] Failed", 50);
        (Logger.WARN, "[WARN ] [Main] Slow", 20)]
       Cases.new_log)
  < Logger.maxFileSize Cases.log_config.
Proof.
  apply (logged_size_below_limit (H := Fixture.host) Cases.log_config
           Cases.never_fails (fun _ => eq_refl)).
  - reflexivity.
  - reflexivity.
Defined.
